(** * Restaurant review aggregator: the deterministic tools of [main.py]

    A shallow embedding of [sanitize], [fetch_restaurant_data],
    [calculate_overall_score] and the chat queue built by [main], with the
    properties the specification states about them.  The agent framework
    that runs the chats of the queue is not among the sources: the
    conversational stage and the pipeline are modelled from the
    specification's description of them.

    Python values are modelled as follows.
    - [str] is a list of Unicode code points ([list N]).
    - [int] is [Z]; [float] is IEEE 754 binary64, as [spec_float] with
      precision 53 and maximal exponent 1024.
    - a [dict] is a [gmap], a [set] a [gset].
    - an exception is the [Raise] branch of [result].

    The range of the score is studied through the real value [val] of a
    float, with the rounding errors of the loop bounded one operation at a
    time.

    The first part of the proofs settles the statements of the
    specification; the last part, "Further properties", adds what the code
    shows beyond them. *)

From Stdlib Require Import ZArith NArith List Ascii String Lia ZifyBool.
From Stdlib Require Import Reals Lra.
From Stdlib Require Import Floats.SpecFloat.
From stdpp Require Import base option list gmap.

Set Default Proof Using "Type".

(** ** Exceptions *)

Inductive exn : Set :=
  | ValueError
  | KeyError
  | IndexError
  | OverflowError
  | ZeroDivisionError
  | FileNotFoundError.

Inductive result (A : Type) : Type :=
  | Ok (a : A)
  | Raise (e : exn).
Arguments Ok {A} a.
Arguments Raise {A} e.

#[export] Instance result_ret : MRet result := fun A a => Ok a.
#[export] Instance result_bind : MBind result := fun A B f m =>
  match m with
  | Ok a => f a
  | Raise e => Raise e
  end.

(** ** Strings *)

Abbreviation char := N (only parsing).
Abbreviation str := (list N) (only parsing).

Local Open Scope N_scope.

(** A literal whose characters are all below U+0100. *)
Definition py (s : string) : str := map N_of_ascii (list_ascii_of_string s).

(** [Py_UNICODE_ISSPACE]: the characters [str.isspace], [str.strip] and the
    regular expression class [\s] (on [str] patterns) treat as whitespace. *)
Definition is_space (c : char) : bool :=
  ((9 <=? c) && (c <=? 13)) || ((28 <=? c) && (c <=? 32))
  || (c =? 133) || (c =? 160) || (c =? 5760)
  || ((8192 <=? c) && (c <=? 8202))
  || (c =? 8232) || (c =? 8233) || (c =? 8239) || (c =? 8287) || (c =? 12288).

(** [re.compile(r'\s+').sub(repl, s)]: every maximal run of whitespace is
    replaced by [repl]; [in_run] tells that the scan is inside a run whose
    replacement was already emitted. *)
Fixpoint sub_spaces_scan (repl : str) (in_run : bool) (s : str) : str :=
  match s with
  | [] => []
  | c :: t =>
      if is_space c
      then (if in_run then [] else repl) ++ sub_spaces_scan repl true t
      else c :: sub_spaces_scan repl false t
  end.

Definition SPACES_sub (repl s : str) : str := sub_spaces_scan repl false s.

(** [str.strip()] with no argument. *)
Fixpoint lstrip (s : str) : str :=
  match s with
  | [] => []
  | c :: t => if is_space c then lstrip t else s
  end.

Definition rstrip (s : str) : str := reverse (lstrip (reverse s)).

Definition strip (s : str) : str := rstrip (lstrip s).

(** [sep.join(parts)]. *)
Fixpoint join (sep : str) (parts : list str) : str :=
  match parts with
  | [] => []
  | [p] => p
  | p :: rest => p ++ sep ++ join sep rest
  end.

(** Iterating over a string yields its characters as one-character strings. *)
Definition chars (s : str) : list str := (fun c => [c]) <$> s.

(** The words of the specification: the characters [a-z] and [0-9], the
    removal of all whitespace, the restriction to [a-z0-9]. *)
Definition is_lower_alnum (c : char) : bool :=
  ((97 <=? c) && (c <=? 122)) || ((48 <=? c) && (c <=? 57)).

Definition remove_whitespace (s : str) : str :=
  filter (fun c => is_space c = false) s.

Definition keep_lower_alnum (s : str) : str :=
  filter (fun c => is_lower_alnum c = true) s.

(** *** Lower-casing

    [str.lower] maps every code point through the Unicode table
    ([_PyUnicode_ToLowerFull], which may yield up to three code points),
    except U+03A3, whose image depends on its neighbours.  On ASCII the table
    is fixed; beyond ASCII it is data of the interpreter, kept abstract. *)
Class UnicodeData := {
  to_lower_full_nonascii : char -> str;
  is_cased : char -> bool;
  is_case_ignorable : char -> bool
}.

Section Sanitize.
Context {UD : UnicodeData}.

Definition to_lower_full (c : char) : str :=
  if c <? 128
  then (if (65 <=? c) && (c <=? 90) then [c + 32] else [c])
  else to_lower_full_nonascii c.

Fixpoint skip_case_ignorable (s : str) : str :=
  match s with
  | [] => []
  | c :: t => if is_case_ignorable c then skip_case_ignorable t else s
  end.

(** [before] holds the characters preceding the sigma, nearest first. *)
Definition handle_capital_sigma (before after : str) : char :=
  let final_sigma :=
    match skip_case_ignorable before with
    | [] => false
    | c :: _ => is_cased c
    end in
  let final_sigma :=
    final_sigma &&
    match skip_case_ignorable after with
    | [] => true
    | c :: _ => negb (is_cased c)
    end in
  if final_sigma then 962 else 963.

Definition lower_ucs4 (before : str) (c : char) (after : str) : str :=
  if c =? 931 then [handle_capital_sigma before after] else to_lower_full c.

Fixpoint do_lower (before s : str) : str :=
  match s with
  | [] => []
  | c :: t => lower_ucs4 before c t ++ do_lower (c :: before) t
  end.

Definition lower (s : str) : str := do_lower [] s.

(** *** [sanitize] *)

Definition ascii_lowercase : str := py "abcdefghijklmnopqrstuvwxyz".
Definition digits : str := py "0123456789".

(** [set(string.ascii_lowercase + string.digits)]: a set of one-character
    strings. *)
Definition VALID_CODE_CHARS : gset (list N) :=
  list_to_set (chars (ascii_lowercase ++ digits)).

Definition sanitize (name : str) : str :=
  strip (join []
    (filter (fun c => c ∈ VALID_CODE_CHARS)
       (chars (lower (strip (SPACES_sub [] name)))))).

(** What one input character contributes to the result, whatever surrounds
    it: the two possible images of U+03A3 are both outside [a-z0-9]. *)
Definition kept (c : char) : str :=
  if is_space c then []
  else if c =? 931 then []
  else keep_lower_alnum (to_lower_full c).

(** ** The review store: [fetch_restaurant_data] *)

Definition dot : char := 46.

(** [s.find(sep)] for a one-character [sep]. *)
Fixpoint find (sep : char) (s : str) : option nat :=
  match s with
  | [] => None
  | c :: t => if c =? sep then Some 0%nat else S <$> find sep t
  end.

(** [s.split(sep, 1)] for a one-character [sep]. *)
Definition split_once (sep : char) (s : str) : list str :=
  match find sep s with
  | Some i => [take i s; drop (S i) s]
  | None => [s]
  end.

(** [a, b = parts]: anything but two values is a [ValueError]. *)
Definition unpack2 {A : Type} (parts : list A) : result (A * A) :=
  match parts with
  | [a; b] => Ok (a, b)
  | _ => Raise ValueError
  end.

(** [d[k]] *)
Definition getitem {V : Type} (d : gmap (list N) V) (k : str) : result V :=
  match d !! k with
  | Some v => Ok v
  | None => Raise KeyError
  end.

(** The file system, as far as the program reads it: the decoded text of
    each readable file. *)
Definition open_read (fs : gmap (list N) (list N)) (path : str) : result str :=
  match fs !! path with
  | Some text => Ok text
  | None => Raise FileNotFoundError
  end.

(** Text mode reads with universal newlines: CR LF and a lone CR become LF. *)
Fixpoint translate_newlines (s : str) : str :=
  match s with
  | [] => []
  | c :: t =>
      if c =? 13
      then 10 :: match t with
                 | [] => []
                 | c' :: t' =>
                     if c' =? 10 then translate_newlines t'
                     else translate_newlines t
                 end
      else c :: translate_newlines t
  end.

(** [for line in file]: each line keeps its newline; [cur] is the part of
    the current line already read. *)
Fixpoint split_lines (cur s : str) : list str :=
  match s with
  | [] => match cur with [] => [] | _ => [cur] end
  | c :: t =>
      if c =? 10 then (cur ++ [c]) :: split_lines [] t
      else split_lines (cur ++ [c]) t
  end.

Definition file_lines (text : str) : list str :=
  split_lines [] (translate_newlines text).

Definition store_path : str := py "restaurant-data.txt".

(** The body of [for line in file], on the lines still to read. *)
Fixpoint fetch_loop (sanitized_name restaurant_name : str) (lines : list str)
    (restaurant_data : gmap (list N) (list (list N)))
    : result (gmap (list N) (list (list N))) :=
  match lines with
  | [] => Ok restaurant_data
  | line :: rest =>
      '(restaurant, review) ← unpack2 (split_once dot line);
      let restaurant := strip restaurant in
      let review := strip review in
      if decide (sanitize restaurant = sanitized_name)
      then
        reviews ← getitem restaurant_data restaurant_name;
        fetch_loop sanitized_name restaurant_name rest
          (<[restaurant_name := reviews ++ [review]]> restaurant_data)
      else fetch_loop sanitized_name restaurant_name rest restaurant_data
  end.

Definition fetch_restaurant_data (fs : gmap (list N) (list N))
    (restaurant_name : str) : result (gmap (list N) (list (list N))) :=
  let sanitized_name := sanitize restaurant_name in
  let restaurant_data := {[ restaurant_name := [] ]} in
  file ← open_read fs store_path;
  fetch_loop sanitized_name restaurant_name (file_lines file) restaurant_data.

(** The words of the specification: the name field is the text before the
    first [.], the review text the text after it; a line matches when its
    name field and the query have the same canonical key. *)
Fixpoint before_first (sep : char) (s : str) : str :=
  match s with
  | [] => []
  | c :: t => if c =? sep then [] else c :: before_first sep t
  end.

Fixpoint after_first (sep : char) (s : str) : str :=
  match s with
  | [] => []
  | c :: t => if c =? sep then t else after_first sep t
  end.

Definition matching_reviews (name : str) (lines : list str) : list str :=
  (fun line => strip (after_first dot line)) <$>
  filter (fun line => sanitize (before_first dot line) = sanitize name) lines.

End Sanitize.

(** ** Notions for further properties of the store *)

(** The key of an ASCII character: a capital letter gives its small letter,
    a small letter or a digit itself, anything else nothing. *)
Definition ascii_key (c : char) : str :=
  if (65 <=? c) && (c <=? 90) then [c + 32]
  else if is_lower_alnum c then [c] else [].

(** The text [s] with every newline written as [nl]. *)
Definition with_newlines (nl s : str) : str :=
  s ≫= (fun c => if c =? 10 then nl else [c]).

(** A file system that holds the store with the text [store]. *)
Definition store_fs (store : str) : gmap (list N) (list N) := {[ store_path := store ]}.

(** ** Numbers: [calculate_overall_score] *)

Local Close Scope N_scope.
Local Open Scope Z_scope.

(** Python's [float] is IEEE 754 binary64; the operations round to nearest,
    ties to even. *)
Abbreviation float := spec_float (only parsing).

Definition fadd : float -> float -> float := SFadd 53 1024.
Definition fmul : float -> float -> float := SFmul 53 1024.
Definition fdiv : float -> float -> float := SFdiv 53 1024.
Definition fsqrt : float -> float := SFsqrt 53 1024.

(** The float nearest to an integer. *)
Definition Z2F (z : Z) : float := binary_normalize 53 1024 z 0 false.

Definition is_nan (x : float) : bool :=
  match x with S754_nan => true | _ => false end.

Definition is_zero (x : float) : bool :=
  match x with S754_zero _ => true | _ => false end.

(** A number is an [int] or a [float]. *)
Inductive pynum : Type :=
  | PyInt (z : Z)
  | PyFloat (x : float).

(** [PyLong_AsDouble]: the nearest float, or "int too large to convert to
    float". *)
Definition long_as_double (z : Z) : result float :=
  match Z2F z with
  | S754_infinity _ => Raise OverflowError
  | x => Ok x
  end.

(** [math.sqrt] of an [int]: the argument is converted first; a NaN result
    of a non-NaN argument is the "math domain error". *)
Definition math_sqrt (z : Z) : result float :=
  x ← long_as_double z;
  let r := fsqrt x in
  if is_nan r && negb (is_nan x) then Raise ValueError else Ok r.

(** [n * x], [x * n] and [n / x] for an [int] [n] and a [float] [x]: the
    [int] is converted, then the floats are combined; only the division
    checks its divisor. *)
Definition int_mul_float (n : Z) (x : float) : result float :=
  a ← long_as_double n; Ok (fmul a x).

Definition float_mul_int (x : float) (n : Z) : result float :=
  b ← long_as_double n; Ok (fmul x b).

Definition int_div_float (n : Z) (x : float) : result float :=
  a ← long_as_double n;
  if is_zero x then Raise ZeroDivisionError else Ok (fdiv a x).

(** [acc + x] for a number [acc] and a [float] [x]. *)
Definition num_add_float (acc : pynum) (x : float) : result pynum :=
  match acc with
  | PyInt z => a ← long_as_double z; Ok (PyFloat (fadd a x))
  | PyFloat a => Ok (PyFloat (fadd a x))
  end.

(** The integer nearest to [m / 2^k], ties to even, for [0 <= m]. *)
Definition round_half_even_shift (m : Z) (k : Z) : Z :=
  let d := 2 ^ k in
  let q := m / d in
  let r := m mod d in
  match 2 * r ?= d with
  | Lt => q
  | Eq => if Z.even q then q else q + 1
  | Gt => q + 1
  end.

(** [float.__round__(ndigits)] for [0 <= ndigits]: the float is printed
    with [ndigits] correctly rounded decimals and read back, which yields
    the float nearest to [q / 10^ndigits], where [q] is the integer nearest
    to [x * 10^ndigits].  Infinities and NaN are returned as they are. *)
Definition float_round (x : float) (ndigits : Z) : float :=
  match x with
  | S754_finite s m e =>
      let p := 10 ^ ndigits in
      let q := if 0 <=? e then Z.pos m * 2 ^ e * p
               else round_half_even_shift (Z.pos m * p) (- e) in
      match q with
      | Z.pos q' => fdiv (S754_finite s q' 0) (S754_finite false (Z.to_pos p) 0)
      | _ => S754_zero s
      end
  | _ => x
  end.

(** [round(v, ndigits)] for [0 <= ndigits]: an [int] is returned as it is. *)
Definition py_round (v : pynum) (ndigits : Z) : pynum :=
  match v with
  | PyInt z => PyInt z
  | PyFloat x => PyFloat (float_round x ndigits)
  end.

(** [l[i]] for [0 <= i]. *)
Definition getitem_list {A : Type} (l : list A) (i : nat) : result A :=
  match l !! i with
  | Some a => Ok a
  | None => Raise IndexError
  end.

(** The body of [for i in range(N)], on the indices still to visit. *)
Fixpoint score_loop (food_scores customer_service_scores : list Z) (N : Z)
    (indices : list nat) (overall_score : pynum) : result pynum :=
  match indices with
  | [] => Ok overall_score
  | i :: rest =>
      food ← getitem_list food_scores i;
      service ← getitem_list customer_service_scores i;
      root ← math_sqrt (food ^ 2 * service);
      sqrt125 ← math_sqrt 125;
      scaled ← int_mul_float N sqrt125;
      weight ← int_div_float 1 scaled;
      term ← float_mul_int (fmul root weight) 10;
      overall_score ← num_add_float overall_score term;
      score_loop food_scores customer_service_scores N rest overall_score
  end.

Definition calculate_overall_score (restaurant_name : list N)
    (food_scores customer_service_scores : list Z)
    : result (gmap (list N) pynum) :=
  let len_food_scores := length food_scores in
  let len_customer_service_scores := length customer_service_scores in
  let N := Nat.min len_food_scores len_customer_service_scores in
  let overall_score := PyInt 0 in
  overall_score ←
    score_loop food_scores customer_service_scores (Z.of_nat N) (seq 0 N)
      overall_score;
  let overall_score := py_round overall_score 2 in
  Ok {[ restaurant_name := overall_score ]}.

(** [a == b] between numbers compares the exact values. *)
Definition float_eq_int (x : float) (z : Z) : bool :=
  match x with
  | S754_zero _ => z =? 0
  | S754_finite s m e =>
      let v := if s then Z.neg m else Z.pos m in
      if 0 <=? e then z =? v * 2 ^ e else z * 2 ^ (- e) =? v
  | _ => false
  end.

Definition py_eq (a b : pynum) : bool :=
  match a, b with
  | PyInt x, PyInt y => x =? y
  | PyFloat x, PyFloat y => SFeqb x y
  | PyInt z, PyFloat x | PyFloat x, PyInt z => float_eq_int x z
  end.

(** [a == b] between dictionaries: the same keys, with equal values. *)
Definition dict_eq (a b : gmap (list N) pynum) : bool :=
  bool_decide
    (dom a = dom b
     ∧ map_Forall (fun k x => from_option (py_eq x) false (b !! k) = true) a).

(** The words of the specification: the contribution of one pair, the sum
    over the first [N] pairs in order, rounded to two decimals; the empty
    sum is the integer [0]. *)
Definition contribution (N food service : Z) : float :=
  fmul
    (fmul (fsqrt (Z2F (food ^ 2 * service)))
          (fdiv (Z2F 1) (fmul (Z2F N) (fsqrt (Z2F 125)))))
    (Z2F 10).

Definition sum_contributions (N : Z) (pairs : list (Z * Z)) (start : float) : float :=
  fold_left (fun acc '(food, service) => fadd acc (contribution N food service))
    pairs start.

Definition overall_score_formula (food_scores service_scores : list Z) : pynum :=
  let pairs := zip food_scores service_scores in
  match pairs with
  | [] => PyInt 0
  | _ :: _ =>
      PyFloat
        (float_round (sum_contributions (Z.of_nat (length pairs)) pairs (Z2F 0)) 2)
  end.

Definition is_infinity (x : float) : bool :=
  match x with S754_infinity _ => true | _ => false end.

(** The sign of a float that is not NaN. *)
Definition has_sign (sx : bool) (x : float) : Prop :=
  match x with
  | S754_nan => False
  | S754_zero s | S754_infinity s | S754_finite s _ _ => s = sx
  end.

(** The condition under which a pair of scores can be aggregated: the
    product under the root is not negative and converts to a float. *)
Definition pair_in_domain (pair : Z * Z) : Prop :=
  0 <= pair.1 ^ 2 * pair.2 ∧ is_infinity (Z2F (pair.1 ^ 2 * pair.2)) = false.

(** The accumulator read as a float. *)
Definition acc_float (v : pynum) : float :=
  match v with PyInt z => Z2F z | PyFloat a => a end.

(** ** The range of the score

    The score is meant to lie between 0 and 10.  [score_in_range] is that
    test as Python's comparisons compute it on the returned number. *)

(** [0 <= v <= 10]. *)
Definition score_in_range (v : pynum) : bool :=
  match v with
  | PyInt z => (0 <=? z) && (z <=? 10)
  | PyFloat x => SFleb (Z2F 0) x && SFleb x (Z2F 10)
  end.

(** Both scores of a pair lie between 1 and 5. *)
Definition scores_1_5 (pair : Z * Z) : Prop :=
  1 <= pair.1 <= 5 ∧ 1 <= pair.2 <= 5.

(** The float nearest to [q / 100], the last step of [float_round]. *)
Definition hundredths (q : positive) : float :=
  fdiv (S754_finite false q 0) (S754_finite false 100 0).

(** [math.sqrt(125)]. *)
Definition sqrt125 : float := fsqrt (Z2F 125).

(** A positive finite float with a 53-bit mantissa, as a proposition and as
    a test. *)
Definition pos_float (x : float) : Prop :=
  ∃ (m : positive) (e : Z), x = S754_finite false m e ∧ Z.pos m < 2 ^ 53.

Definition is_pos_float (x : float) : bool :=
  match x with
  | S754_finite false m _ => Z.pos m <? 2 ^ 53
  | _ => false
  end.

(** Comparison of two positive finite floats on a common exponent. *)
Definition fle (x y : float) : bool :=
  match x, y with
  | S754_finite false m1 e1, S754_finite false m2 e2 =>
      let e0 := Z.min e1 e2 in
      Z.pos m1 * 2 ^ (e1 - e0) <=? Z.pos m2 * 2 ^ (e2 - e0)
  | _, _ => false
  end.

(** The root of a product [p] of scores is a positive float between 1 and
    the root of 125. *)
Definition root_ok (p : Z) : bool :=
  is_pos_float (fsqrt (Z2F p)) && fle (Z2F 1) (fsqrt (Z2F p))
  && fle (fsqrt (Z2F p)) sqrt125.

(** *** The real value of a float *)

Definition bpow (e : Z) : R := powerRZ 2 e.

Definition val (x : float) : R :=
  match x with
  | S754_finite s m e =>
      ((if s then - IZR (Z.pos m) else IZR (Z.pos m)) * bpow e)%R
  | _ => 0%R
  end.

(** The relative error of one rounding to 53 bits is at most [u52]. *)
Definition u52 : R := bpow (-52).

(** *** Adding the same term many times

    When all pairs are equal the loop adds one term [t] to the accumulator
    [n] times: [add_repeat].  While the sum stays in one binade each
    addition increases its mantissa by the same amount, so that many
    additions can be taken in one step: [add_jump] and [add_fast]. *)

(** The location of a remainder [rem] below a divisor [d]. *)
Definition loc_of_rem (rem d : Z) : location :=
  if rem =? 0 then loc_Exact else loc_Inexact (2 * rem ?= d).

Fixpoint add_repeat (n : nat) (t s : float) : float :=
  match n with
  | O => s
  | S n' => add_repeat n' t (fadd s t)
  end.

(** From the sum [s] with [left] additions of [t] to go, to a later sum and
    the number of additions that remain. *)
Definition add_jump (t s : float) (left : Z) : float * Z :=
  match s, t with
  | S754_finite false m e, S754_finite false mT eT =>
      let sh := e - eT in
      let a := Z.pos mT / 2 ^ sh in
      let b := Z.pos mT mod 2 ^ sh in
      let c := a + (if 2 ^ (sh - 1) <? b then 1 else 0) in
      let j := Z.min left ((2 ^ 53 - 2 - a - Z.pos m) / c) in
      if (eT <? e) && (2 ^ 52 <=? Z.pos m) && (-1074 <=? e) && (e <=? 971)
         && negb (b =? 2 ^ (sh - 1)) && (0 <? c) && (1 <=? j)
      then (S754_finite false (Z.to_pos (Z.pos m + j * c)) e, left - j)
      else (fadd s t, left - 1)
  | _, _ => (fadd s t, left - 1)
  end.

Fixpoint add_fast (fuel : nat) (t s : float) (left : Z) : float * Z :=
  match fuel with
  | O => (s, left)
  | S fuel' =>
      if left <=? 0 then (s, left)
      else let '(s', left') := add_jump t s left in add_fast fuel' t s' left'
  end.

(** A number of reviews at which the accumulated rounding shows. *)
Definition many_pairs : Z := 1000000000000000.

(** ** Notions for further properties of the score *)

#[export] Instance pair_in_domain_dec (pair : Z * Z) : Decision (pair_in_domain pair) :=
  ltac:(unfold pair_in_domain; apply _).

(** The products under the root, pair by pair. *)
Definition products (food_scores service_scores : list Z) : list Z :=
  zip_with (fun food service => food ^ 2 * service) food_scores service_scores.

(** The root of the product of a pair of scores, as [math.sqrt] returns it. *)
Definition score_root (pair : Z * Z) : float := fsqrt (Z2F (pair.1 ^ 2 * pair.2)).

(** The sum of the values of the roots. *)
Definition root_sum (pairs : list (Z * Z)) : R :=
  foldr (fun pair acc => (val (score_root pair) + acc)%R) 0%R pairs.

(** [m1 * 2^e1 < m2 * 2^e2], computed on a common exponent. *)
Definition dyadic_ltb (m1 e1 m2 e2 : Z) : bool :=
  let e0 := Z.min e1 e2 in
  m1 * 2 ^ (e1 - e0) <? m2 * 2 ^ (e2 - e0).

(** The hundredth nearest to ten times the root of [p] over the root of
    125, both as the floats [math.sqrt] returns. *)
Definition score_hundredth (p : Z) : Z :=
  match fsqrt (Z2F p), sqrt125 with
  | S754_finite false mr er, S754_finite false mc ec =>
      let e0 := Z.min er ec in
      (2000 * (Z.pos mr * 2 ^ (er - e0)) / (Z.pos mc * 2 ^ (ec - e0)) + 1) / 2
  | _, _ => 0
  end.

(** The hundredth for [p] has a margin: ten times the quotient of the roots
    stays within half a hundredth of it when it is decreased by the factor
    [(1 - 6 * 2^-52) * (1 - 2^-20)], and when it is increased by the factor
    [1 + 5 * 2^-52] and by [2^-17]. *)
Definition uniform_ok (p : Z) : bool :=
  match fsqrt (Z2F p), sqrt125 with
  | S754_finite false mr er, S754_finite false mc ec =>
      let q := score_hundredth p in
      (1 <=? q)
      && dyadic_ltb ((2 * q - 1) * Z.pos mc) ec
           (2000 * Z.pos mr * ((2 ^ 52 - 6) * (2 ^ 20 - 1))) (er - 72)
      && dyadic_ltb (2000 * Z.pos mr * (2 ^ 52 + 5)) (er - 52)
           (Z.pos mc * ((2 * q + 1) * 2 ^ 17 - 200)) (ec - 17)
  | _, _ => false
  end.

Local Close Scope Z_scope.
Local Open Scope N_scope.

(** ** The orchestrator: [main] *)

(** The four system prompts, by the function that returns them. *)
Inductive prompt : Set :=
  | get_entrypoint_agent_prompt
  | get_data_fetch_agent_prompt
  | get_review_analysis_agent_prompt
  | get_scoring_agent_prompt.

(** A [ConversableAgent], as far as [main] configures it: the tools its model
    may propose ([register_for_llm]) and the tools it executes
    ([register_for_execution]), by name. *)
Record ConversableAgent : Type := {
  agent_name : list N;
  system_message : prompt;
  human_input_mode : list N;
  llm_tools : list (list N);
  function_map : list (list N)
}.

Definition new_agent (name : list N) (system_message : prompt)
    (human_input_mode : list N) : ConversableAgent :=
  {| agent_name := name; system_message := system_message;
     human_input_mode := human_input_mode; llm_tools := []; function_map := [] |}.

Definition register_for_llm (name : list N) (a : ConversableAgent) : ConversableAgent :=
  {| agent_name := agent_name a; system_message := system_message a;
     human_input_mode := human_input_mode a;
     llm_tools := llm_tools a ++ [name]; function_map := function_map a |}.

Definition register_for_execution (name : list N) (a : ConversableAgent)
    : ConversableAgent :=
  {| agent_name := agent_name a; system_message := system_message a;
     human_input_mode := human_input_mode a;
     llm_tools := llm_tools a; function_map := function_map a ++ [name] |}.

Definition entrypoint_agent : ConversableAgent :=
  register_for_execution (py "calculate_overall_score")
    (register_for_execution (py "fetch_restaurant_data")
       (new_agent (py "entrypoint_agent") get_entrypoint_agent_prompt (py "NEVER"))).

Definition data_fetch_agent : ConversableAgent :=
  register_for_llm (py "fetch_restaurant_data")
    (new_agent (py "data_fetch_agent") get_data_fetch_agent_prompt (py "NEVER")).

Definition review_analysis_agent : ConversableAgent :=
  new_agent (py "review_analysis_agent") get_review_analysis_agent_prompt (py "NEVER").

Definition scoring_agent : ConversableAgent :=
  register_for_llm (py "calculate_overall_score")
    (new_agent (py "scoring_agent") get_scoring_agent_prompt (py "NEVER")).

(** One entry of the chat queue; a key the entry does not set is [None]. *)
Record chat_info : Type := {
  sender : ConversableAgent;
  recipient : ConversableAgent;
  message : list N;
  max_turns : Z;
  clear_history : option bool;
  max_consecutive_auto_reply : option Z;
  summary_method : list N
}.

(** The four entries of the queue [main] passes to
    [entrypoint_agent.initiate_chats], which makes [entrypoint_agent] the
    sender of each. *)
Definition stage1 (user_query : list N) : chat_info :=
  {| sender := entrypoint_agent;
     recipient := data_fetch_agent;
     message := user_query ++
       py ". Once you have fetched all the reviews of the restaurant, end the chat.";
     max_turns := 2%Z;
     clear_history := Some true;
     max_consecutive_auto_reply := None;
     summary_method := py "last_msg" |}.

Definition stage2 : chat_info :=
  {| sender := entrypoint_agent;
     recipient := review_analysis_agent;
     message := py "These are the reviews for the restaurant";
     max_turns := 1%Z;
     clear_history := None;
     max_consecutive_auto_reply := None;
     summary_method := py "last_msg" |}.

Definition stage3 : chat_info :=
  {| sender := entrypoint_agent;
     recipient := scoring_agent;
     message := py "These are the reviews for the restaurant. Once you get the overall score number just return that and end the chat.";
     max_turns := 4%Z;
     clear_history := None;
     max_consecutive_auto_reply := Some 1%Z;
     summary_method := py "last_msg" |}.

Definition stage4 : chat_info :=
  {| sender := entrypoint_agent;
     recipient := entrypoint_agent;
     message := py "What is the overall score of the restaurant. Answer only from the overall score number passed in the context.";
     max_turns := 1%Z;
     clear_history := None;
     max_consecutive_auto_reply := None;
     summary_method := py "last_msg" |}.

Definition chat_queue (user_query : list N) : list chat_info :=
  [stage1 user_query; stage2; stage3; stage4].

(** *** The conversational stage and the pipeline

    [ConversableAgent.initiate_chats] and the chats it runs belong to the
    agent framework, which is not among the sources.  The definitions below
    follow the description the specification gives of them: the
    conversational stage (4.4) and the pipeline orchestrator (4.5). *)

(** Modelled from the spec: the framework's chat is missing.  The states of
    a conversational stage.  The specification names [Terminated_ByPolicy]
    and describes no transition into it. *)
Inductive stage_state : Set :=
  | Idle
  | Active
  | Terminated_Normal
  | Terminated_MaxTurns
  | Terminated_ByPolicy.

(** Modelled from the spec: the framework's messages are missing.  A turn of
    a transcript: its sender and its text. *)
Record turn : Type := { turn_sender : list N; text : list N }.

(** Modelled from the spec: the framework's tool calls are missing.  An
    invocation of a tool: its name, the arguments the participant derived
    from the conversation, and its result as text. *)
Record invocation : Type := {
  tool : list N;
  arguments : list N;
  tool_result : list N
}.

(** Modelled from the spec: the framework's chat is missing.  A stage at
    some point of its life: its state, its transcript and the tools invoked
    so far. *)
Record stage : Type := {
  state : stage_state;
  transcript : list turn;
  invocations : list invocation
}.

(** Modelled from the spec: the framework's chat is missing.  A stage
    before it starts. *)
Definition idle : stage :=
  {| state := Idle; transcript := []; invocations := [] |}.

(** Modelled from the spec: the framework's chat is missing.  The turns a
    stage has taken: the replies of its transcript, after the initial
    message. *)
Definition replies (st : stage) : list turn := drop 1 (transcript st).

(** Modelled from the spec: the framework's chat is missing.  The role of a
    stage is that of its receiving participant, given by its instructions. *)
Definition role_instructions (info : chat_info) : prompt :=
  system_message (recipient info).

(** Modelled from the spec: the framework's dispatch of tool calls is
    missing.  The tools bound to a stage: those that the model of one
    participant may propose ([register_for_llm]) and that the other
    participant executes ([register_for_execution]). *)
Definition bound_tools (info : chat_info) : list (list N) :=
  filter (.∈ function_map (sender info)) (llm_tools (recipient info))
  ++ filter (.∈ function_map (recipient info)) (llm_tools (sender info)).

(** Modelled from the spec: the framework's chat loop is missing.  The turns
    a stage may take: [max_turns], or [max_consecutive_auto_reply] where the
    entry sets it, whichever binds tighter. *)
Definition turn_budget (info : chat_info) : nat :=
  Z.to_nat (match max_consecutive_auto_reply info with
            | Some k => Z.min (max_turns info) k
            | None => max_turns info
            end).

(** Modelled from the spec: the framework's [ChatResult] is missing.  What a
    finished stage leaves behind: the summary, which alone is passed on, and
    the stage as it ended. *)
Record ChatResult : Type := { final : stage; summary : list N }.

(** The participants and the tools at work are outside the program.
    [world] is whatever they depend on and change: the language model, the
    review store.  [propose] is the replying participant deciding, from its
    role instructions, the context seed and the transcript, whether to call
    a tool and with which arguments; [invoke] is the tool called by name on
    the arguments as text, its result serialized, both conversions being
    the framework's; [finalize] is the participant settling the text
    of its reply, with the results of the tools invoked in this turn at
    hand.  [termination_policy] tells whether a reply ends the stage.
    [other_summary] stands for the summarization policies the
    specification does not describe.  A failure of the language model ends
    the program and is not part of this model. *)
Section Orchestrator.
Variable world : Type.
Variable propose :
  world -> ConversableAgent -> option (list N) -> list turn
  -> option (list N * list N) * world.
Variable invoke : world -> list N -> list N -> list N.
Variable finalize :
  world -> ConversableAgent -> option (list N) -> list turn -> list (list N)
  -> list N * world.
Variable termination_policy : list N -> bool.
Variable other_summary : list N -> list turn -> list N.

(** Modelled from the spec: the framework's chat loop is missing.
    [Idle --start(initial_message)--> Active].  The transcript of a stage is
    its own and starts with the initial message, whatever [clear_history]
    says: the specification keeps no history from one stage to the next. *)
Definition start (info : chat_info) (st : stage) : stage :=
  match state st with
  | Idle =>
      {| state := Active;
         transcript := [{| turn_sender := agent_name (sender info);
                           text := message info |}];
         invocations := invocations st |}
  | _ => st
  end.

(** Modelled from the spec: the framework's chat loop is missing.  One turn:
    the receiving participant produces a reply, invoking the tool it asks
    for when that tool is bound to the stage; the stage ends when the reply
    satisfies the termination policy. *)
Definition take_turn (w : world) (info : chat_info) (context : option (list N))
    (st : stage) : stage * world :=
  let '(request, w1) := propose w (recipient info) context (transcript st) in
  let invoked :=
    match request with
    | Some (name, args) =>
        if decide (name ∈ bound_tools info)
        then [{| tool := name; arguments := args;
                 tool_result := invoke w1 name args |}]
        else []
    | None => []
    end in
  let '(reply, w2) :=
    finalize w1 (recipient info) context (transcript st) (tool_result <$> invoked) in
  ({| state := if termination_policy reply then Terminated_Normal else Active;
      transcript := transcript st
        ++ [{| turn_sender := agent_name (recipient info); text := reply |}];
      invocations := invocations st ++ invoked |}, w2).

(** Modelled from the spec: the framework's chat loop is missing.  The
    stage while [Active]: turns are taken until one ends the stage or the
    budget is exhausted. *)
Fixpoint exchange (budget : nat) (w : world) (info : chat_info)
    (context : option (list N)) (st : stage) : stage * world :=
  match state st, budget with
  | Active, S budget' =>
      let '(st', w') := take_turn w info context st in
      exchange budget' w' info context st'
  | Active, O =>
      ({| state := Terminated_MaxTurns; transcript := transcript st;
          invocations := invocations st |}, w)
  | _, _ => (st, w)
  end.

(** Modelled from the spec: the framework's summary methods are missing.
    The summary of a stage that has ended: under ["last_msg"], the text of
    the final turn as it is. *)
Definition summarize (method : list N) (transcript : list turn) : list N :=
  if decide (method = py "last_msg")
  then match last transcript with
       | Some final_turn => text final_turn
       | None => []
       end
  else other_summary method transcript.

(** Modelled from the spec: the framework's [initiate_chat] is missing.  One
    stage from start to end, seeded with the summary of the stage before. *)
Definition initiate_chat (w : world) (info : chat_info) (context : option (list N))
    : ChatResult * world :=
  let '(st, w') := exchange (turn_budget info) w info context (start info idle) in
  ({| final := st; summary := summarize (summary_method info) (transcript st) |}, w').

(** Modelled from the spec: the framework's [initiate_chats] is missing.
    The stages of the queue are run in order, one after the other; each
    stage after the first receives the summary of the stage before it and
    nothing else. *)
Fixpoint run_chats (w : world) (queue : list chat_info) (context : option (list N))
    : list ChatResult * world :=
  match queue with
  | [] => ([], w)
  | info :: rest =>
      let '(chat_res, w1) := initiate_chat w info context in
      let '(chat_results, w2) := run_chats w1 rest (Some (summary chat_res)) in
      (chat_res :: chat_results, w2)
  end.

Definition initiate_chats (w : world) (queue : list chat_info)
    : list ChatResult * world :=
  run_chats w queue None.

(** [print(a, b)]: the two texts, a space between them, a newline. *)
Definition print2 (a b : list N) : list N := a ++ [32] ++ b ++ [10].

(** [main], returning what it writes to the standard output. *)
Definition main (w : world) (user_query : list N) : result (list N) * world :=
  let '(chat_results, w') := initiate_chats w (chat_queue user_query) in
  (last_result ← getitem_list chat_results (length chat_results - 1)%nat;
   Ok (print2 (py "Chat Summary: ") (summary last_result)), w').

End Orchestrator.

(** ** Sample data for the examples *)

(** A scripted participant: in every turn it asks for the lookup tool, and
    its reply is the results it got; no reply ends a stage. *)
Definition eager_propose (w : unit) (agent : ConversableAgent)
    (context : option (list N)) (transcript : list turn)
    : option (list N * list N) * unit :=
  (Some (py "fetch_restaurant_data", py "Subway"), w).

Definition echo_invoke (w : unit) (name args : list N) : list N := name ++ args.

Definition echo_finalize (w : unit) (agent : ConversableAgent)
    (context : option (list N)) (transcript : list turn) (results : list (list N))
    : list N * unit :=
  (concat results, w).

Definition eager_run : list ChatResult :=
  (initiate_chats unit eager_propose echo_invoke echo_finalize
     (fun _ => false) (fun _ _ => []) tt (chat_queue (py "How good is Subway?"))).1.

(** A fragment of the Unicode tables: the two code points beyond ASCII whose
    lower-case form contains an ASCII letter, and the Latin-1 capitals. *)
Definition sample_unicode : UnicodeData := {|
  to_lower_full_nonascii c :=
    if c =? 304 then [105; 775]
    else if c =? 8490 then [107]
    else if (192 <=? c) && (c <=? 222) && negb (c =? 215) then [c + 32]
    else [c];
  is_cased c :=
    ((65 <=? c) && (c <=? 90)) || ((97 <=? c) && (c <=? 122))
    || ((192 <=? c) && (c <=? 255) && negb (c =? 215) && negb (c =? 247));
  is_case_ignorable c := (c =? 39) || (c =? 46) || (c =? 58) || (c =? 775)
|}.

(** The store of the specification's example, one record. *)
Definition subway_store : str := py "Subway. Great food, average service.".

Definition subway_fs : gmap (list N) (list N) := {[ store_path := subway_store ]}.

(** A store whose second line lacks the separator. *)
Definition broken_store : str :=
  py "Subway. Great food, average service." ++ [10] ++ py "no separator here" ++ [10].

(** * Proofs *)

(** Evaluate a bind whose first computation has returned. *)
Ltac bind_ok := cbn [mbind result_bind].

(** ** Properties of [sanitize] *)

Lemma VALID_CODE_CHARS_spec (c : char) :
  [c] ∈ VALID_CODE_CHARS ↔ is_lower_alnum c = true.
Proof.
  unfold VALID_CODE_CHARS, chars, is_lower_alnum.
  rewrite elem_of_list_to_set, list_elem_of_fmap.
  replace (ascii_lowercase ++ digits)
    with ((N.of_nat <$> seq 97 26) ++ (N.of_nat <$> seq 48 10)) by reflexivity.
  split.
  - intros (y & [= <-] & Hy).
    rewrite elem_of_app, !list_elem_of_fmap in Hy.
    destruct Hy as [(n & -> & Hn) | (n & -> & Hn)];
      apply elem_of_seq in Hn; lia.
  - intros Hc. exists c. split; [done|].
    rewrite elem_of_app, !list_elem_of_fmap.
    destruct (decide (97 <= c)) as [H97|H97].
    + left. exists (N.to_nat c). rewrite elem_of_seq. lia.
    + right. exists (N.to_nat c). rewrite elem_of_seq. lia.
Qed.

Lemma is_lower_alnum_not_space (c : char) :
  is_lower_alnum c = true → is_space c = false.
Proof. unfold is_lower_alnum, is_space. lia. Qed.

Lemma lstrip_no_space (s : str) :
  Forall (fun c => is_space c = false) s → lstrip s = s.
Proof. destruct 1 as [|c t Hc _]; simpl; [done|]. by rewrite Hc. Qed.

Lemma strip_no_space (s : str) :
  Forall (fun c => is_space c = false) s → strip s = s.
Proof.
  intros Hs. unfold strip, rstrip. rewrite (lstrip_no_space s Hs).
  rewrite lstrip_no_space by by apply Forall_reverse.
  apply reverse_involutive.
Qed.

Lemma sub_spaces_scan_empty (in_run : bool) (s : str) :
  sub_spaces_scan [] in_run s = remove_whitespace s.
Proof.
  unfold remove_whitespace. revert in_run.
  induction s as [|c t IH]; intros in_run; simpl; [done|].
  rewrite filter_cons. destruct (is_space c) eqn:Hc.
  - rewrite decide_False by done. destruct in_run; apply IH.
  - rewrite decide_True by done. f_equal. apply IH.
Qed.

Lemma remove_whitespace_no_space (s : str) :
  Forall (fun c => is_space c = false) (remove_whitespace s).
Proof. apply Forall_forall. intros c Hc. by apply list_elem_of_filter in Hc as [? _]. Qed.

Lemma join_empty (parts : list str) : join [] parts = concat parts.
Proof.
  induction parts as [|p [|q rest] IH]; simpl in *; [done| |].
  - by rewrite app_nil_r.
  - by rewrite IH.
Qed.

Section SanitizeFacts.
Context {UD : UnicodeData}.

Lemma concat_valid_chars (s : str) :
  concat (filter (fun c => c ∈ VALID_CODE_CHARS) (chars s)) = keep_lower_alnum s.
Proof.
  unfold keep_lower_alnum, chars.
  induction s as [|c t IH]; [done|].
  rewrite fmap_cons, !filter_cons.
  destruct (decide (is_lower_alnum c = true)) as [Hc|Hc].
  - rewrite decide_True by by apply VALID_CODE_CHARS_spec.
    simpl. by rewrite IH.
  - rewrite decide_False by by rewrite VALID_CODE_CHARS_spec.
    apply IH.
Qed.

(** [sanitize] is the composition the specification describes: remove the
    whitespace, lower-case, keep [a-z0-9]; both calls of [strip] find nothing
    to remove. *)
Lemma sanitize_unfold (s : str) :
  sanitize s = keep_lower_alnum (lower (remove_whitespace s)).
Proof.
  unfold sanitize, SPACES_sub.
  rewrite sub_spaces_scan_empty.
  rewrite (strip_no_space (remove_whitespace s)) by apply remove_whitespace_no_space.
  rewrite join_empty, concat_valid_chars.
  apply strip_no_space, Forall_forall. intros c Hc.
  apply list_elem_of_filter in Hc as [Hc _]. by apply is_lower_alnum_not_space.
Qed.

Lemma sanitize_lower_alnum (s : str) :
  Forall (fun c => is_lower_alnum c = true) (sanitize s).
Proof.
  rewrite sanitize_unfold. apply Forall_forall. intros c Hc.
  by apply list_elem_of_filter in Hc as [Hc _].
Qed.

Lemma keep_lower_alnum_do_lower (before s : str) :
  keep_lower_alnum (do_lower before s)
  = s ≫= (fun c => if c =? 931 then [] else keep_lower_alnum (to_lower_full c)).
Proof.
  unfold keep_lower_alnum. revert before.
  induction s as [|c t IH]; intros before; [done|].
  simpl. rewrite filter_app, IH. f_equal.
  unfold lower_ucs4, handle_capital_sigma.
  destruct (c =? 931); [|done].
  by repeat match goal with |- context [if ?b then _ else _] => destruct b end.
Qed.

Lemma sanitize_charwise (s : str) : sanitize s = s ≫= kept.
Proof.
  rewrite sanitize_unfold. unfold lower. rewrite keep_lower_alnum_do_lower.
  unfold remove_whitespace, kept.
  induction s as [|c t IH]; [done|].
  rewrite filter_cons, (bind_cons _ c t). destruct (is_space c) eqn:Hc.
  - rewrite decide_False by done. by rewrite IH.
  - rewrite decide_True by done. by rewrite bind_cons, IH.
Qed.

Lemma kept_lower_alnum (c : char) : is_lower_alnum c = true → kept c = [c].
Proof.
  intros Hc. unfold kept, to_lower_full, keep_lower_alnum.
  rewrite (is_lower_alnum_not_space c Hc).
  unfold is_lower_alnum in Hc.
  replace (c =? 931) with false by lia.
  replace (c <? 128) with true by lia.
  replace ((65 <=? c) && (c <=? 90)) with false by lia.
  rewrite filter_cons, decide_True; [done|]. unfold is_lower_alnum. lia.
Qed.

Lemma bind_kept_fixed (s : str) :
  Forall (fun c => is_lower_alnum c = true) s → s ≫= kept = s.
Proof.
  induction 1 as [|c t Hc _ IH]; [done|].
  by rewrite bind_cons, kept_lower_alnum, IH.
Qed.

Lemma kept_space (c : char) : is_space c = true → kept c = [].
Proof. intros Hc. unfold kept. by rewrite Hc. Qed.

End SanitizeFacts.

(** ** Properties of the review store lookup *)

Lemma find_spec (sep : char) (s : str) :
  match find sep s with
  | Some i =>
      take i s = before_first sep s ∧ drop (S i) s = after_first sep s ∧ sep ∈ s
  | None => sep ∉ s
  end.
Proof.
  induction s as [|c t IH]; simpl.
  - apply not_elem_of_nil.
  - destruct (N.eqb_spec c sep) as [->|Hne].
    + split; [done|]. split; [by rewrite drop_0|by left].
    + destruct (find sep t) as [i|]; simpl.
      * destruct IH as (Ht & Hd & Hin).
        split; [by f_equal|]. split; [done|by right].
      * rewrite not_elem_of_cons. split; [congruence|done].
Qed.

Lemma split_once_found (sep : char) (s : str) :
  sep ∈ s → split_once sep s = [before_first sep s; after_first sep s].
Proof.
  intros Hin. unfold split_once. pose proof (find_spec sep s) as H.
  destruct (find sep s); [|done]. destruct H as (-> & -> & _). done.
Qed.

Lemma split_once_missing (sep : char) (s : str) :
  sep ∉ s → split_once sep s = [s].
Proof.
  intros Hnin. unfold split_once. pose proof (find_spec sep s) as H.
  destruct (find sep s); [|done]. by destruct H as (_ & _ & ?).
Qed.

Lemma lstrip_prefix (s : str) :
  ∃ p, s = p ++ lstrip s ∧ Forall (fun c => is_space c = true) p.
Proof.
  induction s as [|c t (p & Hp & Hsp)]; simpl.
  - by exists [].
  - destruct (is_space c) eqn:Hc.
    + exists (c :: p). split; [by rewrite <- app_comm_cons, <- Hp | by constructor].
    + by exists [].
Qed.

Lemma rstrip_suffix (s : str) :
  ∃ p, s = rstrip s ++ p ∧ Forall (fun c => is_space c = true) p.
Proof.
  destruct (lstrip_prefix (reverse s)) as (p & Hp & Hsp).
  exists (reverse p). split; [|by apply Forall_reverse].
  unfold rstrip. rewrite <- reverse_app, <- Hp. by rewrite reverse_involutive.
Qed.

Section FetchFacts.
Context {UD : UnicodeData}.

Lemma bind_kept_spaces (p : str) :
  Forall (fun c => is_space c = true) p → p ≫= kept = [].
Proof.
  induction 1 as [|c t Hc _ IH]; [done|].
  by rewrite bind_cons, kept_space, IH.
Qed.

(** Trimming a name does not change its canonical key. *)
Lemma sanitize_strip (s : str) : sanitize (strip s) = sanitize s.
Proof.
  rewrite !sanitize_charwise. unfold strip.
  destruct (lstrip_prefix s) as (p & Hp & Hsp).
  destruct (rstrip_suffix (lstrip s)) as (q & Hq & Hsq).
  rewrite Hp at 2. rewrite Hq at 2.
  rewrite !bind_app, (bind_kept_spaces p Hsp), (bind_kept_spaces q Hsq).
  by rewrite app_nil_r.
Qed.

Lemma matching_reviews_cons (name line : str) (lines : list str) :
  matching_reviews name (line :: lines)
  = (if decide (sanitize (before_first dot line) = sanitize name)
     then [strip (after_first dot line)] else [])
    ++ matching_reviews name lines.
Proof.
  unfold matching_reviews. rewrite filter_cons. by case_decide.
Qed.

(** The loop keeps the single key and appends the matching reviews in the
    order of the lines. *)
Lemma fetch_loop_ok (name : str) (lines : list str) (acc : list str) :
  Forall (fun line => dot ∈ line) lines →
  fetch_loop (sanitize name) name lines {[ name := acc ]}
  = Ok {[ name := acc ++ matching_reviews name lines ]}.
Proof.
  intros Hdots. revert acc.
  induction Hdots as [|line rest Hdot _ IH]; intros acc.
  - simpl. by rewrite app_nil_r.
  - rewrite matching_reviews_cons. simpl.
    rewrite (split_once_found dot line Hdot). simpl.
    rewrite sanitize_strip.
    destruct (decide (sanitize (before_first dot line) = sanitize name)).
    + unfold getitem. rewrite lookup_singleton_eq. simpl.
      rewrite insert_singleton_eq, IH. by rewrite <- app_assoc.
    + by rewrite IH.
Qed.

(** A line without separator stops the loop with the unpacking error. *)
Lemma fetch_loop_malformed (name : str) (lines : list str) (acc : list str) :
  Exists (fun line => dot ∉ line) lines →
  fetch_loop (sanitize name) name lines {[ name := acc ]} = Raise ValueError.
Proof.
  intros Hbad. revert acc.
  induction Hbad as [line rest Hnodot|line rest _ IH]; intros acc.
  - simpl. by rewrite (split_once_missing dot line Hnodot).
  - simpl. destruct (decide (dot ∈ line)) as [Hdot|Hnodot].
    + rewrite (split_once_found dot line Hdot). simpl.
      destruct (decide (sanitize (strip (before_first dot line)) = sanitize name)).
      * unfold getitem. rewrite lookup_singleton_eq. simpl.
        by rewrite insert_singleton_eq.
      * done.
    + by rewrite (split_once_missing dot line Hnodot).
Qed.

End FetchFacts.

(** ** The claims about [sanitize] and [fetch_restaurant_data] *)

Section StoreClaims.
Context {UD : UnicodeData}.

Lemma fetch_restaurant_data_ok (fs : gmap (list N) (list N)) (store name : str) :
  fs !! store_path = Some store →
  Forall (fun line => dot ∈ line) (file_lines store) →
  fetch_restaurant_data fs name
  = Ok {[ name := matching_reviews name (file_lines store) ]}.
Proof.
  intros Hfs Hdots. unfold fetch_restaurant_data, open_read. rewrite Hfs. simpl.
  by rewrite (fetch_loop_ok name _ [] Hdots).
Qed.

Lemma matching_reviews_key (a b : str) (lines : list str) :
  sanitize a = sanitize b → matching_reviews a lines = matching_reviews b lines.
Proof. intros Hab. unfold matching_reviews. by rewrite Hab. Qed.

Lemma matching_reviews_none (name : str) (lines : list str) :
  Forall (fun line => sanitize (before_first dot line) ≠ sanitize name) lines →
  matching_reviews name lines = [].
Proof.
  induction 1 as [|line rest Hline _ IH]; [done|].
  rewrite matching_reviews_cons. by rewrite decide_False.
Qed.

Lemma subway_store_lines : Forall (fun line => dot ∈ line) (file_lines subway_store).
Proof. apply (bool_decide_unpack _). vm_compute. exact I. Qed.

Lemma fetch_subway (name : str) :
  sanitize name = py "subway" →
  fetch_restaurant_data subway_fs name
  = Ok {[ name := [py "Great food, average service."] ]}.
Proof.
  intros Hname.
  rewrite (fetch_restaurant_data_ok subway_fs subway_store name);
    [|apply lookup_singleton_eq|apply subway_store_lines].
  do 2 f_equal. unfold matching_reviews. rewrite Hname. vm_compute. reflexivity.
Qed.

(** C7. [sanitize] is idempotent: sanitizing a sanitized name changes
    nothing. *)
Theorem sanitize_idempotent (x : str) : sanitize (sanitize x) = sanitize x.
Proof.
  rewrite (sanitize_charwise (sanitize x)).
  apply bind_kept_fixed, sanitize_lower_alnum.
Qed.

(** C9. [sanitize] is a total function that removes all whitespace,
    lower-cases and keeps only the characters [a-z0-9]; the empty string and
    the name "Chipotle Mexican Grill" are mapped as the specification says. *)
Theorem sanitize_spec (s : str) :
  sanitize s = keep_lower_alnum (lower (remove_whitespace s))
  ∧ Forall (fun c => is_lower_alnum c = true) (sanitize s)
  ∧ Forall (fun c => is_space c = false) (sanitize s)
  ∧ sanitize (py "") = py ""
  ∧ sanitize (py "Chipotle Mexican Grill") = py "chipotlemexicangrill".
Proof.
  split; [apply sanitize_unfold|].
  split; [apply sanitize_lower_alnum|].
  split.
  - eapply Forall_impl; [apply sanitize_lower_alnum|].
    apply is_lower_alnum_not_space.
  - split; vm_compute; reflexivity.
Qed.

(** C10. [sanitize] distributes over concatenation. *)
Theorem sanitize_app (x y : str) : sanitize (x ++ y) = sanitize x ++ sanitize y.
Proof. rewrite !sanitize_charwise. apply bind_app. Qed.

(** C2. When every line of the store contains a [.], the lookup returns
    the single-entry mapping from the query name as given to the trimmed
    review texts, in file order, of exactly the lines whose name field has
    the canonical key of the query; with no such line the list is empty. *)
Theorem fetch_reviews_spec (fs : gmap (list N) (list N)) (store name : str) :
  fs !! store_path = Some store →
  Forall (fun line => dot ∈ line) (file_lines store) →
  fetch_restaurant_data fs name
  = Ok {[ name :=
          (fun line => strip (after_first dot line)) <$>
          filter (fun line => sanitize (before_first dot line) = sanitize name)
            (file_lines store) ]}
  ∧ (Forall (fun line => sanitize (before_first dot line) ≠ sanitize name)
       (file_lines store) →
     fetch_restaurant_data fs name = Ok {[ name := [] ]}).
Proof.
  intros Hfs Hdots.
  pose proof (fetch_restaurant_data_ok fs store name Hfs Hdots) as Hok.
  split; [exact Hok|].
  intros Hnone. rewrite Hok. by rewrite matching_reviews_none.
Qed.

(** C4. When some line of the store has no [.], the lookup returns no
    mapping: it ends with the [ValueError] of the failed unpacking. *)
Theorem fetch_malformed_aborts (fs : gmap (list N) (list N)) (store name : str) :
  fs !! store_path = Some store →
  Exists (fun line => dot ∉ line) (file_lines store) →
  fetch_restaurant_data fs name = Raise ValueError.
Proof.
  intros Hfs Hbad. unfold fetch_restaurant_data, open_read. rewrite Hfs. simpl.
  by apply fetch_loop_malformed.
Qed.

(** C8. Two query names with the same canonical key get the same review
    list, under their own keys; for the store line
    "Subway. Great food, average service." both "subway" and "SUBWAY" get
    the trimmed text "Great food, average service.". *)
Theorem fetch_same_key (fs : gmap (list N) (list N)) (store a b : str) :
  fs !! store_path = Some store →
  Forall (fun line => dot ∈ line) (file_lines store) →
  sanitize a = sanitize b →
  (∃ reviews,
     fetch_restaurant_data fs a = Ok {[ a := reviews ]}
     ∧ fetch_restaurant_data fs b = Ok {[ b := reviews ]})
  ∧ fetch_restaurant_data subway_fs (py "subway")
    = Ok {[ py "subway" := [py "Great food, average service."] ]}
  ∧ fetch_restaurant_data subway_fs (py "SUBWAY")
    = Ok {[ py "SUBWAY" := [py "Great food, average service."] ]}.
Proof.
  intros Hfs Hdots Hab. split.
  - exists (matching_reviews a (file_lines store)). split.
    + by apply fetch_restaurant_data_ok.
    + rewrite (matching_reviews_key a b _ Hab). by apply fetch_restaurant_data_ok.
  - split; apply fetch_subway; vm_compute; reflexivity.
Qed.

End StoreClaims.

Lemma fetch_reviews_spec_witness :
  @fetch_restaurant_data sample_unicode subway_fs (py "Sub Way!")
  = Ok {[ py "Sub Way!" :=
          (fun line => strip (after_first dot line)) <$>
          filter (fun line => @sanitize sample_unicode (before_first dot line)
                              = @sanitize sample_unicode (py "Sub Way!"))
            (file_lines subway_store) ]}
  ∧ (Forall (fun line => @sanitize sample_unicode (before_first dot line)
                         ≠ @sanitize sample_unicode (py "Sub Way!"))
       (file_lines subway_store) →
     @fetch_restaurant_data sample_unicode subway_fs (py "Sub Way!")
     = Ok {[ py "Sub Way!" := [] ]}).
Proof.
  apply (@fetch_reviews_spec sample_unicode subway_fs subway_store (py "Sub Way!")).
  - vm_compute. reflexivity.
  - apply (bool_decide_unpack _). vm_compute. exact I.
Defined.

Lemma fetch_malformed_aborts_witness :
  @fetch_restaurant_data sample_unicode {[ store_path := broken_store ]} (py "subway")
  = Raise ValueError.
Proof.
  apply (@fetch_malformed_aborts sample_unicode _ broken_store (py "subway")).
  - vm_compute. reflexivity.
  - apply (bool_decide_unpack _). vm_compute. exact I.
Defined.

Lemma fetch_same_key_witness :
  (∃ reviews,
     @fetch_restaurant_data sample_unicode subway_fs (py "subway")
     = Ok {[ py "subway" := reviews ]}
     ∧ @fetch_restaurant_data sample_unicode subway_fs (py "Sub-Way")
       = Ok {[ py "Sub-Way" := reviews ]})
  ∧ @fetch_restaurant_data sample_unicode subway_fs (py "subway")
    = Ok {[ py "subway" := [py "Great food, average service."] ]}
  ∧ @fetch_restaurant_data sample_unicode subway_fs (py "SUBWAY")
    = Ok {[ py "SUBWAY" := [py "Great food, average service."] ]}.
Proof.
  apply (@fetch_same_key sample_unicode subway_fs subway_store
           (py "subway") (py "Sub-Way")).
  - vm_compute. reflexivity.
  - apply (bool_decide_unpack _). vm_compute. exact I.
  - vm_compute. reflexivity.
Defined.

(** ** Properties of binary64 rounding *)

Local Close Scope N_scope.
Local Open Scope Z_scope.

Lemma digits2_pos_bounds (p : positive) :
  2 ^ (Z.pos (digits2_pos p) - 1) <= Z.pos p < 2 ^ Z.pos (digits2_pos p).
Proof.
  induction p as [p IH|p IH|]; simpl digits2_pos; [| |simpl; lia].
  - rewrite Pos2Z.inj_succ.
    replace (Z.succ (Z.pos (digits2_pos p)) - 1)
      with (Z.succ (Z.pos (digits2_pos p) - 1)) by lia.
    rewrite !Z.pow_succ_r by lia. lia.
  - rewrite Pos2Z.inj_succ.
    replace (Z.succ (Z.pos (digits2_pos p)) - 1)
      with (Z.succ (Z.pos (digits2_pos p) - 1)) by lia.
    rewrite !Z.pow_succ_r by lia. lia.
Qed.

Lemma Zdigits2_pos (m : Z) : 0 < m → 0 < Zdigits2 m.
Proof. destruct m; simpl; lia. Qed.

Lemma Zdigits2_bounds (m : Z) :
  0 < m → 2 ^ (Zdigits2 m - 1) <= m < 2 ^ Zdigits2 m.
Proof. destruct m as [|p|p]; try lia. intros _. apply digits2_pos_bounds. Qed.

Lemma Zdigits2_le (m k : Z) : 0 < m → m < 2 ^ k → Zdigits2 m <= k.
Proof.
  intros Hm Hk. pose proof (Zdigits2_bounds m Hm) as [Hlo _].
  pose proof (Zdigits2_pos m Hm).
  destruct (Z.le_gt_cases (Zdigits2 m) k) as [|Hgt]; [done|].
  assert (2 ^ k <= 2 ^ (Zdigits2 m - 1)) by (apply Z.pow_le_mono_r; lia).
  lia.
Qed.

Lemma Zdigits2_ge (m k : Z) : 0 < m → 2 ^ (k - 1) <= m → k <= Zdigits2 m.
Proof.
  intros Hm Hk. pose proof (Zdigits2_bounds m Hm) as [_ Hhi].
  pose proof (Zdigits2_pos m Hm).
  destruct (Z.le_gt_cases k (Zdigits2 m)) as [|Hgt]; [done|].
  assert (2 ^ Zdigits2 m <= 2 ^ (k - 1)) by (apply Z.pow_le_mono_r; lia).
  lia.
Qed.

Lemma shr_1_m (mrs : shr_record) :
  0 <= shr_m mrs → shr_m (shr_1 mrs) = shr_m mrs / 2.
Proof.
  destruct mrs as [m r s]. simpl. intros Hm.
  destruct m as [|[p|p|]|p]; try lia; simpl shr_m; rewrite <- Z.div2_div; reflexivity.
Qed.

Lemma iter_pos_shr_1_m (p : positive) (mrs : shr_record) :
  0 <= shr_m mrs →
  shr_m (SpecFloat.iter_pos shr_1 p mrs) = shr_m mrs / 2 ^ Z.pos p.
Proof.
  revert mrs. induction p as [p IH|p IH|]; intros mrs Hm; simpl SpecFloat.iter_pos.
  - assert (0 <= shr_m (shr_1 mrs)) by (rewrite shr_1_m by done; apply Z.div_pos; lia).
    assert (0 <= shr_m (SpecFloat.iter_pos shr_1 p (shr_1 mrs)))
      by (rewrite IH by done; apply Z.div_pos; lia).
    rewrite IH, IH, shr_1_m by done.
    rewrite !Z.div_div by lia. f_equal.
    replace (Z.pos p~1) with (1 + Z.pos p + Z.pos p) by lia.
    rewrite !Z.pow_add_r by lia. lia.
  - assert (0 <= shr_m (SpecFloat.iter_pos shr_1 p mrs))
      by (rewrite IH by done; apply Z.div_pos; lia).
    rewrite IH, IH by done.
    rewrite !Z.div_div by lia. f_equal.
    replace (Z.pos p~0) with (Z.pos p + Z.pos p) by lia.
    rewrite !Z.pow_add_r by lia. lia.
  - by apply shr_1_m.
Qed.

Lemma shr_m_shr (mrs : shr_record) (e n : Z) :
  0 <= shr_m mrs →
  shr_m (fst (shr mrs e n)) = shr_m mrs / 2 ^ Z.max 0 n
  ∧ snd (shr mrs e n) = e + Z.max 0 n.
Proof.
  intros Hm. destruct n as [|p|p]; simpl.
  - rewrite Z.div_1_r. lia.
  - split; [by apply iter_pos_shr_1_m|lia].
  - rewrite Z.div_1_r. lia.
Qed.

Lemma shr_m_shr_record_of_loc (m : Z) (l : location) :
  shr_m (shr_record_of_loc m l) = m.
Proof. by destruct l as [|[]]. Qed.

Lemma round_nearest_even_bounds (m : Z) (l : location) :
  m <= round_nearest_even m l <= m + 1.
Proof. destruct l as [|[]]; simpl; try lia. destruct (Z.even m); lia. Qed.

(** Division of a positive mantissa down to 53 bits. *)
Lemma div_to_53_bits (m : Z) :
  0 < m → 53 <= Zdigits2 m →
  2 ^ 52 <= m / 2 ^ (Zdigits2 m - 53) < 2 ^ 53.
Proof.
  intros Hm Hd. pose proof (Zdigits2_bounds m Hm) as [Hlo Hhi].
  set (d := Zdigits2 m) in *.
  assert (Hp : 0 < 2 ^ (d - 53)) by (apply Z.pow_pos_nonneg; lia).
  split.
  - apply Z.div_le_lower_bound; [done|].
    rewrite <- Z.pow_add_r by lia. by replace (d - 53 + 52) with (d - 1) by lia.
  - apply Z.div_lt_upper_bound; [done|].
    rewrite <- Z.pow_add_r by lia. by replace (d - 53 + 53) with d by lia.
Qed.

Lemma fexp_normal (x : Z) : -1074 <= x - 53 → fexp 53 1024 x = x - 53.
Proof. unfold fexp, emin. lia. Qed.

(** One rounding step on a mantissa in the normal range: the shifted and
    rounded mantissa, its exponent, and what is known about them. *)
Lemma shr_fexp_normal (m e : Z) (l : location) :
  0 < m → -1074 <= Zdigits2 m + e - 53 →
  let mrs := fst (shr_fexp 53 1024 m e l) in
  let e' := snd (shr_fexp 53 1024 m e l) in
  (Zdigits2 m <= 53 ∧ shr_m mrs = m ∧ e' = e)
  ∨ (53 < Zdigits2 m ∧ 2 ^ 52 <= shr_m mrs < 2 ^ 53 ∧ e' = e + Zdigits2 m - 53).
Proof.
  intros Hm Hnorm. unfold shr_fexp. rewrite fexp_normal by done.
  assert (Hrec : 0 <= shr_m (shr_record_of_loc m l))
    by (rewrite shr_m_shr_record_of_loc; lia).
  destruct (shr_m_shr (shr_record_of_loc m l) e (Zdigits2 m + e - 53 - e) Hrec)
    as [Hshr_m Hshr_e].
  rewrite shr_m_shr_record_of_loc in Hshr_m. simpl.
  rewrite Hshr_m, Hshr_e.
  destruct (Z.le_gt_cases (Zdigits2 m) 53) as [Hd|Hd].
  - left. replace (Z.max 0 (Zdigits2 m + e - 53 - e)) with 0 by lia.
    rewrite Z.div_1_r. lia.
  - right. replace (Z.max 0 (Zdigits2 m + e - 53 - e)) with (Zdigits2 m - 53) by lia.
    split; [lia|]. split; [apply div_to_53_bits; lia|lia].
Qed.

Lemma binary_round_aux_normal (sx : bool) (mx ex : Z) (lx : location) :
  0 < mx → -1074 <= Zdigits2 mx + ex - 53 →
  ∃ (m : positive) (e : Z),
    binary_round_aux 53 1024 sx mx ex lx
    = (if e <=? 971 then S754_finite sx m e else S754_infinity sx)
    ∧ e <= Z.max ex (Zdigits2 mx + ex - 52)
    ∧ Zdigits2 mx + ex <= Z.pos (digits2_pos m) + e.
Proof.
  intros Hm Hnorm. unfold binary_round_aux.
  pose proof (shr_fexp_normal mx ex lx Hm Hnorm) as H1.
  destruct (shr_fexp 53 1024 mx ex lx) as [mrs1 e1]. simpl in H1.
  pose proof (round_nearest_even_bounds (shr_m mrs1) (loc_of_shr_record mrs1)) as Hr.
  remember (round_nearest_even (shr_m mrs1) (loc_of_shr_record mrs1)) as m1 eqn:Em1.
  clear Em1.
  pose proof (Zdigits2_bounds mx Hm) as [Hlo Hhi].
  assert (Hm1 : 0 < m1 ∧ m1 <= 2 ^ 53 ∧ Zdigits2 mx + ex <= Zdigits2 m1 + e1
                ∧ e1 <= Z.max ex (Zdigits2 mx + ex - 53)
                ∧ (2 ^ 53 <= m1 → e1 = Zdigits2 mx + ex - 53)).
  { destruct H1 as [(Hd & Hmrs & He)|(Hd & Hmrs & He)].
    - rewrite Hmrs in Hr.
      assert (2 ^ Zdigits2 mx <= 2 ^ 53) by (apply Z.pow_le_mono_r; lia).
      assert (0 < m1) by lia.
      assert (Zdigits2 mx <= Zdigits2 m1) by (apply Zdigits2_ge; lia).
      repeat split; try lia.
      intros Hbig. destruct (Z.eq_dec (Zdigits2 mx) 53) as [|Hne]; [lia|].
      assert (2 ^ Zdigits2 mx <= 2 ^ 52) by (apply Z.pow_le_mono_r; lia).
      lia.
    - assert (0 < m1) by lia.
      assert (53 <= Zdigits2 m1) by (apply Zdigits2_ge; [lia|]; simpl; lia).
      repeat split; lia. }
  destruct Hm1 as (Hpos1 & Hle1 & Hmag1 & He1 & Hcarry).
  assert (HD : Zdigits2 m1 <= 54) by (apply Zdigits2_le; [done|]; simpl; lia).
  assert (Hnorm1 : -1074 <= Zdigits2 m1 + e1 - 53) by lia.
  pose proof (shr_fexp_normal m1 e1 loc_Exact Hpos1 Hnorm1) as H2.
  destruct (shr_fexp 53 1024 m1 e1 loc_Exact) as [mrs2 e2]. simpl in H2.
  destruct H2 as [(Hd & Hmrs & He)|(Hd & Hmrs & He)].
  - destruct (shr_m mrs2) as [|m|m] eqn:Em; try lia.
    exists m, e2. split; [done|].
    change (Z.pos (digits2_pos m)) with (Zdigits2 (Z.pos m)). rewrite Hmrs. lia.
  - destruct (shr_m mrs2) as [|m|m] eqn:Em; try lia.
    exists m, e2. split; [done|].
    assert (Zdigits2 (Z.pos m) = 53).
    { apply Z.le_antisymm; [apply Zdigits2_le; lia|apply Zdigits2_ge; [lia|]; simpl; lia]. }
    change (Z.pos (digits2_pos m)) with (Zdigits2 (Z.pos m)). rewrite H.
    assert (2 ^ 53 <= m1).
    { pose proof (Zdigits2_bounds m1 Hpos1) as [Hlo1 _].
      assert (2 ^ 53 <= 2 ^ (Zdigits2 m1 - 1)) by (apply Z.pow_le_mono_r; lia). lia. }
    specialize (Hcarry H0). lia.
Qed.

Lemma Zdigits2_mul_pow2 (m k : Z) :
  0 < m → 0 <= k → Zdigits2 (m * 2 ^ k) = Zdigits2 m + k.
Proof.
  intros Hm Hk. pose proof (Zdigits2_bounds m Hm) as [Hlo Hhi].
  pose proof (Zdigits2_pos m Hm).
  assert (0 < 2 ^ k) by (apply Z.pow_pos_nonneg; lia).
  apply Z.le_antisymm.
  - apply Zdigits2_le; [nia|]. rewrite Z.pow_add_r by lia. nia.
  - apply Zdigits2_ge; [nia|].
    replace (Zdigits2 m + k - 1) with (Zdigits2 m - 1 + k) by lia.
    rewrite Z.pow_add_r by lia. nia.
Qed.

Lemma Zdigits2_mul_ge (a b : Z) :
  0 < a → 0 < b → Zdigits2 a + Zdigits2 b - 1 <= Zdigits2 (a * b).
Proof.
  intros Ha Hb.
  pose proof (Zdigits2_bounds a Ha) as [Hloa _].
  pose proof (Zdigits2_bounds b Hb) as [Hlob _].
  pose proof (Zdigits2_pos a Ha). pose proof (Zdigits2_pos b Hb).
  apply Zdigits2_ge; [nia|].
  replace (Zdigits2 a + Zdigits2 b - 1 - 1)
    with ((Zdigits2 a - 1) + (Zdigits2 b - 1)) by lia.
  rewrite Z.pow_add_r by lia.
  assert (0 < 2 ^ (Zdigits2 a - 1)) by (apply Z.pow_pos_nonneg; lia).
  assert (0 < 2 ^ (Zdigits2 b - 1)) by (apply Z.pow_pos_nonneg; lia).
  nia.
Qed.

Lemma pos_iter_xO (m d : positive) :
  Z.pos (Pos.iter xO m d) = Z.pos m * 2 ^ Z.pos d.
Proof.
  induction d as [|d IH] using Pos.peano_ind.
  - simpl. lia.
  - rewrite Pos.iter_succ, Pos2Z.inj_succ, Z.pow_succ_r by lia.
    rewrite Pos2Z.inj_xO, IH. lia.
Qed.

(** Aligning to the rounding exponent keeps the magnitude. *)
Lemma shl_align_normal (mx : positive) (ex : Z) :
  -1074 <= Zdigits2 (Z.pos mx) + ex - 53 →
  let mz := fst (shl_align mx ex (fexp 53 1024 (Zdigits2 (Z.pos mx) + ex))) in
  let ez := snd (shl_align mx ex (fexp 53 1024 (Zdigits2 (Z.pos mx) + ex))) in
  Zdigits2 (Z.pos mz) + ez = Zdigits2 (Z.pos mx) + ex ∧ ez <= ex.
Proof.
  intros Hnorm. rewrite fexp_normal by done. unfold shl_align. cbv zeta.
  destruct (Zdigits2 (Z.pos mx) + ex - 53 - ex) as [|d|d] eqn:Ed;
    cbn [fst snd]; [lia|lia|].
  rewrite pos_iter_xO, Zdigits2_mul_pow2 by lia. lia.
Qed.

Lemma binary_round_normal (sx : bool) (mx : positive) (ex : Z) :
  -1074 <= Zdigits2 (Z.pos mx) + ex - 53 →
  ∃ (m : positive) (e : Z),
    binary_round 53 1024 sx mx ex
    = (if e <=? 971 then S754_finite sx m e else S754_infinity sx)
    ∧ e <= Z.max ex (Zdigits2 (Z.pos mx) + ex - 52)
    ∧ Zdigits2 (Z.pos mx) + ex <= Z.pos (digits2_pos m) + e.
Proof.
  intros Hnorm. unfold binary_round.
  pose proof (shl_align_normal mx ex Hnorm) as Hal.
  change (Z.pos (digits2_pos mx)) with (Zdigits2 (Z.pos mx)).
  destruct (shl_align mx ex (fexp 53 1024 (Zdigits2 (Z.pos mx) + ex))) as [mz ez].
  cbn [fst snd] in Hal. destruct Hal as [Hmag Hez].
  destruct (binary_round_aux_normal sx (Z.pos mz) ez loc_Exact) as (m & e & Hr & He & Hm);
    [lia|lia|].
  exists m, e. split; [done|]. lia.
Qed.

(** A positive [int] below [2^63] converts to a positive finite float of at
    least the same magnitude. *)
Lemma Z2F_small (n : Z) :
  0 < n < 2 ^ 63 →
  ∃ (m : positive) (e : Z),
    Z2F n = S754_finite false m e ∧ 1 <= Z.pos (digits2_pos m) + e.
Proof.
  intros [Hpos Hlt]. destruct n as [|p|p]; try lia. unfold Z2F. simpl binary_normalize.
  pose proof (Zdigits2_pos (Z.pos p) Hpos).
  assert (Zdigits2 (Z.pos p) <= 63) by (by apply Zdigits2_le).
  destruct (binary_round_normal false p 0) as (m & e & Hr & He & Hm); [lia|].
  exists m, e. rewrite Hr. replace (e <=? 971) with true by lia. split; [done|lia].
Qed.

Lemma long_as_double_small (n : Z) :
  0 < n < 2 ^ 63 → long_as_double n = Ok (Z2F n).
Proof.
  intros Hn. unfold long_as_double.
  by destruct (Z2F_small n Hn) as (m & e & -> & _).
Qed.

Lemma shr_fexp_nonneg (m e : Z) (l : location) :
  0 <= m → 0 <= shr_m (fst (shr_fexp 53 1024 m e l)).
Proof.
  intros Hm. unfold shr_fexp.
  assert (Hrec : 0 <= shr_m (shr_record_of_loc m l))
    by (rewrite shr_m_shr_record_of_loc; lia).
  destruct (shr_m_shr (shr_record_of_loc m l) e
              (fexp 53 1024 (Zdigits2 m + e) - e) Hrec) as [-> _].
  apply Z.div_pos; [done|]. apply Z.pow_pos_nonneg; lia.
Qed.

(** Rounding a non-negative mantissa yields a zero, a finite float or an
    infinity of the given sign, never NaN. *)

Lemma binary_round_aux_sign (sx : bool) (mx ex : Z) (lx : location) :
  0 <= mx → has_sign sx (binary_round_aux 53 1024 sx mx ex lx).
Proof.
  intros Hm. unfold binary_round_aux.
  pose proof (shr_fexp_nonneg mx ex lx Hm) as H1.
  destruct (shr_fexp 53 1024 mx ex lx) as [mrs1 e1]. cbn [fst] in H1.
  pose proof (round_nearest_even_bounds (shr_m mrs1) (loc_of_shr_record mrs1)) as Hr.
  pose proof (shr_fexp_nonneg
                (round_nearest_even (shr_m mrs1) (loc_of_shr_record mrs1)) e1 loc_Exact) as H2.
  destruct (shr_fexp 53 1024 _ e1 loc_Exact) as [mrs2 e2]. cbn [fst] in H2.
  destruct (shr_m mrs2) as [|m|m]; [done| |lia].
  by destruct (e2 <=? 1024 - 53).
Qed.

Lemma Z2F_sign (z : Z) : 0 <= z → has_sign false (Z2F z).
Proof.
  intros Hz. destruct z as [|p|p]; [done| |lia].
  unfold Z2F, binary_normalize, binary_round.
  destruct (shl_align p 0 _) as [mz ez].
  by apply binary_round_aux_sign.
Qed.

Lemma fsqrt_sign (x : spec_float) : has_sign false x → has_sign false (fsqrt x).
Proof.
  destruct x as [s|s| |s m e]; simpl; [done|by intros ->|done|].
  intros ->. unfold SFsqrt_core_binary.
  set (m' := match _ - _ with Z0 => _ | Z.pos _ => _ | Z.neg _ => _ end).
  assert (Hm' : 0 <= m').
  { subst m'. destruct (_ - _); [lia| |lia]. apply Z.shiftl_nonneg. lia. }
  pose proof (Z.sqrtrem_spec m' Hm') as Hs.
  destruct (Z.sqrtrem m') as [q r].
  apply binary_round_aux_sign. lia.
Qed.

(** [math.sqrt] succeeds on every non-negative [int] that converts. *)
Lemma math_sqrt_ok (z : Z) (x : spec_float) :
  0 <= z → long_as_double z = Ok x → math_sqrt z = Ok (fsqrt (Z2F z)).
Proof.
  intros Hz Hx. unfold math_sqrt. rewrite Hx. simpl.
  assert (x = Z2F z) as ->.
  { unfold long_as_double in Hx. by destruct (Z2F z); inversion Hx. }
  pose proof (fsqrt_sign (Z2F z) (Z2F_sign z Hz)) as Hs.
  by destruct (fsqrt (Z2F z)).
Qed.

(** The divisor [N * math.sqrt(125)] is never zero for [1 <= N]. *)
Lemma scaled_nonzero (n : Z) :
  0 < n < 2 ^ 63 → is_zero (fmul (Z2F n) (fsqrt (Z2F 125))) = false.
Proof.
  intros Hn. destruct (Z2F_small n Hn) as (m & e & -> & Hmag).
  set (s := fsqrt (Z2F 125)). vm_compute in s. subst s.
  unfold fmul, SFmul. cbn [xorb].
  match goal with |- context [Z.pos (m * ?c)] => set (ms := c) end.
  pose proof (Zdigits2_mul_ge (Z.pos m) (Z.pos ms)) as Hd.
  change (Zdigits2 (Z.pos ms)) with 53 in Hd.
  change (Zdigits2 (Z.pos m)) with (Z.pos (digits2_pos m)) in Hd.
  destruct (binary_round_aux_normal false (Z.pos (m * ms)) (e + -49) loc_Exact)
    as (m' & e' & -> & _); [lia| |].
  - rewrite Pos2Z.inj_mul. lia.
  - by destruct (e' <=? 971).
Qed.

Lemma long_as_double_finite (z : Z) :
  is_infinity (Z2F z) = false → long_as_double z = Ok (Z2F z).
Proof. unfold long_as_double. by destruct (Z2F z). Qed.

Lemma score_loop_step (fs ss : list Z) (N : Z) (i : nat) (rest : list nat)
    (food service : Z) (acc : pynum) :
  fs !! i = Some food → ss !! i = Some service →
  pair_in_domain (food, service) → 0 < N < 2 ^ 63 →
  (acc = PyInt 0 ∨ ∃ a, acc = PyFloat a) →
  score_loop fs ss N (i :: rest) acc
  = score_loop fs ss N rest
      (PyFloat (fadd (acc_float acc) (contribution N food service))).
Proof.
  intros Hf Hs [Hnonneg Hfin] HN Hacc. cbn [fst snd] in Hnonneg, Hfin.
  cbn [score_loop]. unfold getitem_list.
  rewrite Hf, Hs. bind_ok.
  rewrite (math_sqrt_ok _ _ Hnonneg (long_as_double_finite _ Hfin)).
  bind_ok.
  change (math_sqrt 125) with (Ok (fsqrt (Z2F 125))). bind_ok.
  unfold int_mul_float. rewrite (long_as_double_small N HN). bind_ok.
  unfold int_div_float. change (long_as_double 1) with (Ok (Z2F 1)).
  bind_ok. rewrite (scaled_nonzero N HN). 
  unfold float_mul_int. change (long_as_double 10) with (Ok (Z2F 10)).
  bind_ok.
  destruct Hacc as [->|[a ->]]; reflexivity.
Qed.

Lemma zip_lookup_middle (fs ss : list Z) (seen rest : list (Z * Z)) (food service : Z) :
  zip fs ss = seen ++ (food, service) :: rest →
  fs !! length seen = Some food ∧ ss !! length seen = Some service.
Proof.
  intros Hzip.
  assert (Hl : zip fs ss !! length seen = Some (food, service))
    by (rewrite Hzip; apply list_lookup_middle; done).
  apply lookup_zip_with_Some in Hl as (x & y & [= -> ->] & Hx & Hy). done.
Qed.

Lemma score_loop_pairs (fs ss : list Z) (N : Z) (rest seen : list (Z * Z))
    (a : spec_float) :
  zip fs ss = seen ++ rest → Forall pair_in_domain rest → 0 < N < 2 ^ 63 →
  score_loop fs ss N (seq (length seen) (length rest)) (PyFloat a)
  = Ok (PyFloat (sum_contributions N rest a)).
Proof.
  intros Hzip Hdom HN. revert seen a Hzip.
  induction Hdom as [|[food service] rest Hpair _ IH]; intros seen a Hzip; [done|].
  destruct (zip_lookup_middle fs ss seen rest food service Hzip) as [Hf Hs].
  cbn [length seq].
  rewrite (score_loop_step fs ss N _ _ food service (PyFloat a) Hf Hs Hpair HN)
    by (right; by exists a).
  specialize (IH (seen ++ [(food, service)])).
  rewrite length_app, Nat.add_1_r in IH. rewrite IH; [done|].
  by rewrite <- app_assoc.
Qed.

Lemma score_loop_ext (fs ss fs' ss' : list Z) (N : Z) (indices : list nat)
    (acc : pynum) :
  Forall (fun i => fs !! i = fs' !! i ∧ ss !! i = ss' !! i) indices →
  score_loop fs ss N indices acc = score_loop fs' ss' N indices acc.
Proof.
  intros Hsame. revert acc.
  induction Hsame as [|i rest [Hf Hs] _ IH]; intros acc; [done|].
  cbn [score_loop]. unfold getitem_list. rewrite Hf, Hs.
  destruct (fs' !! i) as [food|]; [|done]. bind_ok.
  destruct (ss' !! i) as [service|]; [|done]. bind_ok.
  destruct (math_sqrt (food ^ 2 * service)); [|done]. bind_ok.
  destruct (math_sqrt 125); [|done]. bind_ok.
  destruct (int_mul_float N a0); [|done]. bind_ok.
  destruct (int_div_float 1 a1); [|done]. bind_ok.
  destruct (float_mul_int (fmul a a2) 10); [|done]. bind_ok.
  destruct (num_add_float acc a3); [|done]. bind_ok.
  apply IH.
Qed.

(** Elements beyond the shorter list are never read. *)
Lemma calculate_overall_score_take (name : list N) (fs ss : list Z) :
  let n := Nat.min (length fs) (length ss) in
  calculate_overall_score name (take n fs) (take n ss)
  = calculate_overall_score name fs ss.
Proof.
  intros n. unfold calculate_overall_score.
  rewrite !length_take. fold n.
  replace (Nat.min (n `min` length fs) (n `min` length ss)) with n by (subst n; lia).
  rewrite (score_loop_ext (take n fs) (take n ss) fs ss); [done|].
  apply Forall_forall. intros i Hi. apply elem_of_seq in Hi.
  by rewrite !lookup_take_lt by lia.
Qed.

Lemma calculate_overall_score_ok (name : list N) (fs ss : list Z) :
  Z.of_nat (Nat.min (length fs) (length ss)) < 2 ^ 63 →
  Forall pair_in_domain (zip fs ss) →
  calculate_overall_score name fs ss = Ok {[ name := overall_score_formula fs ss ]}.
Proof.
  intros HN Hdom. unfold calculate_overall_score, overall_score_formula.
  rewrite <- (length_zip_with pair fs ss) in *.
  change (zip_with pair fs ss) with (zip fs ss) in *.
  destruct (zip fs ss) as [|[food service] rest] eqn:Hzip; [done|].
  destruct (zip_lookup_middle fs ss [] rest food service Hzip) as [Hf Hs].
  apply Forall_cons in Hdom as [Hpair Hrest].
  assert (HN' : 0 < Z.of_nat (length ((food, service) :: rest)) < 2 ^ 63)
    by (cbn [length] in *; lia).
  cbn [length seq] in *.
  rewrite (score_loop_step fs ss _ _ _ food service (PyInt 0) Hf Hs Hpair HN')
    by by left.
  rewrite (score_loop_pairs fs ss _ rest [(food, service)]) by done.
  reflexivity.
Qed.

(** ** Repeated additions of one term *)


(** [iter_pos] is iteration over the unary count. *)
Lemma iter_pos_nat {A : Type} (f : A → A) (p : positive) (x : A) :
  SpecFloat.iter_pos f p x = Nat.iter (Pos.to_nat p) f x.
Proof.
  revert x. induction p as [p IH|p IH|]; intros x; simpl SpecFloat.iter_pos.
  - rewrite !IH, Pos2Nat.inj_xI.
    replace (S (2 * Pos.to_nat p)) with (Pos.to_nat p + (Pos.to_nat p + 1))%nat by lia.
    rewrite !Nat.iter_add. simpl. done.
  - rewrite !IH, Pos2Nat.inj_xO.
    replace (2 * Pos.to_nat p)%nat with (Pos.to_nat p + Pos.to_nat p)%nat by lia.
    by rewrite Nat.iter_add.
  - done.
Qed.

(** Shifting out [n] bits: the quotient, and where the remainder lies. *)
Lemma iter_shr_1_exact (M : Z) (n : nat) :
  0 <= M →
  let mrs := Nat.iter n shr_1 (Build_shr_record M false false) in
  shr_m mrs = M / 2 ^ Z.of_nat n
  ∧ loc_of_shr_record mrs = loc_of_rem (M mod 2 ^ Z.of_nat n) (2 ^ Z.of_nat n).
Proof.
  intros HM. induction n as [|n IH].
  - simpl. rewrite Z.div_1_r, Z.mod_1_r. done.
  - cbn zeta in *. rewrite Nat.iter_succ.
    destruct (Nat.iter n shr_1 _) as [q r s]. cbn [shr_m] in IH.
    destruct IH as [Hq Hloc].
    rewrite Nat2Z.inj_succ, Z.pow_succ_r by lia.
    set (d := 2 ^ Z.of_nat n) in *.
    assert (Hd : 0 < d) by (apply Z.pow_pos_nonneg; lia).
    assert (Hq0 : 0 <= q) by (rewrite Hq; apply Z.div_pos; lia).
    pose proof (Z.mod_pos_bound M d Hd) as Hrem.
    assert (Hdiv : M / (2 * d) = q / 2).
    { rewrite Hq, Z.div_div by lia. f_equal. lia. }
    assert (Hmod : M mod (2 * d) = M mod d + d * (q mod 2)).
    { rewrite (Z.mul_comm 2 d), Z.rem_mul_r by lia. by rewrite Hq. }
    rewrite Hdiv, Hmod.
    pose proof (Z.mod_pos_bound q 2 ltac:(lia)) as Hq2.
    assert (Hrs : orb r s = negb (M mod d =? 0)).
    { unfold loc_of_rem in Hloc. destruct (M mod d =? 0); destruct r, s; simpl in *;
        try done; destruct (2 * _ ?= d); done. }
    unfold shr_1. fold (orb r s). rewrite Hrs.
    destruct q as [|[p|p|]|p]; try lia; cbn [shr_m loc_of_shr_record].
    + (* q = 0 *)
      split; [done|]. unfold loc_of_rem. rewrite Z.mod_0_l by lia.
      replace (M mod d + d * 0) with (M mod d) by lia.
      destruct (M mod d =? 0) eqn:E; simpl; [done|].
      replace (2 * (M mod d) ?= 2 * d) with Lt; [done|]. symmetry. apply Z.compare_lt_iff. lia.
    + (* odd *)
      split; [by rewrite <- Z.div2_div|].
      replace (Z.pos p~1 mod 2) with 1 by (rewrite Pos2Z.inj_xI, Z.add_comm, Z.mul_comm, Z.mod_add; done).
      unfold loc_of_rem.
      replace (M mod d + d * 1 =? 0) with false by lia.
      destruct (M mod d =? 0) eqn:E; simpl.
      * replace (2 * (M mod d + d * 1) ?= 2 * d) with Eq; [done|].
        symmetry. apply Z.compare_eq_iff. lia.
      * replace (2 * (M mod d + d * 1) ?= 2 * d) with Gt; [done|].
        symmetry. apply Z.compare_gt_iff. lia.
    + (* even, positive *)
      split; [by rewrite <- Z.div2_div|].
      replace (Z.pos p~0 mod 2) with 0 by (rewrite Pos2Z.inj_xO, Z.mul_comm, Z.mod_mul; done).
      unfold loc_of_rem. replace (M mod d + d * 0) with (M mod d) by lia.
      destruct (M mod d =? 0) eqn:E; simpl; [done|].
      replace (2 * (M mod d) ?= 2 * d) with Lt; [done|]. symmetry. apply Z.compare_lt_iff. lia.
    + (* q = 1 *)
      split; [done|].
      change (1 mod 2) with 1.
      unfold loc_of_rem.
      replace (M mod d + d * 1 =? 0) with false by lia.
      destruct (M mod d =? 0) eqn:E; simpl.
      * replace (2 * (M mod d + d * 1) ?= 2 * d) with Eq; [done|].
        symmetry. apply Z.compare_eq_iff. lia.
      * replace (2 * (M mod d + d * 1) ?= 2 * d) with Gt; [done|].
        symmetry. apply Z.compare_gt_iff. lia.
Qed.

(** [shr] by [k] bits is division by [2^k], with the location of the
    remainder. *)
Lemma shr_exact (M e k : Z) :
  0 <= M → 0 <= k →
  shr_m (fst (shr (Build_shr_record M false false) e k)) = M / 2 ^ k
  ∧ loc_of_shr_record (fst (shr (Build_shr_record M false false) e k))
    = loc_of_rem (M mod 2 ^ k) (2 ^ k)
  ∧ snd (shr (Build_shr_record M false false) e k) = e + k.
Proof.
  intros HM Hk. destruct k as [|p|p]; [| |lia].
  - simpl. rewrite Z.div_1_r, Z.mod_1_r. split; [done|]. split; [done|lia].
  - cbn [shr fst snd]. rewrite iter_pos_nat.
    destruct (iter_shr_1_exact M (Pos.to_nat p) HM) as [Hm Hl].
    rewrite positive_nat_Z in Hm, Hl. done.
Qed.

(** Rounding a mantissa of at least 53 bits in the normal range, when the
    rounded mantissa still has 53 bits: the result is known exactly. *)
Lemma binary_round_aux_exact (sx : bool) (M ex : Z) :
  0 < M → 53 <= Zdigits2 M →
  -1074 <= Zdigits2 M + ex - 53 <= 971 →
  let k := Zdigits2 M - 53 in
  let q := round_nearest_even (M / 2 ^ k) (loc_of_rem (M mod 2 ^ k) (2 ^ k)) in
  q < 2 ^ 53 →
  binary_round_aux 53 1024 sx M ex loc_Exact = S754_finite sx (Z.to_pos q) (ex + k).
Proof.
  intros HM Hd Hnorm k q Hq. unfold binary_round_aux, shr_fexp.
  rewrite fexp_normal by lia. cbn [shr_record_of_loc].
  replace (Zdigits2 M + ex - 53 - ex) with k by (subst k; lia).
  destruct (shr_exact M ex k) as (Hm1 & Hl1 & He1); [lia|subst k; lia|].
  destruct (shr (Build_shr_record M false false) ex k) as [mrs1 e1].
  cbn [fst snd] in Hm1, Hl1, He1. rewrite Hm1, Hl1. fold q. subst e1.
  pose proof (div_to_53_bits M HM Hd) as Hdiv. fold k in Hdiv.
  pose proof (round_nearest_even_bounds (M / 2 ^ k)
                (loc_of_rem (M mod 2 ^ k) (2 ^ k))) as Hr. fold q in Hr.
  assert (Hq53 : Zdigits2 q = 53).
  { apply Z.le_antisymm; [apply Zdigits2_le; lia|apply Zdigits2_ge; [lia|]; simpl; lia]. }
  rewrite Hq53, fexp_normal by (subst k; lia).
  replace (53 + (ex + k) - 53 - (ex + k)) with 0 by lia.
  cbn [shr fst snd shr_m].
  destruct q as [|p|p] eqn:Eq; try lia.
  replace (ex + k <=? 1024 - 53) with true by (subst k; lia).
  done.
Qed.

(** Adding a smaller positive float [T] to a positive float of exponent [e]
    and mantissa [m], when the sum keeps the exponent and [T] is not half
    way between two floats of that exponent: the mantissa grows by a
    constant that depends on [T] and [e] only. *)
Lemma fadd_same_binade (m mT : positive) (e eT : Z) :
  eT < e → 2 ^ 52 <= Z.pos m → -1074 <= e <= 971 →
  let sh := e - eT in
  let a := Z.pos mT / 2 ^ sh in
  let b := Z.pos mT mod 2 ^ sh in
  b ≠ 2 ^ (sh - 1) →
  let c := a + (if 2 ^ (sh - 1) <? b then 1 else 0) in
  Z.pos m + a + 1 < 2 ^ 53 →
  fadd (S754_finite false m e) (S754_finite false mT eT)
  = S754_finite false (Z.to_pos (Z.pos m + c)) e.
Proof.
  intros HeT Hm He sh a b Htie c Hroom.
  assert (Hsh : 0 < sh) by (subst sh; lia).
  assert (Hpow : 0 < 2 ^ sh) by (apply Z.pow_pos_nonneg; lia).
  assert (Hpow2 : 2 ^ sh = 2 * 2 ^ (sh - 1)).
  { rewrite <- Z.pow_succ_r by lia. f_equal. lia. }
  assert (Hh : 0 < 2 ^ (sh - 1)) by (apply Z.pow_pos_nonneg; lia).
  pose proof (Z.mod_pos_bound (Z.pos mT) (2 ^ sh) Hpow) as Hb. fold b in Hb.
  assert (Ha : 0 <= a) by (apply Z.div_pos; lia).
  unfold fadd, SFadd. replace (Z.min e eT) with eT by lia.
  unfold shl_align at 2. rewrite Z.sub_diag. cbn [fst].
  unfold shl_align. destruct (eT - e) as [|d|d] eqn:Ed; try lia.
  cbn [fst cond_Zopp].
  match goal with
  | |- context [binary_normalize _ _ ?z _ _] =>
      change z with (Z.pos (Pos.iter xO m d + mT))
  end.
  set (P := (Pos.iter xO m d + mT)%positive).
  assert (HP : Z.pos P = Z.pos m * 2 ^ sh + Z.pos mT).
  { subst P. rewrite Pos2Z.inj_add, pos_iter_xO.
    replace (Z.pos d) with sh by (subst sh; lia). done. }
  assert (Hdiv : Z.pos P / 2 ^ sh = Z.pos m + a).
  { rewrite HP, Z.div_add_l by lia. done. }
  assert (Hmod : Z.pos P mod 2 ^ sh = b).
  { rewrite HP, Z.add_comm, Z.mod_add by lia. done. }
  assert (Hlo : 2 ^ (52 + sh) <= Z.pos P).
  { rewrite Z.pow_add_r by lia. nia. }
  assert (Hhi : Z.pos P < 2 ^ (53 + sh)).
  { rewrite Z.pow_add_r by lia.
    pose proof (Z.mul_div_le (Z.pos mT) (2 ^ sh) Hpow).
    pose proof (Z.mod_pos_bound (Z.pos mT) (2 ^ sh) Hpow).
    pose proof (Z.div_mod (Z.pos mT) (2 ^ sh) ltac:(lia)). fold a in H, H1. nia. }
  assert (HdP : Zdigits2 (Z.pos P) = 53 + sh).
  { apply Z.le_antisymm; [apply Zdigits2_le; lia|apply Zdigits2_ge; [lia|]].
    replace (53 + sh - 1) with (52 + sh) by lia. done. }
  unfold binary_normalize, binary_round.
  change (Z.pos (digits2_pos P)) with (Zdigits2 (Z.pos P)). rewrite HdP.
  rewrite fexp_normal by lia.
  unfold shl_align.
  replace (53 + sh + eT - 53 - eT) with sh by lia.
  destruct sh as [|shp|shp] eqn:Esh; try lia.
  rewrite (binary_round_aux_exact false (Z.pos P) eT); rewrite ?HdP; try lia.
  - replace (53 + Z.pos shp - 53) with (Z.pos shp) by lia.
    rewrite Hdiv, Hmod. f_equal; [|lia]. f_equal. f_equal.
    unfold loc_of_rem, c. rewrite Hpow2.
    destruct (b =? 0) eqn:Eb0.
    + simpl. replace (2 ^ (Z.pos shp - 1) <? b) with false by lia. lia.
    + destruct (Z.compare_spec (2 * b) (2 * 2 ^ (Z.pos shp - 1))) as [Heq|Hlt|Hgt].
      * lia.
      * simpl. replace (2 ^ (Z.pos shp - 1) <? b) with false by lia. lia.
      * simpl. replace (2 ^ (Z.pos shp - 1) <? b) with true by lia. lia.
  - replace (53 + Z.pos shp - 53) with (Z.pos shp) by lia.
    rewrite Hdiv.
    pose proof (round_nearest_even_bounds (Z.pos m + a)
                  (loc_of_rem (Z.pos P mod 2 ^ Z.pos shp) (2 ^ Z.pos shp))). lia.
Qed.




Lemma add_repeat_add (i j : nat) (t s : spec_float) :
  add_repeat (i + j) t s = add_repeat j t (add_repeat i t s).
Proof. revert s. induction i as [|i IH]; intros s; simpl; [done|apply IH]. Qed.

(** [j] additions within one binade add [j] times the rounded increment
    [c] to the mantissa. *)
Lemma add_repeat_jump (j : nat) (m mT : positive) (e eT : Z) :
  eT < e → 2 ^ 52 <= Z.pos m → -1074 <= e <= 971 →
  let sh := e - eT in
  let a := Z.pos mT / 2 ^ sh in
  let b := Z.pos mT mod 2 ^ sh in
  b ≠ 2 ^ (sh - 1) →
  let c := a + (if 2 ^ (sh - 1) <? b then 1 else 0) in
  Z.pos m + Z.of_nat j * c + a + 1 < 2 ^ 53 →
  add_repeat j (S754_finite false mT eT) (S754_finite false m e)
  = S754_finite false (Z.to_pos (Z.pos m + Z.of_nat j * c)) e.
Proof.
  intros HeT Hm He sh a b Htie c. revert m Hm.
  assert (Ha : 0 <= a).
  { apply Z.div_pos; [lia|]. apply Z.pow_pos_nonneg; subst sh; lia. }
  assert (Hc : 0 <= c) by (subst c; destruct (_ <? _); lia).
  induction j as [|j IH]; intros m Hm Hroom.
  - simpl. reflexivity.
  - cbn [add_repeat].
    rewrite (fadd_same_binade m mT e eT HeT Hm He Htie) by (fold sh a; lia).
    fold sh a b c.
    rewrite IH; rewrite ?Z2Pos.id by lia; [|lia|lia].
    f_equal. f_equal. lia.
Qed.

(** A jump leaves the final sum unchanged. *)
Lemma add_jump_correct (t s : spec_float) (left : Z) :
  0 < left →
  0 <= snd (add_jump t s left) < left
  ∧ add_repeat (Z.to_nat left) t s
    = add_repeat (Z.to_nat (snd (add_jump t s left))) t (fst (add_jump t s left)).
Proof.
  intros Hleft.
  assert (Hone : 0 <= left - 1 < left
                 ∧ add_repeat (Z.to_nat left) t s
                   = add_repeat (Z.to_nat (left - 1)) t (fadd s t)).
  { split; [lia|]. replace (Z.to_nat left) with (S (Z.to_nat (left - 1))) by lia. done. }
  unfold add_jump.
  destruct s as [| | |[] m e]; try exact Hone.
  destruct t as [| | |[] mT eT]; try exact Hone.
  set (sh := e - eT). set (a := Z.pos mT / 2 ^ sh). set (b := Z.pos mT mod 2 ^ sh).
  set (c := a + (if 2 ^ (sh - 1) <? b then 1 else 0)).
  set (j := Z.min left ((2 ^ 53 - 2 - a - Z.pos m) / c)).
  destruct ((eT <? e) && (2 ^ 52 <=? Z.pos m) && (-1074 <=? e) && (e <=? 971)
            && negb (b =? 2 ^ (sh - 1)) && (0 <? c) && (1 <=? j)) eqn:Hcond;
    [|exact Hone].
  cbn [fst snd].
  assert (Hj : 1 <= j <= left) by (subst j; lia).
  assert (Hc : 0 < c) by lia.
  assert (Hjc : j * c <= 2 ^ 53 - 2 - a - Z.pos m).
  { pose proof (Z.mul_div_le (2 ^ 53 - 2 - a - Z.pos m) c Hc).
    assert (j <= (2 ^ 53 - 2 - a - Z.pos m) / c) by (subst j; lia). nia. }
  split; [lia|].
  replace (Z.to_nat left) with (Z.to_nat j + Z.to_nat (left - j))%nat by lia.
  rewrite add_repeat_add. f_equal.
  rewrite (add_repeat_jump (Z.to_nat j) m mT e eT); fold sh a b c;
    rewrite ?Z2Nat.id by lia; try lia. done.
Qed.

(** So does any number of jumps. *)
Lemma add_fast_correct (fuel : nat) (t s : spec_float) (left : Z) :
  add_repeat (Z.to_nat left) t s
  = add_repeat (Z.to_nat (snd (add_fast fuel t s left))) t (fst (add_fast fuel t s left)).
Proof.
  revert s left. induction fuel as [|fuel IH]; intros s left; [done|].
  cbn [add_fast]. destruct (left <=? 0) eqn:Hl; [done|].
  destruct (add_jump_correct t s left) as [_ Hstep]; [lia|].
  destruct (add_jump t s left) as [s' left']. cbn [fst snd] in Hstep.
  rewrite Hstep. apply IH.
Qed.

(** On equal pairs the fold of the specification is [add_repeat]. *)
Lemma sum_contributions_replicate (N food service : Z) (n : nat) (a : spec_float) :
  sum_contributions N (replicate n (food, service)) a
  = add_repeat n (contribution N food service) a.
Proof.
  revert a. induction n as [|n IH]; intros a; [done|].
  cbn [replicate add_repeat]. unfold sum_contributions in *. cbn [fold_left].
  apply IH.
Qed.

(** The score of [n] equal pairs. *)
Lemma calculate_overall_score_replicate (name : list N) (n : nat) (food service : Z) :
  0 < Z.of_nat n < 2 ^ 63 → pair_in_domain (food, service) →
  calculate_overall_score name (replicate n food) (replicate n service)
  = Ok {[ name :=
          PyFloat (float_round
                     (add_repeat n (contribution (Z.of_nat n) food service) (Z2F 0)) 2) ]}.
Proof.
  intros Hn Hpair.
  assert (Hzip : zip (replicate n food) (replicate n service)
                 = replicate n (food, service)).
  { clear. induction n as [|n IH]; [done|]. cbn [replicate zip zip_with]. by f_equal. }
  rewrite calculate_overall_score_ok.
  - unfold overall_score_formula. rewrite Hzip, length_replicate.
    rewrite sum_contributions_replicate.
    destruct n as [|n']; [lia|]. done.
  - rewrite !length_replicate. lia.
  - rewrite Hzip. by apply Forall_replicate.
Qed.


(** The sum of [many_pairs] contributions of the scores [5], [5], computed
    by jumps: it is 10.074355755858713. *)
Lemma many_pairs_sum (n : nat) :
  Z.of_nat n = many_pairs →
  add_repeat n (contribution many_pairs 5 5) (Z2F 0)
  = S754_finite false 5671358103510389 (-49).
Proof.
  intros Hn. replace n with (Z.to_nat many_pairs) by lia.
  rewrite (add_fast_correct 400).
  set (r := add_fast 400 (contribution many_pairs 5 5) (Z2F 0) many_pairs).
  vm_compute in r. subst r. reflexivity.
Qed.

(** Rounded to two decimals it is 10.07. *)
Lemma many_pairs_score (name : list N) (n : nat) :
  Z.of_nat n = many_pairs →
  calculate_overall_score name (replicate n 5) (replicate n 5)
  = Ok {[ name := PyFloat (S754_finite false 5668906030952612 (-49)) ]}.
Proof.
  intros Hn. rewrite calculate_overall_score_replicate.
  - rewrite Hn, (many_pairs_sum n Hn). do 3 f_equal.
  - rewrite Hn. unfold many_pairs. lia.
  - split; vm_compute; congruence.
Qed.

(** ** Error bounds for the aggregation *)

Lemma loc_of_shr_record_of_loc (m : Z) (l : location) :
  loc_of_shr_record (shr_record_of_loc m l) = l.
Proof. by destruct l as [|[]]. Qed.

Lemma shr_fexp_value (m e : Z) (l : location) :
  0 < m → -1074 <= Zdigits2 m + e - 53 →
  let k := Z.max 0 (Zdigits2 m - 53) in
  shr_m (fst (shr_fexp 53 1024 m e l)) = m / 2 ^ k
  ∧ snd (shr_fexp 53 1024 m e l) = e + k
  ∧ (Zdigits2 m <= 53 →
     round_nearest_even (shr_m (fst (shr_fexp 53 1024 m e l)))
       (loc_of_shr_record (fst (shr_fexp 53 1024 m e l)))
     = round_nearest_even m l).
Proof.
  intros Hm Hnorm k. unfold shr_fexp. rewrite fexp_normal by done.
  assert (Hrec : 0 <= shr_m (shr_record_of_loc m l))
    by (rewrite shr_m_shr_record_of_loc; lia).
  destruct (shr_m_shr (shr_record_of_loc m l) e (Zdigits2 m + e - 53 - e) Hrec)
    as [Hshr_m Hshr_e].
  rewrite shr_m_shr_record_of_loc in Hshr_m.
  replace (Z.max 0 (Zdigits2 m + e - 53 - e)) with k in * by (subst k; lia).
  split; [done|]. split; [done|].
  intros Hd. destruct (Zdigits2 m + e - 53 - e) as [|p|p] eqn:E; try lia; cbn [shr fst].
  - by rewrite shr_m_shr_record_of_loc, loc_of_shr_record_of_loc.
  - by rewrite shr_m_shr_record_of_loc, loc_of_shr_record_of_loc.
Qed.

(** Rounding in the normal range without overflow: the result is finite,
    has at most 53 bits, and lies within one unit of the last place kept. *)
Lemma binary_round_aux_value (sx : bool) (mx ex : Z) (lx : location) :
  0 < mx → -1074 <= Zdigits2 mx + ex - 53 → Zdigits2 mx + ex <= 1000 →
  ex <= 970 →
  ∃ (m : positive) (e : Z),
    binary_round_aux 53 1024 sx mx ex lx = S754_finite sx m e
    ∧ ex <= e ∧ Z.pos m < 2 ^ 53
    ∧ (let k := Z.max 0 (Zdigits2 mx - 53) in
       mx - 2 ^ k < Z.pos m * 2 ^ (e - ex) <= mx + 2 ^ k)
    ∧ (Zdigits2 mx <= 53 → Z.pos m * 2 ^ (e - ex) = round_nearest_even mx lx).
Proof.
  intros Hm Hnorm Hmax Hex. unfold binary_round_aux.
  destruct (shr_fexp_value mx ex lx Hm Hnorm) as (Hm1 & He1 & Hex1).
  set (k := Z.max 0 (Zdigits2 mx - 53)) in *.
  destruct (shr_fexp 53 1024 mx ex lx) as [mrs1 e1]. cbn [fst snd] in Hm1, He1, Hex1.
  pose proof (round_nearest_even_bounds (shr_m mrs1) (loc_of_shr_record mrs1)) as Hr.
  remember (round_nearest_even (shr_m mrs1) (loc_of_shr_record mrs1)) as m1 eqn:Em1.
  pose proof (Zdigits2_bounds mx Hm) as [Hlo Hhi].
  pose proof (Zdigits2_pos mx Hm) as Hdpos.
  assert (Hk : 0 <= k) by (subst k; lia).
  assert (Hpk : 0 < 2 ^ k) by (apply Z.pow_pos_nonneg; lia).
  pose proof (Z.mul_div_le mx (2 ^ k) Hpk) as Hfl1.
  pose proof (Z.mul_succ_div_gt mx (2 ^ k) Hpk) as Hfl2.
  rewrite <- Hm1 in Hfl1, Hfl2.
  (* the rounded mantissa has between 1 and 2^53 as value *)
  assert (Hm1b : 0 < m1 <= 2 ^ 53 ∧ (Zdigits2 mx <= 53 → 1 <= m1)
                 ∧ (53 < Zdigits2 mx → 2 ^ 52 <= m1)).
  { destruct (Z.le_gt_cases (Zdigits2 mx) 53) as [Hd|Hd].
    - assert (k = 0) by (subst k; lia). subst k. rewrite H in *.
      rewrite Z.pow_0_r, Z.div_1_r in Hm1.
      assert (2 ^ Zdigits2 mx <= 2 ^ 53) by (apply Z.pow_le_mono_r; lia).
      lia.
    - assert (k = Zdigits2 mx - 53) by (subst k; lia).
      pose proof (div_to_53_bits mx Hm ltac:(lia)) as Hb. rewrite <- H, <- Hm1 in Hb.
      lia. }
  destruct Hm1b as ((Hpos1 & Hle1) & _ & Hbig).
  assert (Hmag : Zdigits2 mx + ex <= Zdigits2 m1 + e1).
  { destruct (Z.le_gt_cases (Zdigits2 mx) 53) as [Hd|Hd].
    - assert (k = 0) by (subst k; lia). rewrite H in *.
      rewrite Z.pow_0_r, Z.div_1_r in Hm1.
      assert (Zdigits2 mx <= Zdigits2 m1) by (apply Zdigits2_ge; lia). lia.
    - assert (53 <= Zdigits2 m1) by (apply Zdigits2_ge; [lia|]; simpl; specialize (Hbig Hd); lia).
      subst k. lia. }
  assert (HD : Zdigits2 m1 <= 54) by (apply Zdigits2_le; [done|]; simpl; lia).
  assert (Hnorm1 : -1074 <= Zdigits2 m1 + e1 - 53) by lia.
  destruct (shr_fexp_value m1 e1 loc_Exact Hpos1 Hnorm1) as (Hm2 & He2 & _).
  destruct (shr_fexp 53 1024 m1 e1 loc_Exact) as [mrs2 e2]. cbn [fst snd] in Hm2, He2.
  set (k2 := Z.max 0 (Zdigits2 m1 - 53)) in *.
  assert (Hv : shr_m mrs2 * 2 ^ k2 = m1 ∧ 0 < shr_m mrs2 < 2 ^ 53 ∧ 0 <= k2 <= 1).
  { destruct (Z.le_gt_cases (Zdigits2 m1) 53) as [Hd|Hd].
    - assert (k2 = 0) by (subst k2; lia). rewrite H in *.
      rewrite Z.pow_0_r, Z.div_1_r in Hm2.
      pose proof (Zdigits2_bounds m1 Hpos1) as [_ Hhi1].
      assert (2 ^ Zdigits2 m1 <= 2 ^ 53) by (apply Z.pow_le_mono_r; lia).
      lia.
    - assert (k2 = 1) by (subst k2; lia). rewrite H in *.
      pose proof (Zdigits2_bounds m1 Hpos1) as [Hlo1 _].
      assert (2 ^ 53 <= 2 ^ (Zdigits2 m1 - 1)) by (apply Z.pow_le_mono_r; lia).
      assert (m1 = 2 ^ 53) by lia.
      rewrite H1 in Hm2. rewrite Hm2, H1.
      change (2 ^ 53 / 2 ^ 1) with (2 ^ 52). lia. }
  destruct Hv as (Hv & Hm2b & Hk2).
  destruct (shr_m mrs2) as [|m|m] eqn:Em; try lia.
  exists m, e2.
  assert (He2l : e2 <= 971).
  { subst e2 e1. subst k. lia. }
  replace (e2 <=? 1024 - 53) with true by lia.
  split; [done|]. split; [subst e2 e1; lia|]. split; [lia|].
  assert (Hval : Z.pos m * 2 ^ (e2 - ex) = m1 * 2 ^ k).
  { subst e2 e1. replace (ex + k + k2 - ex) with (k2 + k) by lia.
    rewrite Z.pow_add_r by lia. rewrite <- Hv. lia. }
  rewrite Hval. split.
  - cbn zeta. fold k. nia.
  - intros Hd. assert (k = 0) by (subst k; lia). rewrite H, Z.pow_0_r, Z.mul_1_r.
    by apply Hex1.
Qed.


(** ** The real value of a rounded result *)

Local Open Scope R_scope.

Lemma bpow_gt_0 (e : Z) : 0 < bpow e.
Proof. apply powerRZ_lt. lra. Qed.

Lemma bpow_add (a b : Z) : bpow (a + b) = bpow a * bpow b.
Proof. apply powerRZ_add. lra. Qed.

Lemma bpow_IZR (k : Z) : (0 <= k)%Z → bpow k = IZR (2 ^ k).
Proof.
  intros Hk. unfold bpow. rewrite <- (Z2Nat.id k Hk) at 1 2.
  by rewrite <- pow_powerRZ, pow_IZR.
Qed.

Lemma bpow_le (a b : Z) : (a <= b)%Z → bpow a <= bpow b.
Proof.
  intros Hab. replace b with (a + (b - a))%Z by lia. rewrite bpow_add.
  rewrite (bpow_IZR (b - a)) by lia.
  assert (1 <= IZR (2 ^ (b - a))).
  { apply IZR_le. assert (0 < 2 ^ (b - a))%Z by (apply Z.pow_pos_nonneg; lia). lia. }
  pose proof (bpow_gt_0 a). nra.
Qed.

Lemma bpow_lt (a b : Z) : (a < b)%Z → bpow a < bpow b.
Proof.
  intros Hab. replace b with (a + (b - a))%Z by lia. rewrite bpow_add.
  rewrite (bpow_IZR (b - a)) by lia.
  assert (2 <= IZR (2 ^ (b - a))).
  { apply IZR_le. replace (b - a)%Z with (Z.succ (b - a - 1)) by lia.
    rewrite Z.pow_succ_r by lia.
    assert (0 < 2 ^ (b - a - 1))%Z by (apply Z.pow_pos_nonneg; lia). lia. }
  pose proof (bpow_gt_0 a). nra.
Qed.

Lemma bpow_lt_inv (a b : Z) : bpow a < bpow b → (a < b)%Z.
Proof.
  intros Hab. destruct (Z.lt_ge_cases a b) as [|Hge]; [done|].
  apply bpow_le in Hge. lra.
Qed.

Lemma bpow_opp (a : Z) : bpow (- a) = / bpow a.
Proof. apply powerRZ_neg'. Qed.

(** The value of a mantissa at an exponent, moved to a smaller exponent. *)
Lemma val_shift (m e e0 : Z) :
  (e0 <= e)%Z → IZR m * bpow e = IZR (m * 2 ^ (e - e0)) * bpow e0.
Proof.
  intros He. rewrite mult_IZR, <- bpow_IZR by lia.
  replace e with ((e - e0) + e0)%Z at 1 by lia. rewrite bpow_add. ring.
Qed.

(** The magnitude of a positive mantissa at an exponent. *)
Lemma val_mag (m e : Z) :
  (0 < m)%Z →
  bpow (Zdigits2 m + e - 1) <= IZR m * bpow e < bpow (Zdigits2 m + e).
Proof.
  intros Hm. pose proof (Zdigits2_bounds m Hm) as [Hlo Hhi].
  pose proof (Zdigits2_pos m Hm).
  replace (Zdigits2 m + e - 1)%Z with ((Zdigits2 m - 1) + e)%Z by lia.
  rewrite !bpow_add, (bpow_IZR (Zdigits2 m - 1)), (bpow_IZR (Zdigits2 m)) by lia.
  pose proof (bpow_gt_0 e). apply IZR_le in Hlo. apply IZR_lt in Hhi.
  split; [apply Rmult_le_compat_r; [lra|done]|apply Rmult_lt_compat_r; done].
Qed.

(** Rounding, in values: the error is at most one unit of the last place,
    and none when the mantissa is exact and fits. *)
Lemma binary_round_aux_val (sx : bool) (mx ex : Z) (lx : location) :
  (0 < mx)%Z → (-1074 <= Zdigits2 mx + ex - 53)%Z → (Zdigits2 mx + ex <= 1000)%Z →
  (ex <= 970)%Z → lx = loc_Exact ∨ (53 <= Zdigits2 mx)%Z →
  ∃ (m : positive) (e : Z),
    binary_round_aux 53 1024 sx mx ex lx = S754_finite sx m e
    ∧ (Z.pos m < 2 ^ 53)%Z
    ∧ IZR mx * bpow ex - bpow (Zdigits2 mx + ex - 53)
      <= IZR (Z.pos m) * bpow e
      <= IZR mx * bpow ex + bpow (Zdigits2 mx + ex - 53)
    ∧ (lx = loc_Exact → (Zdigits2 mx <= 53)%Z →
       IZR (Z.pos m) * bpow e = IZR mx * bpow ex).
Proof.
  intros Hm Hnorm Hmax Hex Hcase.
  destruct (binary_round_aux_value sx mx ex lx Hm Hnorm Hmax Hex)
    as (m & e & Hr & He & Hm53 & Hv & Hexact).
  exists m, e. split; [done|]. split; [done|].
  rewrite (val_shift (Z.pos m) e ex He).
  pose proof (bpow_gt_0 ex) as Hbe.
  pose proof (bpow_gt_0 (Zdigits2 mx + ex - 53)) as Hbu.
  assert (Hex0 : lx = loc_Exact → (Zdigits2 mx <= 53)%Z →
                 (Z.pos m * 2 ^ (e - ex))%Z = mx).
  { intros -> Hd. by rewrite (Hexact Hd). }
  split.
  - destruct (Z.le_gt_cases 53 (Zdigits2 mx)) as [Hd|Hd].
    + cbn zeta in Hv. replace (Z.max 0 (Zdigits2 mx - 53)) with (Zdigits2 mx - 53)%Z in Hv by lia.
      replace (Zdigits2 mx + ex - 53)%Z with ((Zdigits2 mx - 53) + ex)%Z by lia.
      rewrite bpow_add, (bpow_IZR (Zdigits2 mx - 53)) by lia.
      destruct Hv as [Hv1 Hv2]. apply IZR_lt in Hv1. apply IZR_le in Hv2.
      rewrite minus_IZR in Hv1. rewrite plus_IZR in Hv2.
      set (A := IZR (2 ^ (Zdigits2 mx - 53))) in *.
      set (V := IZR (Z.pos m * 2 ^ (e - ex))) in *.
      split; nra.
    + destruct Hcase as [Hl|Hd']; [|lia].
      rewrite (Hex0 Hl) by lia. lra.
  - intros Hl Hd. by rewrite (Hex0 Hl Hd).
Qed.

Lemma shl_align_value (mx : positive) (ex : Z) :
  (-1074 <= Zdigits2 (Z.pos mx) + ex - 53)%Z →
  let mz := fst (shl_align mx ex (fexp 53 1024 (Zdigits2 (Z.pos mx) + ex))) in
  let ez := snd (shl_align mx ex (fexp 53 1024 (Zdigits2 (Z.pos mx) + ex))) in
  (Zdigits2 (Z.pos mz) + ez = Zdigits2 (Z.pos mx) + ex)%Z ∧ (ez <= ex)%Z
  ∧ IZR (Z.pos mz) * bpow ez = IZR (Z.pos mx) * bpow ex
  ∧ ((Zdigits2 (Z.pos mx) <= 53)%Z → (Zdigits2 (Z.pos mz) <= 53)%Z).
Proof.
  intros Hnorm. rewrite fexp_normal by done. unfold shl_align. cbv zeta.
  destruct (Zdigits2 (Z.pos mx) + ex - 53 - ex)%Z as [|d|d] eqn:Ed;
    cbn [fst snd]; [repeat split; lia|repeat split; lia|].
  rewrite pos_iter_xO, Zdigits2_mul_pow2 by lia.
  split; [lia|]. split; [lia|]. split; [|lia].
  rewrite (val_shift (Z.pos mx) ex (Zdigits2 (Z.pos mx) + ex - 53)) by lia.
  replace (ex - (Zdigits2 (Z.pos mx) + ex - 53))%Z with (Z.pos d) by lia. done.
Qed.

Lemma binary_round_val (sx : bool) (mx : positive) (ex : Z) :
  (-1074 <= Zdigits2 (Z.pos mx) + ex - 53)%Z →
  (Zdigits2 (Z.pos mx) + ex <= 1000)%Z → (ex <= 970)%Z →
  ∃ (m : positive) (e : Z),
    binary_round 53 1024 sx mx ex = S754_finite sx m e
    ∧ (Z.pos m < 2 ^ 53)%Z
    ∧ IZR (Z.pos mx) * bpow ex - bpow (Zdigits2 (Z.pos mx) + ex - 53)
      <= IZR (Z.pos m) * bpow e
      <= IZR (Z.pos mx) * bpow ex + bpow (Zdigits2 (Z.pos mx) + ex - 53)
    ∧ ((Zdigits2 (Z.pos mx) <= 53)%Z →
       IZR (Z.pos m) * bpow e = IZR (Z.pos mx) * bpow ex).
Proof.
  intros Hnorm Hmax Hex. unfold binary_round.
  pose proof (shl_align_value mx ex Hnorm) as Hal.
  change (Z.pos (digits2_pos mx)) with (Zdigits2 (Z.pos mx)).
  destruct (shl_align mx ex (fexp 53 1024 (Zdigits2 (Z.pos mx) + ex))) as [mz ez].
  cbn [fst snd] in Hal. destruct Hal as (Hmag & Hez & Hval & Hd).
  destruct (binary_round_aux_val sx (Z.pos mz) ez loc_Exact)
    as (m & e & Hr & Hm53 & Hb & Hexact); [lia|lia|lia|lia|by left|].
  exists m, e. split; [done|]. split; [done|].
  rewrite Hmag, Hval in Hb. split; [done|].
  intros Hd53. rewrite Hexact; [done|done|by apply Hd].
Qed.



Lemma u52_pos : 0 < u52.
Proof. apply bpow_gt_0. Qed.

Lemma ulp_rel (m e : Z) :
  (0 < m)%Z → bpow (Zdigits2 m + e - 53) <= IZR m * bpow e * u52.
Proof.
  intros Hm. destruct (val_mag m e Hm) as [Hlo _].
  replace (Zdigits2 m + e - 53)%Z with ((Zdigits2 m + e - 1) + -52)%Z by lia.
  rewrite bpow_add. fold u52. pose proof u52_pos. nra.
Qed.

Lemma val_mag_lo (m e a : Z) :
  (0 < m)%Z → bpow a <= IZR m * bpow e → (a < Zdigits2 m + e)%Z.
Proof.
  intros Hm Ha. destruct (val_mag m e Hm) as [_ Hhi].
  apply bpow_lt_inv. lra.
Qed.

Lemma val_mag_hi (m e b : Z) :
  (0 < m)%Z → IZR m * bpow e <= bpow b → (Zdigits2 m + e <= b + 1)%Z.
Proof.
  intros Hm Hb. destruct (val_mag m e Hm) as [Hlo _].
  destruct (Z.le_gt_cases (Zdigits2 m + e) (b + 1)) as [|Hgt]; [done|].
  assert (bpow b < bpow (Zdigits2 m + e - 1)) by (apply bpow_lt; lia). lra.
Qed.

Lemma Zdigits2_mul_le (a b : Z) :
  (0 < a)%Z → (0 < b)%Z → (Zdigits2 (a * b) <= Zdigits2 a + Zdigits2 b)%Z.
Proof.
  intros Ha Hb.
  pose proof (Zdigits2_bounds a Ha) as [_ Hhia].
  pose proof (Zdigits2_bounds b Hb) as [_ Hhib].
  pose proof (Zdigits2_pos a Ha). pose proof (Zdigits2_pos b Hb).
  apply Zdigits2_le; [nia|]. rewrite Z.pow_add_r by lia. nia.
Qed.

Lemma pos_float_digits (m : positive) : (Z.pos m < 2 ^ 53)%Z → (Zdigits2 (Z.pos m) <= 53)%Z.
Proof. intros Hm. apply Zdigits2_le; lia. Qed.

(** One multiplication: the relative error is at most [u52]. *)
Lemma fmul_val (x y : spec_float) :
  pos_float x → pos_float y →
  bpow (-400) <= val x <= bpow 400 → bpow (-400) <= val y <= bpow 400 →
  pos_float (fmul x y)
  ∧ val x * val y * (1 - u52) <= val (fmul x y) <= val x * val y * (1 + u52).
Proof.
  intros (mx & ex & -> & Hmx) (my & ey & -> & Hmy) Hx Hy. cbn [val] in *.
  unfold fmul, SFmul. cbn [xorb].
  pose proof (pos_float_digits mx Hmx) as Hdx. pose proof (pos_float_digits my Hmy) as Hdy.
  pose proof (Zdigits2_pos (Z.pos mx) ltac:(lia)) as Hdx0.
  pose proof (Zdigits2_pos (Z.pos my) ltac:(lia)) as Hdy0.
  pose proof (val_mag_lo (Z.pos mx) ex (-400) ltac:(lia) (proj1 Hx)).
  pose proof (val_mag_hi (Z.pos mx) ex 400 ltac:(lia) (proj2 Hx)).
  pose proof (val_mag_lo (Z.pos my) ey (-400) ltac:(lia) (proj1 Hy)).
  pose proof (val_mag_hi (Z.pos my) ey 400 ltac:(lia) (proj2 Hy)).
  pose proof (Zdigits2_mul_ge (Z.pos mx) (Z.pos my) ltac:(lia) ltac:(lia)) as Hge.
  pose proof (Zdigits2_mul_le (Z.pos mx) (Z.pos my) ltac:(lia) ltac:(lia)) as Hle.
  rewrite <- Pos2Z.inj_mul in Hge, Hle.
  destruct (binary_round_aux_val false (Z.pos (mx * my)) (ex + ey) loc_Exact)
    as (m & e & -> & Hm & Hb & _); [lia|lia|lia|lia|by left|].
  split; [by exists m, e|]. cbn [val].
  pose proof (ulp_rel (Z.pos (mx * my)) (ex + ey) ltac:(lia)) as Hu.
  assert (Hprod : IZR (Z.pos (mx * my)) * bpow (ex + ey)
                  = IZR (Z.pos mx) * bpow ex * (IZR (Z.pos my) * bpow ey)).
  { rewrite Pos2Z.inj_mul, mult_IZR, bpow_add. ring. }
  rewrite Hprod in *. lra.
Qed.

Lemma shl_align_fst (mx : positive) (ex ez : Z) :
  (ez <= ex)%Z →
  Z.pos (fst (shl_align mx ex ez)) = (Z.pos mx * 2 ^ (ex - ez))%Z.
Proof.
  intros He. unfold shl_align. destruct (ez - ex)%Z as [|d|d] eqn:Ed; cbn [fst]; try lia.
  - replace (ex - ez)%Z with 0%Z by lia. lia.
  - rewrite pos_iter_xO. replace (ex - ez)%Z with (Z.pos d) by lia. done.
Qed.

(** One addition of positive floats: the relative error is at most [u52],
    and below 16 the absolute error is at most [2^-49]. *)
Lemma fadd_val (x y : spec_float) :
  pos_float x → pos_float y →
  bpow (-400) <= val x <= bpow 400 → bpow (-400) <= val y <= bpow 400 →
  pos_float (fadd x y)
  ∧ (val x + val y) * (1 - u52) <= val (fadd x y) <= (val x + val y) * (1 + u52)
  ∧ (val x + val y < bpow 4 → val (fadd x y) <= val x + val y + bpow (-49)).
Proof.
  intros (mx & ex & -> & Hmx) (my & ey & -> & Hmy) Hx Hy. cbn [val] in *.
  unfold fadd, SFadd. cbn [cond_Zopp].
  set (ez := Z.min ex ey).
  pose proof (shl_align_fst mx ex ez ltac:(subst ez; lia)) as Hax.
  pose proof (shl_align_fst my ey ez ltac:(subst ez; lia)) as Hay.
  match goal with
  | |- context [binary_normalize _ _ ?z _ _] =>
      change z with (Z.pos (fst (shl_align mx ex ez) + fst (shl_align my ey ez)))
  end.
  set (P := (fst (shl_align mx ex ez) + fst (shl_align my ey ez))%positive).
  assert (HP : IZR (Z.pos P) * bpow ez
               = IZR (Z.pos mx) * bpow ex + IZR (Z.pos my) * bpow ey).
  { subst P. rewrite Pos2Z.inj_add, Hax, Hay, plus_IZR.
    rewrite (val_shift (Z.pos mx) ex ez), (val_shift (Z.pos my) ey ez) by (subst ez; lia).
    ring. }
  assert (Hb401 : bpow 401 = 2 * bpow 400).
  { replace 401%Z with (1 + 400)%Z by lia. rewrite bpow_add. unfold bpow at 1. simpl. ring. }
  pose proof (bpow_gt_0 (-400)) as Hb400. pose proof (bpow_gt_0 400) as Hb400'.
  pose proof (val_mag_lo (Z.pos P) ez (-400) ltac:(lia) ltac:(lra)).
  pose proof (val_mag_hi (Z.pos P) ez 401 ltac:(lia) ltac:(lra)).
  pose proof (val_mag_hi (Z.pos mx) ex 400 ltac:(lia) (proj2 Hx)).
  pose proof (val_mag_hi (Z.pos my) ey 400 ltac:(lia) (proj2 Hy)).
  pose proof (Zdigits2_pos (Z.pos mx) ltac:(lia)).
  pose proof (Zdigits2_pos (Z.pos my) ltac:(lia)).
  unfold binary_normalize.
  destruct (binary_round_val false P ez) as (m & e & -> & Hm & Hb & _);
    [lia|lia|subst ez; lia|].
  split; [by exists m, e|]. cbn [val].
  pose proof (ulp_rel (Z.pos P) ez ltac:(lia)) as Hu.
  rewrite HP in *. split; [lra|].
  intros Hsmall.
  assert (Hmag : (Zdigits2 (Z.pos P) + ez <= 4)%Z).
  { destruct (val_mag (Z.pos P) ez ltac:(lia)) as [Hlo _]. rewrite HP in Hlo.
    assert (Zdigits2 (Z.pos P) + ez - 1 < 4)%Z by (apply bpow_lt_inv; lra). lia. }
  assert (bpow (Zdigits2 (Z.pos P) + ez - 53) <= bpow (-49)) by (apply bpow_le; lia).
  lra.
Qed.

(** Integers below [2^53] convert exactly. *)
Lemma Z2F_val (n : Z) :
  (0 < n < 2 ^ 53)%Z → pos_float (Z2F n) ∧ val (Z2F n) = IZR n.
Proof.
  intros [Hpos Hlt]. destruct n as [|p|p]; try lia.
  unfold Z2F, binary_normalize.
  pose proof (pos_float_digits p Hlt). pose proof (Zdigits2_pos (Z.pos p) Hpos).
  destruct (binary_round_val false p 0) as (m & e & -> & Hm & _ & Hexact); [lia|lia|lia|].
  split; [by exists m, e|]. cbn [val]. rewrite Hexact by done.
  unfold bpow. simpl. ring.
Qed.

(** One division: the quotient is at most [u52] above and [2 * u52] below
    the exact one, relatively. *)
Lemma fdiv_val (x y : spec_float) :
  pos_float x → pos_float y →
  bpow (-400) <= val x <= bpow 400 → bpow (-400) <= val y <= bpow 400 →
  pos_float (fdiv x y)
  ∧ val x / val y * (1 - 2 * u52) <= val (fdiv x y) <= val x / val y * (1 + u52).
Proof.
  intros (mx & ex & -> & Hmx) (my & ey & -> & Hmy) Hx Hy. cbn [val] in *.
  unfold fdiv, SFdiv, SFdiv_core_binary. cbn [xorb].
  pose proof (pos_float_digits mx Hmx) as Hdx. pose proof (pos_float_digits my Hmy) as Hdy.
  pose proof (Zdigits2_pos (Z.pos mx) ltac:(lia)) as Hdx0.
  pose proof (Zdigits2_pos (Z.pos my) ltac:(lia)) as Hdy0.
  pose proof (val_mag_lo (Z.pos mx) ex (-400) ltac:(lia) (proj1 Hx)) as Hx1.
  pose proof (val_mag_hi (Z.pos mx) ex 400 ltac:(lia) (proj2 Hx)) as Hx2.
  pose proof (val_mag_lo (Z.pos my) ey (-400) ltac:(lia) (proj1 Hy)) as Hy1.
  pose proof (val_mag_hi (Z.pos my) ey 400 ltac:(lia) (proj2 Hy)) as Hy2.
  set (dx := Zdigits2 (Z.pos mx)) in *. set (dy := Zdigits2 (Z.pos my)) in *.
  rewrite fexp_normal by lia.
  set (e' := (dx + ex - (dy + ey) - 53)%Z).
  replace (Z.min e' (ex - ey)) with e' by (subst e'; lia).
  set (s := (ex - ey - e')%Z).
  assert (Hs : s = (53 + dy - dx)%Z) by (subst s e'; lia).
  destruct s as [|sp|sp] eqn:Es; try lia.
  rewrite Z.shiftl_mul_pow2 by lia.
  set (m' := (Z.pos mx * 2 ^ Z.pos sp)%Z).
  pose proof (Z_div_mod m' (Z.pos my) ltac:(lia)) as Hdm.
  destruct (Z.div_eucl m' (Z.pos my)) as [q r]. destruct Hdm as [Hdm Hr].
  pose proof (Zdigits2_bounds (Z.pos mx) ltac:(lia)) as [Hlox Hhix]. fold dx in Hlox, Hhix.
  pose proof (Zdigits2_bounds (Z.pos my) ltac:(lia)) as [Hloy Hhiy]. fold dy in Hloy, Hhiy.
  assert (Hp : (0 < 2 ^ Z.pos sp)%Z) by (apply Z.pow_pos_nonneg; lia).
  assert (Hm'lo : (2 ^ (52 + dy) <= m')%Z).
  { subst m'. replace (52 + dy)%Z with ((dx - 1) + Z.pos sp)%Z by lia.
    rewrite Z.pow_add_r by lia. nia. }
  assert (Hm'hi : (m' < 2 ^ (53 + dy))%Z).
  { subst m'. replace (53 + dy)%Z with (dx + Z.pos sp)%Z by lia.
    rewrite Z.pow_add_r by lia. nia. }
  assert (Hq52 : (2 ^ 52 <= q)%Z).
  { rewrite Z.pow_add_r in Hm'lo by lia.
    assert (0 < 2 ^ dy)%Z by (apply Z.pow_pos_nonneg; lia). nia. }
  assert (Hq54 : (q < 2 ^ 54)%Z).
  { replace (53 + dy)%Z with (54 + (dy - 1))%Z in Hm'hi by lia.
    rewrite Z.pow_add_r in Hm'hi by lia.
    assert (0 < 2 ^ (dy - 1))%Z by (apply Z.pow_pos_nonneg; lia). nia. }
  assert (Hdq : (53 <= Zdigits2 q <= 54)%Z).
  { split; [apply Zdigits2_ge; [lia|]; simpl; lia|apply Zdigits2_le; lia]. }
  destruct (binary_round_aux_val false q e' (new_location (Z.pos my) r))
    as (m & e & -> & Hm & Hb & _); [lia|subst e'; lia|subst e'; lia|subst e'; lia|right; lia|].
  split; [by exists m, e|]. cbn [val].
  pose proof (ulp_rel q e' ltac:(lia)) as Hu.
  pose proof u52_pos as Hu0.
  assert (Hu1 : u52 <= / 2).
  { unfold u52, bpow. simpl. lra. }
  pose proof (bpow_gt_0 e') as He'0. pose proof (bpow_gt_0 ex) as Hex0.
  pose proof (bpow_gt_0 ey) as Hey0. pose proof (bpow_gt_0 (-400)) as Hb400.
  set (A := IZR (Z.pos mx) * bpow ex) in *.
  set (B := IZR (Z.pos my) * bpow ey) in *.
  set (q' := IZR q * bpow e') in *.
  assert (HA : A = IZR m' * bpow e' * bpow ey).
  { subst A m'. rewrite mult_IZR, <- bpow_IZR by lia.
    replace ex with (Z.pos sp + e' + ey)%Z at 1 by lia. rewrite !bpow_add. ring. }
  assert (HF1 : B * q' <= A).
  { rewrite HA. subst B q'.
    assert (IZR (Z.pos my) * IZR q <= IZR m').
    { rewrite <- mult_IZR. apply IZR_le. lia. }
    assert (0 < bpow e' * bpow ey) by nra. nra. }
  assert (HF2 : A < B * (q' + bpow e')).
  { rewrite HA. subst B q'.
    assert (IZR m' < IZR (Z.pos my) * (IZR q + 1)).
    { rewrite <- (plus_IZR q 1), <- mult_IZR. apply IZR_lt. lia. }
    assert (0 < bpow e' * bpow ey) by nra. nra. }
  assert (HF3 : bpow e' <= u52 * q').
  { subst q'. unfold u52.
    assert (1 <= bpow (-52) * IZR q).
    { replace 1 with (bpow (-52) * bpow 52).
      - apply Rmult_le_compat_l; [apply Rlt_le, bpow_gt_0|].
        rewrite bpow_IZR by lia. by apply IZR_le.
      - rewrite <- bpow_add. done. }
    nra. }
  assert (HB : 0 < B) by lra.
  set (T := A / B).
  assert (HT : A = T * B) by (subst T; field; lra).
  assert (HT1 : q' <= T) by (rewrite HT in HF1; nra).
  assert (HT2 : T < q' + bpow e') by (rewrite HT in HF2; nra).
  assert (Hq'0 : 0 < q') by (subst q'; apply Rmult_lt_0_compat; [apply IZR_lt; lia|done]).
  split; nra.
Qed.

(** Landmarks. *)
Lemma bpow_pos_val (k : Z) : (0 <= k)%Z → bpow k = IZR (2 ^ k).
Proof. apply bpow_IZR. Qed.

Lemma bpow_neg_val (k : Z) : (0 <= k)%Z → bpow (- k) = / IZR (2 ^ k).
Proof. intros Hk. by rewrite bpow_opp, bpow_IZR. Qed.

Lemma u52_val : u52 = / 4503599627370496.
Proof. unfold u52. change (-52)%Z with (- (52))%Z. by rewrite (bpow_neg_val 52). Qed.

Lemma bpow_m400 : bpow (-400) <= / 1152921504606846976.
Proof.
  change (/ 1152921504606846976) with (/ IZR (2 ^ 60)).
  rewrite <- (bpow_neg_val 60) by lia. apply bpow_le. lia.
Qed.

Lemma bpow_400 : 1152921504606846976 <= bpow 400.
Proof.
  change 1152921504606846976 with (IZR (2 ^ 60)).
  rewrite <- (bpow_pos_val 60) by lia. apply bpow_le. lia.
Qed.


Lemma fle_val (x y : spec_float) : fle x y = true → val x <= val y.
Proof.
  destruct x as [| | |[] m1 e1]; try done. destruct y as [| | |[] m2 e2]; try done.
  cbn [fle val]. intros H. apply Z.leb_le in H.
  rewrite (val_shift (Z.pos m1) e1 (Z.min e1 e2)), (val_shift (Z.pos m2) e2 (Z.min e1 e2)) by lia.
  apply Rmult_le_compat_r; [apply Rlt_le, bpow_gt_0|]. by apply IZR_le.
Qed.


Lemma is_pos_float_spec (x : spec_float) : is_pos_float x = true → pos_float x.
Proof.
  destruct x as [| | |[] m e]; try done. cbn [is_pos_float]. intros H.
  exists m, e. split; [done|]. lia.
Qed.



Lemma root_ok_scores (food service : Z) :
  (1 <= food <= 5)%Z → (1 <= service <= 5)%Z → root_ok (food ^ 2 * service) = true.
Proof.
  intros Hf Hs.
  assert (Hf' : food = 1%Z ∨ food = 2%Z ∨ food = 3%Z ∨ food = 4%Z ∨ food = 5%Z) by lia.
  assert (Hs' : service = 1%Z ∨ service = 2%Z ∨ service = 3%Z ∨ service = 4%Z
                ∨ service = 5%Z) by lia.
  destruct Hf' as [->|[->|[->|[->| ->]]]]; destruct Hs' as [->|[->|[->|[->| ->]]]];
    vm_compute; reflexivity.
Qed.

Lemma sqrt125_val : pos_float sqrt125 ∧ 11 <= val sqrt125 <= 12.
Proof.
  split; [apply is_pos_float_spec; vm_compute; reflexivity|].
  destruct (Z2F_val 11 ltac:(lia)) as [_ H11]. destruct (Z2F_val 12 ltac:(lia)) as [_ H12].
  rewrite <- H11, <- H12. split; apply fle_val; vm_compute; reflexivity.
Qed.








Lemma round_half_even_shift_le (M k B : Z) :
  (0 <= M)%Z → (0 < k)%Z → (0 <= B)%Z → (2 * M < (2 * B + 1) * 2 ^ k)%Z →
  (0 <= round_half_even_shift M k <= B)%Z.
Proof.
  intros HM Hk HB Hlt. unfold round_half_even_shift.
  assert (Hd : (0 < 2 ^ k)%Z) by (apply Z.pow_pos_nonneg; lia).
  pose proof (Z.div_mod M (2 ^ k) ltac:(lia)) as Hdm.
  pose proof (Z.mod_pos_bound M (2 ^ k) Hd) as Hr.
  assert (Hq0 : (0 <= M / 2 ^ k)%Z) by (apply Z.div_pos; lia).
  set (q := (M / 2 ^ k)%Z) in *. set (r := (M mod 2 ^ k)%Z) in *.
  destruct (Z.compare_spec (2 * r) (2 ^ k)) as [Heq|Hl|Hg].
  - destruct (Z.even q); nia.
  - nia.
  - nia.
Qed.


Lemma Forall_zip_scores (fs ss : list Z) :
  Forall (fun z => (1 <= z <= 5)%Z) fs → Forall (fun z => (1 <= z <= 5)%Z) ss →
  Forall scores_1_5 (zip fs ss).
Proof.
  intros Hf. revert ss. induction Hf as [|f fs Hf _ IH]; intros ss Hs; [constructor|].
  destruct Hs as [|s ss Hs Hss]; [constructor|].
  cbn [zip zip_with]. constructor; [done|]. by apply IH.
Qed.

Lemma scores_in_domain (pair : Z * Z) : scores_1_5 pair → pair_in_domain pair.
Proof.
  intros [Hf Hs]. split; [nia|].
  destruct (Z2F_small (pair.1 ^ 2 * pair.2)) as (m & e & -> & _); [|done].
  change (2 ^ 63)%Z with 9223372036854775808%Z. nia.
Qed.


Local Close Scope R_scope.

(** ** The claims about [calculate_overall_score] *)

(** C1, as stated, fails at a negative service score, where the root of
    the negative product is the "math domain error", and at a score too
    large for a float: no mapping is returned. *)
Lemma calculate_overall_score_domain_error :
  calculate_overall_score (py "X") [1] [-1] = Raise ValueError
  ∧ calculate_overall_score (py "X") [10 ^ 160] [1] = Raise OverflowError.
Proof. split; vm_compute; reflexivity. Qed.

(** C1, amended.  When each of the first [N] products [food^2 * service]
    is non-negative and converts to a float, the result is the single-entry
    mapping from the name to the rounded sum of the contributions of the
    first [N] pairs, [N] being the length of the shorter list; elements
    beyond [N] are not read; and the scores [5], [5] yield exactly [10.0]. *)
Theorem calculate_overall_score_spec (name : list N)
    (food_scores service_scores : list Z) :
  let n := Nat.min (length food_scores) (length service_scores) in
  Z.of_nat n < 2 ^ 63 →
  Forall pair_in_domain (zip food_scores service_scores) →
  calculate_overall_score name food_scores service_scores
  = Ok {[ name := overall_score_formula food_scores service_scores ]}
  ∧ length (zip food_scores service_scores) = n
  ∧ calculate_overall_score name (take n food_scores) (take n service_scores)
    = calculate_overall_score name food_scores service_scores
  ∧ calculate_overall_score (py "X") [5] [5] = Ok {[ py "X" := PyFloat (Z2F 10) ]}.
Proof.
  intros n HN Hdom.
  split; [by apply calculate_overall_score_ok|].
  split; [apply length_zip_with|].
  split; [apply calculate_overall_score_take|].
  vm_compute. reflexivity.
Qed.

Lemma calculate_overall_score_spec_witness :
  calculate_overall_score (py "X") [1; 5; 4] [1; 5]
  = Ok {[ py "X" := overall_score_formula [1; 5; 4] [1; 5] ]}
  ∧ length (zip [1; 5; 4] [1; 5]) = 2%nat
  ∧ calculate_overall_score (py "X") (take 2 [1; 5; 4]) (take 2 [1; 5])
    = calculate_overall_score (py "X") [1; 5; 4] [1; 5]
  ∧ calculate_overall_score (py "X") [5] [5] = Ok {[ py "X" := PyFloat (Z2F 10) ]}.
Proof.
  apply (calculate_overall_score_spec (py "X") [1; 5; 4] [1; 5]).
  - vm_compute. reflexivity.
  - repeat constructor; vm_compute; congruence.
Defined.

Lemma dict_eq_singleton (name : list N) (x y : pynum) :
  py_eq x y = true → dict_eq {[ name := x ]} {[ name := y ]} = true.
Proof.
  intros Hxy. unfold dict_eq. apply bool_decide_eq_true. split.
  - by rewrite !dom_singleton_L.
  - apply map_Forall_singleton. by rewrite lookup_singleton_eq.
Qed.

(** C3, as stated, fails on the value returned.  With no pair to add, the
    score is the [0] the sum starts from, an [int] that [round] leaves an
    [int]: the mapping returned is [{"X": 0}], which is not the mapping
    [{"X": 0.0}], whose value is a [float]. *)
Lemma calculate_overall_score_empty_int :
  calculate_overall_score (py "X") [] [] = Ok {[ py "X" := PyInt 0 ]}
  ∧ calculate_overall_score (py "X") [] []
    ≠ Ok {[ py "X" := PyFloat (S754_zero false) ]}.
Proof.
  assert (Hint : calculate_overall_score (py "X") [] [] = Ok {[ py "X" := PyInt 0 ]})
    by reflexivity.
  split; [exact Hint|]. rewrite Hint. intros Heq.
  apply (f_equal (fun r => match r with
                           | Ok restaurant_data => restaurant_data !! py "X"
                           | Raise _ => None
                           end)) in Heq.
  rewrite !lookup_singleton_eq in Heq. discriminate Heq.
Qed.

(** C3, amended.  When either list is empty the loop body, and with it the
    division, is not reached: no exception is raised and the result is the
    mapping from the name to the integer [0] the sum starts from, a mapping
    that compares equal to [{name: 0.0}]; the division itself would have
    failed for [N = 0]. *)
Theorem calculate_overall_score_empty (name : list N)
    (food_scores service_scores : list Z) :
  food_scores = [] ∨ service_scores = [] →
  ∃ restaurant_data,
    calculate_overall_score name food_scores service_scores = Ok restaurant_data
    ∧ dict_eq restaurant_data {[ name := PyFloat (S754_zero false) ]} = true
    ∧ restaurant_data = {[ name := PyInt 0 ]}
    ∧ score_loop food_scores service_scores 0 (seq 0 0) (PyInt 0) = Ok (PyInt 0)
    ∧ int_div_float 1 (fmul (Z2F 0) (fsqrt (Z2F 125))) = Raise ZeroDivisionError.
Proof.
  intros Hempty. exists {[ name := PyInt 0 ]}. split.
  - unfold calculate_overall_score.
    replace (Nat.min (length food_scores) (length service_scores)) with 0%nat; [done|].
    destruct Hempty as [-> | ->]; simpl; lia.
  - split; [by apply dict_eq_singleton|]. repeat split.
Qed.

Lemma calculate_overall_score_empty_witness :
  ∃ restaurant_data,
    calculate_overall_score (py "X") [3; 4] [] = Ok restaurant_data
    ∧ dict_eq restaurant_data {[ py "X" := PyFloat (S754_zero false) ]} = true
    ∧ restaurant_data = {[ py "X" := PyInt 0 ]}
    ∧ score_loop [3; 4] [] 0 (seq 0 0) (PyInt 0) = Ok (PyInt 0)
    ∧ int_div_float 1 (fmul (Z2F 0) (fsqrt (Z2F 125))) = Raise ZeroDivisionError.
Proof.
  apply (calculate_overall_score_empty (py "X") [3; 4] []).
  right. reflexivity.
Defined.

(** Why the range is stated for lists of a bounded length.  Every addition
    of the loop rounds the sum to 53 bits.  In binary64 arithmetic taken by
    itself, for [10^15] pairs of scores [5], [5] each term is about [10^-14]
    and the rounded additions carry the sum to 10.0743..., so that the score
    would be 10.07.  Two lists of that length take 8 petabytes of pointers
    each: this is a limit of the arithmetic, not an input that a run of the
    program meets. *)
Lemma score_above_ten :
  let n := Z.to_nat many_pairs in
  let score := PyFloat (S754_finite false 5668906030952612 (-49)) in
  Forall (fun z => 1 <= z <= 5) (replicate n 5)
  ∧ calculate_overall_score (py "X") (replicate n 5) (replicate n 5)
    = Ok {[ py "X" := score ]}
  ∧ score_in_range score = false
  ∧ score = PyFloat (hundredths 1007).
Proof.
  intros n score. split; [apply Forall_replicate; lia|].
  split; [|split; vm_compute; reflexivity].
  apply many_pairs_score. subst n. unfold many_pairs. lia.
Qed.



(** ** The claim about the orchestrator *)

Local Close Scope Z_scope.
Local Open Scope N_scope.

Section OrchestratorClaims.
Variable world : Type.
Variable propose :
  world -> ConversableAgent -> option (list N) -> list turn
  -> option (list N * list N) * world.
Variable invoke : world -> list N -> list N -> list N.
Variable finalize :
  world -> ConversableAgent -> option (list N) -> list turn -> list (list N)
  -> list N * world.
Variable termination_policy : list N -> bool.
Variable other_summary : list N -> list turn -> list N.

Local Abbreviation take_turn' :=
  (take_turn world propose invoke finalize termination_policy).
Local Abbreviation exchange' :=
  (exchange world propose invoke finalize termination_policy).
Local Abbreviation initiate_chat' :=
  (initiate_chat world propose invoke finalize termination_policy other_summary).
Local Abbreviation run_chats' :=
  (run_chats world propose invoke finalize termination_policy other_summary).
Local Abbreviation initiate_chats' :=
  (initiate_chats world propose invoke finalize termination_policy other_summary).
Local Abbreviation main' :=
  (main world propose invoke finalize termination_policy other_summary).

(** A turn appends one reply of the recipient to the transcript, invokes at
    most one tool, a bound one, and leaves the stage [Active] unless the
    reply satisfies the termination policy. *)
Lemma take_turn_spec (w : world) (info : chat_info) (context : option (list N))
    (st : stage) :
  ∃ reply invoked,
    (take_turn' w info context st).1
    = {| state := if termination_policy reply then Terminated_Normal else Active;
         transcript := transcript st
           ++ [{| turn_sender := agent_name (recipient info); text := reply |}];
         invocations := invocations st ++ invoked |}
    ∧ (length invoked ≤ 1)%nat
    ∧ Forall (fun call => tool call ∈ bound_tools info) invoked.
Proof.
  unfold take_turn.
  destruct (propose w (recipient info) context (transcript st)) as [request w1].
  set (invoked := match request with Some _ => _ | None => _ end).
  destruct (finalize w1 (recipient info) context (transcript st)
              (tool_result <$> invoked)) as [reply w2].
  exists reply, invoked. split; [done|].
  subst invoked. destruct request as [[name args]|]; [|by split; [cbn; lia|]].
  case_decide; [|by split; [cbn; lia|]].
  split; [cbn; lia|]. by apply Forall_singleton.
Qed.

(** A stage that is not [Active] takes no turn. *)
Lemma exchange_ended (budget : nat) (w : world) (info : chat_info)
    (context : option (list N)) (st : stage) :
  state st ≠ Active → exchange' budget w info context st = (st, w).
Proof. intros Hst. destruct budget; cbn; by destruct (state st). Qed.

(** An [Active] stage with budget left takes a turn. *)
Lemma exchange_turn (budget : nat) (w : world) (info : chat_info)
    (context : option (list N)) (st : stage) :
  state st = Active →
  exchange' (S budget) w info context st
  = exchange' budget (take_turn' w info context st).2 info context
      (take_turn' w info context st).1.
Proof.
  intros Hst. cbn [exchange]. rewrite Hst.
  by destruct (take_turn' w info context st).
Qed.

(** How an [Active] stage ends.  The replies added to the transcript are the
    recipient's, at most as many as the budget allows; the tools invoked are
    bound to the stage; the stage ends [Terminated_Normal] on the first reply
    that satisfies the termination policy, and [Terminated_MaxTurns] when
    the budget is exhausted without one. *)
Lemma exchange_spec (info : chat_info) (context : option (list N)) (budget : nat) :
  ∀ (w : world) (st : stage),
    state st = Active →
    ∃ new_turns new_calls,
      let st' := (exchange' budget w info context st).1 in
      transcript st' = transcript st ++ new_turns
      ∧ invocations st' = invocations st ++ new_calls
      ∧ (length new_turns ≤ budget)%nat
      ∧ (0 < budget → 0 < length new_turns)%nat
      ∧ Forall (fun reply => turn_sender reply = agent_name (recipient info)) new_turns
      ∧ Forall (fun call => tool call ∈ bound_tools info) new_calls
      ∧ (state st' = Terminated_Normal
           ∧ (∃ reply, last new_turns = Some reply
                ∧ termination_policy (text reply) = true)
         ∨ state st' = Terminated_MaxTurns
           ∧ length new_turns = budget
           ∧ Forall (fun reply => termination_policy (text reply) = false) new_turns).
Proof.
  induction budget as [|budget IH]; intros w st Hst.
  - exists [], []. cbn. rewrite Hst. cbn. rewrite !app_nil_r.
    repeat split; try done; try lia. right. by repeat split.
  - rewrite (exchange_turn _ _ _ _ _ Hst).
    destruct (take_turn_spec w info context st) as (reply & invoked & Hturn & _ & Hbound).
    set (w1 := (take_turn' w info context st).2).
    rewrite Hturn. clear Hturn.
    set (said := {| turn_sender := agent_name (recipient info); text := reply |}).
    destruct (termination_policy reply) eqn:Hend.
    + rewrite exchange_ended by done.
      exists [said], invoked. cbn.
      repeat split; try done; try lia; [by apply Forall_singleton|].
      left. split; [done|]. by exists said.
    + set (st1 := {| state := Active; transcript := transcript st ++ [said];
                     invocations := invocations st ++ invoked |}).
      destruct (IH w1 st1 eq_refl)
        as (new_turns & new_calls & Htr & Hinv & Hlen & _ & Hsender & Hcalls & Hstate).
      exists (said :: new_turns), (invoked ++ new_calls).
      cbn zeta in *. rewrite Htr, Hinv. cbn [transcript invocations st1].
      rewrite <- !(assoc_L (++)). cbn [app length].
      repeat split; try done; try lia.
      * by apply Forall_cons.
      * by apply Forall_app.
      * destruct Hstate as [[Hs (last_reply & Hlast & Hpol)]|(Hs & Hn & Hnone)].
        -- left. split; [done|]. exists last_reply. split; [|done].
           destruct new_turns; [done|]. by rewrite last_cons_cons.
        -- right. split; [done|]. split; [lia|]. by apply Forall_cons.
Qed.

(** A stage from start to end, when it summarizes by ["last_msg"] and its
    budget allows a turn: it takes at least one turn and at most its budget,
    its summary is the text of the last reply of the recipient, it ends
    [Terminated_Normal] when that reply satisfies the termination policy and
    [Terminated_MaxTurns], its budget used up, when it does not, and the
    tools it invoked are bound to it. *)
Lemma initiate_chat_spec (w : world) (info : chat_info) (context : option (list N)) :
  summary_method info = py "last_msg" →
  (0 < turn_budget info)%nat →
  let r := (initiate_chat' w info context).1 in
  (state (final r) = Terminated_Normal
     ∧ termination_policy (summary r) = true
   ∨ state (final r) = Terminated_MaxTurns
     ∧ length (replies (final r)) = turn_budget info
     ∧ termination_policy (summary r) = false)
  ∧ (1 ≤ length (replies (final r)) ≤ turn_budget info)%nat
  ∧ (∃ reply, last (transcript (final r)) = Some reply
       ∧ turn_sender reply = agent_name (recipient info)
       ∧ summary r = text reply)
  ∧ Forall (fun call => tool call ∈ bound_tools info) (invocations (final r)).
Proof.
  intros Hmethod Hbudget. unfold initiate_chat.
  set (st0 := start info idle).
  destruct (exchange_spec info context (turn_budget info) w st0 eq_refl)
    as (new_turns & new_calls & Htr & Hinv & Hlen & Hpos & Hsender & Hcalls & Hstate).
  destruct (exchange' (turn_budget info) w info context st0) as [st w'].
  cbn [fst] in *. cbn zeta in *. cbn [final summary].
  specialize (Hpos Hbudget).
  change (transcript st0)
    with [{| turn_sender := agent_name (sender info); text := message info |}] in Htr.
  change (invocations st0) with (@nil invocation) in Hinv.
  destruct (last new_turns) as [last_reply|] eqn:Hlast;
    [|apply last_None in Hlast; subst new_turns; cbn in Hpos; lia].
  assert (Hlast' : last (transcript st) = Some last_reply).
  { rewrite Htr. cbn [app]. destruct new_turns; [done|]. by rewrite last_cons_cons. }
  assert (Hsum : summarize other_summary (summary_method info) (transcript st)
                 = text last_reply).
  { unfold summarize. rewrite Hmethod, decide_True by done. by rewrite Hlast'. }
  assert (Hrep : replies st = new_turns) by (unfold replies; by rewrite Htr).
  rewrite Hsum, Hrep, Hinv. repeat split; try done; try lia.
  - destruct Hstate as [[Hs (reply & Hreply & Hpol)]|(Hs & Hn & Hnone)].
    + left. split; [done|]. by simplify_eq.
    + right. repeat split; try done.
      apply last_Some in Hlast as [front ->].
      rewrite Forall_app, Forall_singleton in Hnone. by destruct Hnone.
  - exists last_reply. repeat split; try done.
    apply last_Some in Hlast as [front ->].
    rewrite Forall_app, Forall_singleton in Hsender. by destruct Hsender.
Qed.

(** Whether a tool is bound to a stage of the queue, against the role of
    the stage. *)
Ltac tool_role :=
  let H := fresh in
  split; intros H;
  [ try reflexivity; exfalso; vm_compute in H;
    repeat (apply elem_of_cons in H as [H|H]; [discriminate H|]);
    by apply elem_of_nil in H
  | first [discriminate H | vm_compute; by repeat constructor] ].

(** C5.  For every query, every language model and every termination policy,
    [main] runs the four stages of its queue one after the other, each seeded
    with the summary of the stage before.  The queue sets [max_turns] to 2, 1,
    4, 1, [max_consecutive_auto_reply] to 1 on the third stage only and the
    summary method to ["last_msg"] throughout.  Every stage ends, after at
    least one reply of its recipient and at most as many as [max_turns] and
    [max_consecutive_auto_reply] allow, normally when the last reply
    satisfies the termination policy and by exhaustion of its turns when it
    does not; its summary is the text of its last reply; every tool it
    invoked is bound to it.  The lookup tool is bound to the stage whose
    role is given by the instructions of the data fetch agent, the first,
    and to no other; the aggregator to the stage whose role is given by the
    instructions of the scoring agent, the third, and to no other; although
    [entrypoint_agent], which executes both, takes part in all four.  What [main] prints is the label
    followed by the summary of the fourth stage as it is. *)
Theorem main_four_stages (w0 : world) (user_query : list N) :
  let queue := chat_queue user_query in
  let '(r1, w1) := initiate_chat' w0 (stage1 user_query) None in
  let '(r2, w2) := initiate_chat' w1 stage2 (Some (summary r1)) in
  let '(r3, w3) := initiate_chat' w2 stage3 (Some (summary r2)) in
  let '(r4, w4) := initiate_chat' w3 stage4 (Some (summary r3)) in
  initiate_chats' w0 queue = ([r1; r2; r3; r4], w4)
  ∧ max_turns <$> queue = [2; 1; 4; 1]%Z
  ∧ max_consecutive_auto_reply <$> queue = [None; None; Some 1%Z; None]
  ∧ summary_method <$> queue
    = [py "last_msg"; py "last_msg"; py "last_msg"; py "last_msg"]
  ∧ Forall2 (fun info r =>
       (state (final r) = Terminated_Normal
          ∧ termination_policy (summary r) = true
        ∨ state (final r) = Terminated_MaxTurns
          ∧ length (replies (final r)) = turn_budget info
          ∧ termination_policy (summary r) = false)
       ∧ (1 ≤ length (replies (final r)))%nat
       ∧ (Z.of_nat (length (replies (final r))) ≤ max_turns info)%Z
       ∧ (Z.of_nat (length (replies (final r)))
          ≤ default (max_turns info) (max_consecutive_auto_reply info))%Z
       ∧ (∃ reply, last (transcript (final r)) = Some reply
            ∧ turn_sender reply = agent_name (recipient info)
            ∧ summary r = text reply)
       ∧ Forall (fun call => tool call ∈ bound_tools info) (invocations (final r)))
     queue [r1; r2; r3; r4]
  ∧ role_instructions <$> queue
    = [get_data_fetch_agent_prompt; get_review_analysis_agent_prompt;
       get_scoring_agent_prompt; get_entrypoint_agent_prompt]
  ∧ Forall (fun info =>
       (py "fetch_restaurant_data" ∈ bound_tools info
        ↔ role_instructions info = get_data_fetch_agent_prompt)
       ∧ (py "calculate_overall_score" ∈ bound_tools info
          ↔ role_instructions info = get_scoring_agent_prompt)
       ∧ function_map (sender info)
         = [py "fetch_restaurant_data"; py "calculate_overall_score"])
     queue
  ∧ main' w0 user_query
    = (Ok (py "Chat Summary: " ++ [32] ++ summary r4 ++ [10]), w4).
Proof.
  intros queue.
  pose proof (initiate_chat_spec w0 (stage1 user_query) None eq_refl) as S1.
  destruct (initiate_chat' w0 (stage1 user_query) None) as [r1 w1] eqn:H1.
  pose proof (initiate_chat_spec w1 stage2 (Some (summary r1)) eq_refl) as S2.
  destruct (initiate_chat' w1 stage2 (Some (summary r1))) as [r2 w2] eqn:H2.
  pose proof (initiate_chat_spec w2 stage3 (Some (summary r2)) eq_refl) as S3.
  destruct (initiate_chat' w2 stage3 (Some (summary r2))) as [r3 w3] eqn:H3.
  pose proof (initiate_chat_spec w3 stage4 (Some (summary r3)) eq_refl) as S4.
  destruct (initiate_chat' w3 stage4 (Some (summary r3))) as [r4 w4] eqn:H4.
  assert (Hrun : initiate_chats' w0 queue = ([r1; r2; r3; r4], w4)).
  { unfold initiate_chats. subst queue. unfold chat_queue. cbn [run_chats].
    by rewrite H1, H2, H3, H4. }
  split; [exact Hrun|]. do 3 (split; [reflexivity|]).
  split; [|split; [reflexivity|split]].
  - change (turn_budget (stage1 user_query)) with 2%nat in S1.
    change (turn_budget stage2) with 1%nat in S2.
    change (turn_budget stage3) with 1%nat in S3.
    change (turn_budget stage4) with 1%nat in S4.
    cbn [fst] in S1, S2, S3, S4.
    destruct (S1 ltac:(lia)) as (E1 & L1 & M1 & T1).
    destruct (S2 ltac:(lia)) as (E2 & L2 & M2 & T2).
    destruct (S3 ltac:(lia)) as (E3 & L3 & M3 & T3).
    destruct (S4 ltac:(lia)) as (E4 & L4 & M4 & T4).
    subst queue. unfold chat_queue.
    constructor; [|constructor; [|constructor; [|constructor; [|constructor]]]];
      (split; [tauto|]);
      (split; [lia|]);
      (split; [cbn; lia|]);
      (split; [cbn; lia|]);
      by split.
  - subst queue. unfold chat_queue.
    constructor; [|constructor; [|constructor; [|constructor; [|constructor]]]];
      (split; [tool_role|split; [tool_role|reflexivity]]).
  - unfold main. subst queue. rewrite Hrun. reflexivity.
Qed.

End OrchestratorClaims.

(** A run of the four stages with the scripted participant.  The lookup
    tool it asks for in every turn is invoked in the turns of the first
    stage and in no other stage; the stages take 2, 1, 1 and 1 turns and end
    by exhaustion of their turns. *)
Example eager_run_stages :
  (fun r => tool <$> invocations (final r)) <$> eager_run
  = [[py "fetch_restaurant_data"; py "fetch_restaurant_data"]; []; []; []]
  ∧ (fun r => length (replies (final r))) <$> eager_run = [2; 1; 1; 1]%nat
  ∧ (fun r => state (final r)) <$> eager_run
    = [Terminated_MaxTurns; Terminated_MaxTurns; Terminated_MaxTurns;
       Terminated_MaxTurns]
  ∧ summary <$> eager_run
    = [py "fetch_restaurant_dataSubway"; []; []; []].
Proof. vm_compute. done. Qed.

(** * Further properties

    Properties of the three functions beyond those the specification
    states: what the canonical key is on ASCII names, how the lookup reads
    the store file and how it fails, which exceptions the aggregation can
    raise and which values it returns. *)

(** ** [sanitize] and the review store *)

Section SanitizeMore.
Context {UD : UnicodeData}.

Lemma kept_ascii (c : char) : c < 128 → kept c = ascii_key c.
Proof.
  intros Hc. unfold kept, ascii_key, to_lower_full, keep_lower_alnum.
  replace (c =? 931) with false by lia.
  replace (c <? 128) with true by lia.
  destruct (is_space c) eqn:Hsp.
  - unfold is_space in Hsp. unfold is_lower_alnum.
    replace ((65 <=? c) && (c <=? 90)) with false by lia.
    by replace (((97 <=? c) && (c <=? 122)) || ((48 <=? c) && (c <=? 57))) with false by lia.
  - destruct ((65 <=? c) && (c <=? 90)) eqn:Hup.
    + rewrite filter_cons, decide_True; [done|]. unfold is_lower_alnum. lia.
    + rewrite filter_cons. destruct (is_lower_alnum c) eqn:Hl.
      * by rewrite decide_True.
      * by rewrite decide_False.
Qed.

Lemma length_ascii_key (c : char) : (length (ascii_key c) <= 1)%nat.
Proof. unfold ascii_key. repeat case_match; simpl; lia. Qed.

(** X1.  The fixed points of [sanitize] are exactly the strings over
    [a-z0-9]: a name is its own canonical key if and only if it consists of
    small ASCII letters and digits only. *)
Theorem sanitize_fixed_point (s : str) :
  sanitize s = s ↔ Forall (fun c => is_lower_alnum c = true) s.
Proof.
  split.
  - intros <-. apply sanitize_lower_alnum.
  - intros Hs. rewrite sanitize_charwise. by apply bind_kept_fixed.
Qed.

(** X2.  On a string of ASCII characters [sanitize] does not depend on the
    Unicode tables: every capital letter gives its small letter, every
    small letter and digit itself, every other character nothing; so the
    key is never longer than the name. *)
Theorem sanitize_ascii (s : str) :
  Forall (fun c => c < 128) s →
  sanitize s = s ≫= ascii_key ∧ (length (sanitize s) <= length s)%nat.
Proof.
  intros Hs. rewrite sanitize_charwise.
  induction Hs as [|c t Hc _ [IH1 IH2]]; [done|].
  rewrite !bind_cons, (kept_ascii c Hc), IH1. split; [done|].
  rewrite length_app, <- IH1. pose proof (length_ascii_key c). simpl. lia.
Qed.

End SanitizeMore.

(** *** Newlines *)

Lemma list_ind_two {A : Type} (P : list A → Prop) :
  P [] → (∀ c, P [c]) → (∀ c c' t, P t → P (c' :: t) → P (c :: c' :: t)) →
  ∀ l, P l.
Proof.
  intros Hnil Hone Htwo l.
  enough (P l ∧ ∀ c, P (c :: l)) as [? _] by done.
  induction l as [|c' t [IH1 IH2]]; [by split|].
  split; [apply IH2|]. intros c. by apply Htwo.
Qed.

Lemma translate_newlines_crlf (t : str) :
  translate_newlines (13 :: 10 :: t) = 10 :: translate_newlines t.
Proof. reflexivity. Qed.

Lemma translate_newlines_cr (t : str) :
  head t ≠ Some 10 → translate_newlines (13 :: t) = 10 :: translate_newlines t.
Proof.
  intros Ht. cbn [translate_newlines]. change (13 =? 13) with true. cbn match.
  destruct t as [|c' t']; [done|].
  replace (c' =? 10) with false; [done|]. cbn [head] in Ht.
  symmetry. apply N.eqb_neq. congruence.
Qed.

Lemma translate_newlines_other (c : char) (t : str) :
  c ≠ 13 → translate_newlines (c :: t) = c :: translate_newlines t.
Proof.
  intros Hc. cbn [translate_newlines]. by replace (c =? 13) with false by lia.
Qed.

(** Translation distributes over a cut that does not separate CR from LF. *)
Lemma translate_newlines_app (a b : str) :
  last a ≠ Some 13 ∨ head b ≠ Some 10 →
  translate_newlines (a ++ b) = translate_newlines a ++ translate_newlines b.
Proof.
  revert a. apply (list_ind_two (fun a => _ → _)).
  - done.
  - intros c H. cbn [app]. destruct (decide (c = 13)) as [->|Hc].
    + destruct H as [H|H]; [done|]. by rewrite (translate_newlines_cr b H).
    + by rewrite !(translate_newlines_other c) by done.
  - intros c c' t IH1 IH2 H. rewrite last_cons_cons in H.
    destruct (decide (c = 13)) as [->|Hc].
    + destruct (decide (c' = 10)) as [->|Hc'].
      * cbn [app]. rewrite !translate_newlines_crlf. cbn [app]. f_equal.
        apply IH1. destruct t; [by left|]. by rewrite last_cons_cons in H.
      * change ((13 :: c' :: t) ++ b) with (13 :: (c' :: t) ++ b).
        rewrite !translate_newlines_cr by (cbn; congruence).
        cbn [app]. f_equal. by apply IH2.
    + change ((c :: c' :: t) ++ b) with (c :: (c' :: t) ++ b).
      rewrite !(translate_newlines_other c) by done.
      cbn [app]. f_equal. by apply IH2.
Qed.

Lemma translate_newlines_no_cr (s : str) :
  Forall (fun c => c ≠ 13) (translate_newlines s).
Proof.
  revert s. apply list_ind_two.
  - constructor.
  - intros c. destruct (decide (c = 13)) as [->|Hc]; [by repeat constructor|].
    rewrite translate_newlines_other by done. by repeat constructor.
  - intros c c' t IH1 IH2. destruct (decide (c = 13)) as [->|Hc].
    + destruct (decide (c' = 10)) as [->|Hc'].
      * rewrite translate_newlines_crlf. by constructor.
      * rewrite translate_newlines_cr by (cbn; congruence). by constructor.
    + rewrite translate_newlines_other by done. by constructor.
Qed.

Lemma translate_newlines_id (s : str) :
  Forall (fun c => c ≠ 13) s → translate_newlines s = s.
Proof.
  induction 1 as [|c t Hc _ IH]; [done|].
  by rewrite translate_newlines_other, IH.
Qed.

Lemma translate_newlines_snoc_lf (a : str) :
  ∃ t, translate_newlines (a ++ [10]) = t ++ [10].
Proof.
  destruct (decide (last a = Some 13)) as [Hcr|Hcr].
  - apply last_Some in Hcr as [a' ->]. rewrite <- app_assoc. cbn [app].
    rewrite translate_newlines_app by (right; cbn; congruence).
    by exists (translate_newlines a').
  - rewrite translate_newlines_app by by left.
    by exists (translate_newlines a).
Qed.

(** *** The lines of a text *)

Lemma split_lines_app (cur t1 t2 : str) :
  last t1 = Some 10 →
  split_lines cur (t1 ++ t2) = split_lines cur t1 ++ split_lines [] t2.
Proof.
  revert cur. induction t1 as [|c t IH]; intros cur Hlast; [done|].
  cbn [app split_lines]. destruct (c =? 10) eqn:Hc.
  - destruct t as [|c' t']; [done|].
    cbn [app]. f_equal. apply IH. by rewrite last_cons_cons in Hlast.
  - destruct t as [|c' t']; [by simplify_eq/=|].
    apply IH. by rewrite last_cons_cons in Hlast.
Qed.

(** A text cut after a newline is read as the lines of the first part
    followed by the lines of the second. *)
Lemma file_lines_app (a b : str) :
  a = [] ∨ last a = Some 10 →
  file_lines (a ++ b) = file_lines a ++ file_lines b.
Proof.
  intros [->|Hlast]; [done|]. unfold file_lines.
  rewrite translate_newlines_app by (left; congruence).
  apply split_lines_app.
  apply last_Some in Hlast as [a' ->].
  destruct (translate_newlines_snoc_lf a') as [t ->]. apply last_snoc.
Qed.

(** A line ends at the first newline. *)
Lemma split_lines_line (cur a b : str) :
  10 ∉ a → split_lines cur (a ++ 10 :: b) = (cur ++ a ++ [10]) :: split_lines [] b.
Proof.
  revert cur. induction a as [|c t IH]; intros cur Ha.
  - cbn. done.
  - apply not_elem_of_cons in Ha as [Hc Ht]. cbn [app split_lines].
    replace (c =? 10) with false by lia. rewrite IH by done.
    by rewrite <- !app_assoc.
Qed.

Lemma split_lines_last (cur a : str) :
  10 ∉ a → split_lines cur a = match cur ++ a with [] => [] | l => [l] end.
Proof.
  revert cur. induction a as [|c t IH]; intros cur Ha.
  - cbn. rewrite app_nil_r. by destruct cur.
  - apply not_elem_of_cons in Ha as [Hc Ht]. cbn [split_lines].
    replace (c =? 10) with false by lia. rewrite IH by done.
    by rewrite <- app_assoc.
Qed.

(** The characters of the lines are characters of the text. *)
Lemma split_lines_elem (cur s line : str) (c : char) :
  line ∈ split_lines cur s → c ∈ line → c ∈ cur ++ s.
Proof.
  revert cur. induction s as [|c0 t IH]; intros cur Hline Hc.
  - cbn in Hline. rewrite app_nil_r. destruct cur; [by apply elem_of_nil in Hline|].
    by apply list_elem_of_singleton in Hline as ->.
  - cbn [split_lines] in Hline. destruct (c0 =? 10).
    + apply elem_of_cons in Hline as [->|Hline].
      * rewrite elem_of_app in Hc. rewrite elem_of_app, elem_of_cons.
        destruct Hc as [?|Hc%list_elem_of_singleton]; subst; auto.
      * specialize (IH [] Hline Hc). rewrite elem_of_app, elem_of_cons. auto.
    + specialize (IH _ Hline Hc). by rewrite <- app_assoc in IH.
Qed.

Lemma translate_newlines_elem (s : str) (c : char) :
  c ∈ translate_newlines s → c = 10 ∨ c ∈ s.
Proof.
  revert s. apply (list_ind_two (fun s => _ → _)).
  - intros H. by apply elem_of_nil in H.
  - intros c0. destruct (decide (c0 = 13)) as [->|Hc].
    + intros H. left. cbn in H. by apply list_elem_of_singleton in H.
    + rewrite translate_newlines_other by done. by right.
  - intros c0 c' t IH1 IH2. destruct (decide (c0 = 13)) as [->|Hc].
    + destruct (decide (c' = 10)) as [->|Hc'].
      * rewrite translate_newlines_crlf. intros [->|H]%elem_of_cons; [by left|].
        destruct (IH1 H); [by left|]. right. by do 2 right.
      * rewrite translate_newlines_cr by (cbn; congruence).
        intros [->|H]%elem_of_cons; [by left|].
        destruct (IH2 H); [by left|]. right. by right.
    + rewrite translate_newlines_other by done.
      intros [->|H]%elem_of_cons; [right; by left|].
      destruct (IH2 H); [by left|]. right. by right.
Qed.

Lemma split_lines_nil (cur s : str) : split_lines cur s = [] → cur = [] ∧ s = [].
Proof.
  revert cur. induction s as [|c t IH]; intros cur; cbn [split_lines].
  - by destruct cur.
  - destruct (c =? 10); [done|]. intros H. apply IH in H as [H _].
    by destruct cur.
Qed.

(** Every text is a part that is empty or ends with a newline, followed by
    a last line without newline. *)
Lemma last_line (t : str) :
  ∃ p l, t = p ++ l ∧ (p = [] ∨ last p = Some 10) ∧ 10 ∉ l.
Proof.
  induction t as [|x t' (p & l & -> & Hp & Hl)] using rev_ind.
  - exists [], []. split; [done|]. split; [by left|]. apply not_elem_of_nil.
  - destruct (decide (x = 10)) as [->|Hx].
    + exists ((p ++ l) ++ [10]), []. rewrite app_nil_r. split; [done|].
      split; [right; apply last_snoc|apply not_elem_of_nil].
    + exists p, (l ++ [x]). rewrite app_assoc. split; [done|]. split; [done|].
      rewrite elem_of_app, list_elem_of_singleton. intros [?|?]; [done|congruence].
Qed.

(** *** Trimming *)

Lemma lstrip_spaces_app (p s : str) :
  Forall (fun c => is_space c = true) p → lstrip (p ++ s) = lstrip s.
Proof. induction 1 as [|c t Hc _ IH]; [done|]. cbn. by rewrite Hc. Qed.

Lemma lstrip_head (s : str) (c : char) :
  head (lstrip s) = Some c → is_space c = false.
Proof.
  induction s as [|c0 t IH]; [done|]. cbn [lstrip].
  destruct (is_space c0) eqn:Hc0; [done|]. cbn. congruence.
Qed.

Lemma lstrip_keep (s : str) :
  (∀ c, head s = Some c → is_space c = false) → lstrip s = s.
Proof. destruct s as [|c t]; [done|]. intros H. cbn. by rewrite (H c). Qed.

Lemma rstrip_snoc_space (s : str) (c : char) :
  is_space c = true → rstrip (s ++ [c]) = rstrip s.
Proof. intros Hc. unfold rstrip. rewrite reverse_snoc. cbn. by rewrite Hc. Qed.

Lemma strip_snoc_space (s : str) (c : char) :
  is_space c = true → strip (s ++ [c]) = strip s.
Proof.
  intros Hc. unfold strip.
  destruct (lstrip_prefix s) as (p & Hp & Hsp).
  destruct (lstrip s) as [|d r] eqn:Hl.
  - rewrite app_nil_r in Hp. subst p.
    rewrite (lstrip_spaces_app s [c] Hsp). cbn. by rewrite Hc.
  - rewrite Hp at 1. rewrite <- app_assoc, (lstrip_spaces_app p _ Hsp).
    rewrite lstrip_keep.
    + by apply rstrip_snoc_space.
    + intros c0 [= <-]. apply (lstrip_head s). by rewrite Hl.
Qed.

Lemma rstrip_last (s : str) (c : char) :
  last (rstrip s) = Some c → is_space c = false.
Proof. unfold rstrip. rewrite last_reverse. apply lstrip_head. Qed.

(** A trimmed text neither starts nor ends with whitespace. *)
Lemma strip_trimmed (s : str) (c : char) :
  head (strip s) = Some c ∨ last (strip s) = Some c → is_space c = false.
Proof.
  unfold strip. intros [Hh|Hl]; [|by apply (rstrip_last (lstrip s))].
  destruct (rstrip_suffix (lstrip s)) as (q & Hq & _).
  apply (lstrip_head s). rewrite Hq.
  destruct (rstrip (lstrip s)); [done|]. done.
Qed.

Lemma strip_elem (s : str) (c : char) : c ∈ strip s → c ∈ s.
Proof.
  unfold strip. intros Hc.
  destruct (lstrip_prefix s) as (p & Hp & _).
  destruct (rstrip_suffix (lstrip s)) as (q & Hq & _).
  rewrite Hp, Hq, !elem_of_app. auto.
Qed.

(** *** The two fields of a line *)

Lemma before_first_app (sep : char) (a b : str) :
  sep ∉ a → before_first sep (a ++ sep :: b) = a.
Proof.
  induction a as [|c t IH]; intros Ha; cbn.
  - by rewrite N.eqb_refl.
  - apply not_elem_of_cons in Ha as [Hc Ht].
    replace (c =? sep) with false by lia. by rewrite IH.
Qed.

Lemma after_first_app (sep : char) (a b : str) :
  sep ∉ a → after_first sep (a ++ sep :: b) = b.
Proof.
  induction a as [|c t IH]; intros Ha; cbn.
  - by rewrite N.eqb_refl.
  - apply not_elem_of_cons in Ha as [Hc Ht].
    replace (c =? sep) with false by lia. by rewrite IH.
Qed.

Lemma fields_of_line (sep : char) (s : str) :
  sep ∈ s →
  s = before_first sep s ++ sep :: after_first sep s ∧ sep ∉ before_first sep s.
Proof.
  induction s as [|c t IH]; intros Hs; [by apply elem_of_nil in Hs|]. cbn.
  destruct (N.eqb_spec c sep) as [->|Hc].
  - split; [done|apply not_elem_of_nil].
  - apply elem_of_cons in Hs as [?|Hs]; [congruence|].
    destruct (IH Hs) as [Heq Hnin]. split; [cbn [app]; by f_equal|].
    rewrite not_elem_of_cons. split; [congruence|done].
Qed.

Lemma after_first_elem (sep : char) (s : str) (c : char) :
  c ∈ after_first sep s → c ∈ s.
Proof.
  induction s as [|c0 t IH]; [done|]. cbn. destruct (c0 =? sep).
  - by right.
  - intros H. right. by apply IH.
Qed.

Lemma before_first_app_l (sep : char) (l x : str) :
  sep ∈ l → before_first sep (l ++ x) = before_first sep l.
Proof.
  induction l as [|c t IH]; intros Hl; [by apply elem_of_nil in Hl|]. cbn.
  destruct (N.eqb_spec c sep) as [->|Hc]; [done|].
  apply elem_of_cons in Hl as [?|Hl]; [congruence|]. by rewrite IH.
Qed.

Lemma after_first_app_l (sep : char) (l x : str) :
  sep ∈ l → after_first sep (l ++ x) = after_first sep l ++ x.
Proof.
  induction l as [|c t IH]; intros Hl; [by apply elem_of_nil in Hl|]. cbn.
  destruct (N.eqb_spec c sep) as [->|Hc]; [done|].
  apply elem_of_cons in Hl as [?|Hl]; [congruence|]. by rewrite IH.
Qed.

(** A line is a text without newline, followed by a newline unless the text
    ends with it. *)
Lemma split_lines_shape (cur s line : str) :
  10 ∉ cur → line ∈ split_lines cur s →
  ∃ body, (10 ∉ body) ∧ (line = body ++ [10] ∨ line = body).
Proof.
  revert cur. induction s as [|c t IH]; intros cur Hcur Hline.
  - cbn in Hline. destruct cur; [by apply elem_of_nil in Hline|].
    apply list_elem_of_singleton in Hline as ->. eauto.
  - cbn [split_lines] in Hline. destruct (N.eqb_spec c 10) as [->|Hc].
    + apply elem_of_cons in Hline as [->|Hline]; [eauto|].
      apply (IH []); [apply not_elem_of_nil|done].
    + apply (IH (cur ++ [c])); [|done].
      rewrite elem_of_app, list_elem_of_singleton. intros [?|?]; [done|congruence].
Qed.

Lemma translate_with_newlines (nl s : str) :
  nl = [13; 10] ∨ nl = [13] →
  Forall (fun c => c ≠ 13) s →
  translate_newlines (with_newlines nl s) = s.
Proof.
  intros Hnl. unfold with_newlines. induction 1 as [|c t Hc _ IH]; [done|].
  rewrite bind_cons. destruct (N.eqb_spec c 10) as [->|Hc10].
  - destruct Hnl as [-> | ->]; cbn [app].
    + by rewrite translate_newlines_crlf, IH.
    + rewrite translate_newlines_cr, IH; [done|].
      destruct t as [|c' t']; [done|]. rewrite bind_cons.
      destruct (c' =? 10) eqn:Hc'; cbn; [done|]. intros [= ->]. done.
  - cbn [app]. by rewrite translate_newlines_other, IH.
Qed.

Section FetchMore.
Context {UD : UnicodeData}.

Lemma fetch_loop_app (sn name : str) (l1 l2 : list str)
    (d : gmap (list N) (list (list N))) :
  fetch_loop sn name (l1 ++ l2) d = fetch_loop sn name l1 d ≫= fetch_loop sn name l2.
Proof.
  revert d. induction l1 as [|line rest IH]; intros d; [done|].
  cbn [app fetch_loop].
  destruct (unpack2 (split_once dot line)) as [[restaurant review]|e]; [|done].
  bind_ok. case_decide; [|apply IH].
  destruct (getitem d name) as [reviews|e]; [|done]. bind_ok. apply IH.
Qed.

(** The loop on any lines, from the dictionary the function starts it with. *)
Lemma fetch_loop_total (name : str) (lines : list str) (acc : list str) :
  fetch_loop (sanitize name) name lines {[ name := acc ]}
  = if decide (Forall (fun line => dot ∈ line) lines)
    then Ok {[ name := acc ++ matching_reviews name lines ]}
    else Raise ValueError.
Proof.
  case_decide as Hlines.
  - by apply fetch_loop_ok.
  - apply fetch_loop_malformed. apply not_Forall_Exists in Hlines; [|apply _].
    eapply Exists_impl; [exact Hlines|]. by intros line.
Qed.

Lemma fetch_store (store name : str) :
  fetch_restaurant_data (store_fs store) name
  = if decide (Forall (fun line => dot ∈ line) (file_lines store))
    then Ok {[ name := matching_reviews name (file_lines store) ]}
    else Raise ValueError.
Proof.
  unfold fetch_restaurant_data, open_read, store_fs.
  rewrite lookup_singleton_eq. bind_ok.
  by rewrite (fetch_loop_total name _ []).
Qed.

Lemma matching_reviews_app (name : str) (l1 l2 : list str) :
  matching_reviews name (l1 ++ l2) = matching_reviews name l1 ++ matching_reviews name l2.
Proof. unfold matching_reviews. by rewrite filter_app, fmap_app. Qed.

Lemma singleton_reviews_inj (name : str) (r1 r2 : list str) :
  ({[ name := r1 ]} : gmap (list N) (list (list N))) = {[ name := r2 ]} → r1 = r2.
Proof.
  intros H. assert (Hl : ({[ name := r1 ]} : gmap (list N) (list (list N))) !! name = Some r2)
    by (rewrite H; apply lookup_singleton_eq).
  rewrite lookup_singleton_eq in Hl. congruence.
Qed.

Lemma Ok_inj {A : Type} (a b : A) : Ok a = Ok b → a = b.
Proof. by intros [= ->]. Qed.

(** X3.  The outcomes of [fetch_restaurant_data], for a store file that is
    absent or readable text: it fails with [FileNotFoundError] exactly when
    the file is absent; its only other failure is the [ValueError] of the
    unpacking, so that [restaurant_data[restaurant_name]] never raises
    [KeyError]; and a mapping it returns has the query name as its only
    key. *)
Theorem fetch_outcomes (fs : gmap (list N) (list N)) (name : str) :
  (fetch_restaurant_data fs name = Raise FileNotFoundError ↔ fs !! store_path = None)
  ∧ (∀ e, fetch_restaurant_data fs name = Raise e → e = FileNotFoundError ∨ e = ValueError)
  ∧ (∀ d, fetch_restaurant_data fs name = Ok d → dom d = {[ name ]}).
Proof.
  unfold fetch_restaurant_data, open_read.
  destruct (fs !! store_path) as [store|]; bind_ok.
  - rewrite (fetch_loop_total name _ []). case_decide.
    + split; [done|]. split; [done|]. intros d <-%Ok_inj. apply dom_singleton_L.
    + split; [done|]. split; [|done]. intros e [= <-]. by right.
  - split; [done|]. split; [|done]. intros e [= <-]. by left.
Qed.

(** X4.  Every review returned is trimmed and is a single line: it neither
    starts nor ends with a whitespace character and contains neither a line
    feed nor a carriage return. *)
Theorem fetch_reviews_trimmed (fs : gmap (list N) (list N)) (name : str)
    (reviews : list str) :
  fetch_restaurant_data fs name = Ok {[ name := reviews ]} →
  Forall (fun review =>
            (∀ c, head review = Some c ∨ last review = Some c → is_space c = false)
            ∧ (10 ∉ review) ∧ (13 ∉ review)) reviews.
Proof.
  unfold fetch_restaurant_data, open_read.
  destruct (fs !! store_path) as [store|]; bind_ok; [|done].
  rewrite (fetch_loop_total name _ []). case_decide as Hdots; [|done].
  intros H%Ok_inj%singleton_reviews_inj. subst reviews.
  apply Forall_forall. intros review Hr.
  unfold matching_reviews in Hr.
  apply list_elem_of_fmap in Hr as (line & -> & Hline).
  apply list_elem_of_filter in Hline as [_ Hline].
  split; [apply strip_trimmed|].
  rewrite Forall_forall in Hdots. specialize (Hdots line Hline).
  destruct (fields_of_line dot line Hdots) as [Hfields Hbefore].
  pose proof (translate_newlines_no_cr store) as Hcr.
  rewrite Forall_forall in Hcr.
  assert (H13 : 13 ∉ line).
  { intros H. apply (Hcr 13); [|done].
    by apply (split_lines_elem [] (translate_newlines store) line 13 Hline). }
  split.
  - (* the newline ends the line and is trimmed off *)
    destruct (split_lines_shape [] _ line (not_elem_of_nil 10) Hline)
      as (body & Hbody & [-> | ->]).
    + assert (Hdot : dot ∈ body).
      { apply elem_of_app in Hdots as [?|Hd]; [done|].
        by apply list_elem_of_singleton in Hd. }
      rewrite (after_first_app_l dot body [10] Hdot), strip_snoc_space by done.
      by intros H%strip_elem%after_first_elem.
    + by intros H%strip_elem%after_first_elem.
  - intros H%strip_elem%after_first_elem. done.
Qed.

(** X5.  A store cut after a newline is looked up part by part: the
    lookup in [s1 ++ s2] returns a list of reviews exactly when the lookups
    in [s1] and in [s2] both return one, and the list is then the reviews of
    [s1] followed by those of [s2]. *)
Theorem fetch_store_app (s1 s2 name : str) (reviews : list str) :
  s1 = [] ∨ last s1 = Some 10 →
  fetch_restaurant_data (store_fs (s1 ++ s2)) name = Ok {[ name := reviews ]}
  ↔ ∃ r1 r2,
      reviews = r1 ++ r2
      ∧ fetch_restaurant_data (store_fs s1) name = Ok {[ name := r1 ]}
      ∧ fetch_restaurant_data (store_fs s2) name = Ok {[ name := r2 ]}.
Proof.
  intros Hs1. rewrite !fetch_store, (file_lines_app s1 s2 Hs1). split.
  - case_decide as Hdots; [|done].
    apply Forall_app in Hdots as [H1 H2].
    intros H%Ok_inj%singleton_reviews_inj. subst reviews.
    exists (matching_reviews name (file_lines s1)), (matching_reviews name (file_lines s2)).
    rewrite !decide_True by done. by rewrite matching_reviews_app.
  - intros (r1 & r2 & -> & H1 & H2).
    case_decide as Hd1; [|done]. case_decide as Hd2; [|done].
    apply Ok_inj, singleton_reviews_inj in H1, H2. subst r1 r2.
    rewrite decide_True by by apply Forall_app.
    by rewrite matching_reviews_app.
Qed.

Lemma file_lines_record (record : str) :
  Forall (fun c => c ≠ 10 ∧ c ≠ 13) record →
  file_lines (record ++ [10]) = [record ++ [10]].
Proof.
  intros Hrec. unfold file_lines.
  rewrite translate_newlines_id.
  - rewrite (split_lines_line [] record []); [done|].
    intros H. rewrite Forall_forall in Hrec. by destruct (Hrec 10 H).
  - apply Forall_app. split; [|by repeat constructor].
    eapply Forall_impl; [exact Hrec|]. by intros c [_ ?].
Qed.

Lemma sanitize_dot_free : kept dot = [].
Proof. by rewrite kept_ascii. Qed.

(** What a record appended to a store adds to the answer of a query. *)
Lemma fetch_append_record (store field review q : str) (reviews : list str) :
  store = [] ∨ last store = Some 10 →
  dot ∉ field →
  Forall (fun c => c ≠ 10 ∧ c ≠ 13) (field ++ review) →
  fetch_restaurant_data (store_fs store) q = Ok {[ q := reviews ]} →
  fetch_restaurant_data (store_fs (store ++ field ++ [dot] ++ review ++ [10])) q
  = Ok {[ q := reviews ++
                if decide (sanitize field = sanitize q) then [strip review] else [] ]}.
Proof.
  intros Hstore Hfield Hnl Hq.
  rewrite fetch_store in Hq. case_decide as Hdots; [|done].
  apply Ok_inj, singleton_reviews_inj in Hq. subst reviews.
  rewrite fetch_store, (file_lines_app store _ Hstore).
  replace (field ++ [dot] ++ review ++ [10]) with ((field ++ dot :: review) ++ [10])
    by (by rewrite <- !app_assoc).
  rewrite file_lines_record.
  - rewrite decide_True.
    + rewrite matching_reviews_app, matching_reviews_cons, <- app_assoc. cbn [app].
      rewrite (before_first_app dot field _ Hfield), (after_first_app dot field _ Hfield).
      rewrite strip_snoc_space by done. by rewrite app_nil_r.
    + apply Forall_app. split; [done|].
      repeat constructor. rewrite !elem_of_app, elem_of_cons. auto.
  - apply Forall_app in Hnl as [H1 H2]. apply Forall_app. split; [done|].
    constructor; [done|done].
Qed.

(** X6.  Appending the record [name. review] to a store that is empty or
    ends with a newline, for a name without [.] and without line breaks in
    name and review: a query with the canonical key of [name] gets the
    trimmed review after the reviews it had, in last position, and every
    other query gets what it had. *)
Theorem fetch_appended_record (store name review q : str) (reviews : list str) :
  store = [] ∨ last store = Some 10 →
  dot ∉ name →
  Forall (fun c => c ≠ 10 ∧ c ≠ 13) (name ++ review) →
  fetch_restaurant_data (store_fs store) q = Ok {[ q := reviews ]} →
  fetch_restaurant_data (store_fs (store ++ name ++ [dot] ++ review ++ [10])) q
  = Ok {[ q := if decide (sanitize q = sanitize name)
               then reviews ++ [strip review] else reviews ]}.
Proof.
  intros Hstore Hname Hnl Hq.
  rewrite (fetch_append_record store name review q reviews) by done.
  case_decide as H1; case_decide as H2; try congruence.
  by rewrite app_nil_r.
Qed.

(** X7.  A restaurant whose name contains a [.] followed by a letter or a
    digit is not found under its own name: the record [name. review]
    appended to a store adds nothing to the lookup of [name], since the name
    field of the line ends at the first [.]. *)
Theorem fetch_name_with_period (store name review : str) (reviews : list str) :
  store = [] ∨ last store = Some 10 →
  dot ∈ name →
  sanitize (after_first dot name) ≠ [] →
  Forall (fun c => c ≠ 10 ∧ c ≠ 13) (name ++ review) →
  fetch_restaurant_data (store_fs store) name = Ok {[ name := reviews ]} →
  fetch_restaurant_data (store_fs (store ++ name ++ [dot] ++ review ++ [10])) name
  = Ok {[ name := reviews ]}.
Proof.
  intros Hstore Hdot Hafter Hnl Hq.
  destruct (fields_of_line dot name Hdot) as [Hname Hbefore].
  set (field := before_first dot name) in *.
  set (rest := after_first dot name) in *.
  replace (name ++ [dot] ++ review ++ [10])
    with (field ++ [dot] ++ (rest ++ dot :: review) ++ [10]).
  2:{ rewrite Hname. by rewrite <- !app_assoc. }
  rewrite (fetch_append_record store field _ name reviews); [|done|done| |done].
  - rewrite decide_False; [by rewrite app_nil_r|].
    intros Hkey. apply Hafter.
    rewrite Hname in Hkey.
    rewrite !sanitize_charwise, bind_app, bind_cons, sanitize_dot_free in Hkey.
    cbn [app] in Hkey. rewrite sanitize_charwise.
    apply (f_equal length) in Hkey. rewrite length_app in Hkey.
    apply length_zero_iff_nil. lia.
  - rewrite Hname in Hnl.
    rewrite !Forall_app, Forall_cons in Hnl. rewrite !Forall_app, Forall_cons. tauto.
Qed.

Lemma fetch_unfold (store name : str) :
  fetch_restaurant_data (store_fs store) name
  = fetch_loop (sanitize name) name (file_lines store) {[ name := [] ]}.
Proof.
  unfold fetch_restaurant_data, open_read, store_fs.
  by rewrite lookup_singleton_eq.
Qed.

(** The newline that ends a line does not count. *)
Lemma fetch_loop_line_newline (sn name line : str)
    (d : gmap (list N) (list (list N))) :
  fetch_loop sn name [line ++ [10]] d = fetch_loop sn name [line] d.
Proof.
  cbn [fetch_loop]. destruct (decide (dot ∈ line)) as [Hdot|Hdot].
  - rewrite (split_once_found dot (line ++ [10])) by (rewrite elem_of_app; auto).
    rewrite (split_once_found dot line Hdot). cbn [unpack2]. bind_ok.
    rewrite (before_first_app_l dot line [10] Hdot), (after_first_app_l dot line [10] Hdot).
    by rewrite strip_snoc_space.
  - rewrite (split_once_missing dot (line ++ [10])).
    + by rewrite (split_once_missing dot line Hdot).
    + rewrite elem_of_app, list_elem_of_singleton. by intros [?|?].
Qed.

(** X8.  The newline at the end of the store is optional: a store that
    does not end with a line feed gives every lookup the same result, or the
    same failure, with a line feed appended. *)
Theorem fetch_final_newline (store name : str) (c : char) :
  last store = Some c → c ≠ 10 →
  fetch_restaurant_data (store_fs (store ++ [10])) name
  = fetch_restaurant_data (store_fs store) name.
Proof.
  intros Hlast Hc. rewrite !fetch_unfold.
  apply last_Some in Hlast as [a ->].
  destruct (decide (c = 13)) as [->|Hcr].
  - unfold file_lines. rewrite <- app_assoc. cbn [app].
    by rewrite !(translate_newlines_app a) by (right; cbn; congruence).
  - unfold file_lines.
    rewrite (translate_newlines_app (a ++ [c])) by (left; rewrite last_snoc; congruence).
    rewrite (translate_newlines_app a [c]) by (right; cbn; congruence).
    rewrite (translate_newlines_other c []) by done.
    change (translate_newlines [10]) with [10]. change (translate_newlines []) with (@nil N).
    destruct (last_line (translate_newlines a ++ [c])) as (p & l & Heq & Hp & Hl).
    assert (Hne : l ≠ []).
    { intros ->. rewrite app_nil_r in Heq. subst p.
      destruct Hp as [Hp|Hp]; [by destruct (translate_newlines a)|].
      rewrite last_snoc in Hp. congruence. }
    rewrite Heq, <- app_assoc.
    assert (Hsplit : ∀ t, split_lines [] (p ++ t) = split_lines [] p ++ split_lines [] t).
    { intros t. destruct Hp as [->|Hp]; [done|]. by apply split_lines_app. }
    rewrite !Hsplit, !fetch_loop_app.
    destruct (fetch_loop (sanitize name) name (split_lines [] p) {[ name := [] ]})
      as [d|e]; [|done]. bind_ok.
    rewrite (split_lines_line [] l [] Hl), (split_lines_last [] l Hl). cbn [app split_lines].
    destruct l as [|c0 l0]; [done|]. apply fetch_loop_line_newline.
Qed.

(** X9.  The result of a lookup does not depend on how the lines of the
    store end: with every line feed written as carriage return and line feed,
    or as a lone carriage return, the lookup returns what it returns for the
    store written with line feeds. *)
Theorem fetch_any_newlines (nl store name : str) :
  nl = [13; 10] ∨ nl = [13] →
  Forall (fun c => c ≠ 13) store →
  fetch_restaurant_data (store_fs (with_newlines nl store)) name
  = fetch_restaurant_data (store_fs store) name.
Proof.
  intros Hnl Hstore. rewrite !fetch_unfold. unfold file_lines.
  by rewrite (translate_with_newlines nl store Hnl Hstore), (translate_newlines_id store).
Qed.

(** X10.  A line without [.] anywhere in the store makes every lookup
    fail with [ValueError]; with [l] empty, this is a blank line, also as
    the last line of the file. *)
Theorem fetch_line_without_period (a l b name : str) :
  a = [] ∨ last a = Some 10 →
  dot ∉ l →
  fetch_restaurant_data (store_fs (a ++ l ++ 10 :: b)) name = Raise ValueError.
Proof.
  intros Ha Hl. rewrite fetch_unfold.
  replace (a ++ l ++ 10 :: b) with (a ++ (l ++ [10]) ++ b) by (by rewrite <- !app_assoc).
  rewrite (file_lines_app a _ Ha).
  rewrite (file_lines_app (l ++ [10]) b) by (right; apply last_snoc).
  apply fetch_loop_malformed.
  apply Exists_app. right. apply Exists_app. left.
  destruct (file_lines (l ++ [10])) as [|line rest] eqn:Hlines.
  - unfold file_lines in Hlines. apply split_lines_nil in Hlines as [_ Hlines].
    destruct (translate_newlines_snoc_lf l) as [t Ht]. rewrite Ht in Hlines.
    by destruct t.
  - left. intros Hdot.
    assert (Hin : line ∈ file_lines (l ++ [10])) by (rewrite Hlines; by left).
    pose proof (split_lines_elem [] _ line dot Hin Hdot) as H.
    cbn [app] in H. apply translate_newlines_elem in H as [H|H]; [done|].
    rewrite elem_of_app, list_elem_of_singleton in H. by destruct H.
Qed.

End FetchMore.

Lemma sanitize_ascii_witness :
  @sanitize sample_unicode (py "Sub Way!") = py "Sub Way!" ≫= ascii_key
  ∧ (length (@sanitize sample_unicode (py "Sub Way!")) <= length (py "Sub Way!"))%nat.
Proof.
  apply (@sanitize_ascii sample_unicode (py "Sub Way!")).
  apply (bool_decide_unpack _). vm_compute. exact I.
Defined.

Lemma fetch_reviews_trimmed_witness :
  Forall (fun review =>
            (∀ c, head review = Some c ∨ last review = Some c → is_space c = false)
            ∧ (10 ∉ review) ∧ (13 ∉ review))
    [py "Great food, average service."].
Proof.
  apply (@fetch_reviews_trimmed sample_unicode subway_fs (py "subway")).
  vm_compute. reflexivity.
Defined.

Lemma fetch_store_app_witness :
  @fetch_restaurant_data sample_unicode
    (store_fs ((subway_store ++ [10]) ++ py "Sub Way. Awful."))
    (py "subway")
  = Ok {[ py "subway" := [py "Great food, average service."; py "Awful."] ]}
  ↔ ∃ r1 r2,
      [py "Great food, average service."; py "Awful."] = r1 ++ r2
      ∧ @fetch_restaurant_data sample_unicode (store_fs (subway_store ++ [10])) (py "subway")
        = Ok {[ py "subway" := r1 ]}
      ∧ @fetch_restaurant_data sample_unicode (store_fs (py "Sub Way. Awful.")) (py "subway")
        = Ok {[ py "subway" := r2 ]}.
Proof.
  apply (@fetch_store_app sample_unicode (subway_store ++ [10]) (py "Sub Way. Awful.")
           (py "subway")).
  right. vm_compute. reflexivity.
Defined.

Lemma fetch_appended_record_witness :
  @fetch_restaurant_data sample_unicode
    (store_fs ((subway_store ++ [10]) ++ py "Sub Way" ++ [dot] ++ py " Awful. " ++ [10]))
    (py "SUBWAY")
  = Ok {[ py "SUBWAY" :=
            if decide (@sanitize sample_unicode (py "SUBWAY")
                       = @sanitize sample_unicode (py "Sub Way"))
            then [py "Great food, average service."] ++ [strip (py " Awful. ")]
            else [py "Great food, average service."] ]}.
Proof.
  apply (@fetch_appended_record sample_unicode (subway_store ++ [10]) (py "Sub Way")
           (py " Awful. ") (py "SUBWAY") [py "Great food, average service."]).
  - right. vm_compute. reflexivity.
  - apply (bool_decide_unpack _). vm_compute. exact I.
  - apply (bool_decide_unpack _). vm_compute. exact I.
  - vm_compute. reflexivity.
Defined.

Lemma fetch_name_with_period_witness :
  @fetch_restaurant_data sample_unicode
    (store_fs ((subway_store ++ [10]) ++ py "St. Elmo" ++ [dot] ++ py " Good." ++ [10]))
    (py "St. Elmo")
  = Ok {[ py "St. Elmo" := [] ]}.
Proof.
  apply (@fetch_name_with_period sample_unicode (subway_store ++ [10]) (py "St. Elmo")
           (py " Good.") []).
  - right. vm_compute. reflexivity.
  - apply (bool_decide_unpack _). vm_compute. exact I.
  - vm_compute. discriminate.
  - apply (bool_decide_unpack _). vm_compute. exact I.
  - vm_compute. reflexivity.
Defined.

Lemma fetch_final_newline_witness :
  @fetch_restaurant_data sample_unicode (store_fs (subway_store ++ [10])) (py "subway")
  = @fetch_restaurant_data sample_unicode (store_fs subway_store) (py "subway").
Proof.
  apply (@fetch_final_newline sample_unicode subway_store (py "subway") 46).
  - vm_compute. reflexivity.
  - lia.
Defined.

Lemma fetch_any_newlines_witness :
  @fetch_restaurant_data sample_unicode
    (store_fs (with_newlines [13; 10] broken_store)) (py "subway")
  = @fetch_restaurant_data sample_unicode (store_fs broken_store) (py "subway").
Proof.
  apply (@fetch_any_newlines sample_unicode [13; 10] broken_store (py "subway")).
  - left. reflexivity.
  - apply (bool_decide_unpack _). vm_compute. exact I.
Defined.

Lemma fetch_line_without_period_witness :
  @fetch_restaurant_data sample_unicode
    (store_fs ((subway_store ++ [10]) ++ [] ++ 10 :: subway_store)) (py "subway")
  = Raise ValueError.
Proof.
  apply (@fetch_line_without_period sample_unicode (subway_store ++ [10]) []
           subway_store (py "subway")).
  - right. vm_compute. reflexivity.
  - apply (bool_decide_unpack _). vm_compute. exact I.
Defined.

(** ** Exceptions of [calculate_overall_score] *)

Local Close Scope N_scope.
Local Open Scope Z_scope.

(** A negative integer converts to a negative float or to minus infinity. *)
Lemma Z2F_negative (z : Z) :
  z < 0 → ∃ (m : positive) (e : Z),
    Z2F z = (if e <=? 971 then S754_finite true m e else S754_infinity true).
Proof.
  intros Hz. destruct z as [|p|p]; try lia.
  unfold Z2F, binary_normalize.
  pose proof (Zdigits2_pos (Z.pos p) ltac:(lia)).
  destruct (binary_round_normal true p 0) as (m & e & Hr & _); [lia|].
  by exists m, e.
Qed.

(** [math.sqrt] fails on a product outside the domain: with the overflow of
    the conversion when the product is too large, else with the domain
    error. *)
Lemma math_sqrt_fails (food service : Z) :
  ¬ pair_in_domain (food, service) →
  math_sqrt (food ^ 2 * service)
  = Raise (if is_infinity (Z2F (food ^ 2 * service)) then OverflowError
           else ValueError).
Proof.
  intros Hbad. unfold pair_in_domain in Hbad. cbn [fst snd] in Hbad.
  unfold math_sqrt, long_as_double.
  destruct (is_infinity (Z2F (food ^ 2 * service))) eqn:Hinf.
  - by destruct (Z2F (food ^ 2 * service)).
  - assert (Hneg : food ^ 2 * service < 0) by (apply Z.nle_gt; tauto).
    destruct (Z2F_negative _ Hneg) as (m & e & Hz). rewrite Hz in *.
    by destruct (e <=? 971).
Qed.

Lemma score_loop_bad (fs ss : list Z) (N : Z) (i : nat) (rest : list nat)
    (food service : Z) (acc : pynum) :
  fs !! i = Some food → ss !! i = Some service →
  ¬ pair_in_domain (food, service) →
  score_loop fs ss N (i :: rest) acc
  = Raise (if is_infinity (Z2F (food ^ 2 * service)) then OverflowError
           else ValueError).
Proof.
  intros Hf Hs Hbad. cbn [score_loop]. unfold getitem_list.
  rewrite Hf, Hs. bind_ok. by rewrite (math_sqrt_fails food service Hbad).
Qed.

(** The loop over a run of pairs in the domain goes through. *)
Lemma score_loop_good (fs ss : list Z) (N : Z) (seen good tail : list (Z * Z))
    (later : list nat) (acc : pynum) :
  zip fs ss = seen ++ good ++ tail → Forall pair_in_domain good → 0 < N < 2 ^ 63 →
  (acc = PyInt 0 ∨ ∃ a, acc = PyFloat a) →
  ∃ acc', (acc' = PyInt 0 ∨ ∃ a, acc' = PyFloat a)
    ∧ score_loop fs ss N (seq (length seen) (length good) ++ later) acc
      = score_loop fs ss N later acc'.
Proof.
  intros Hzip Hdom HN. revert seen acc Hzip.
  induction Hdom as [|[food service] good Hpair _ IH]; intros seen acc Hzip Hacc.
  - by exists acc.
  - cbn [app] in Hzip.
    destruct (zip_lookup_middle fs ss seen (good ++ tail) food service Hzip) as [Hf Hs].
    cbn [length seq app].
    rewrite (score_loop_step fs ss N _ _ food service acc Hf Hs Hpair HN Hacc).
    specialize (IH (seen ++ [(food, service)])).
    rewrite length_app, Nat.add_1_r in IH. apply IH.
    + by rewrite <- app_assoc.
    + right. eauto.
Qed.

Lemma first_outside {A : Type} (P : A → Prop) `{∀ x, Decision (P x)} (l : list A) :
  ¬ Forall P l → ∃ good x rest, l = good ++ x :: rest ∧ Forall P good ∧ ¬ P x.
Proof.
  induction l as [|x l IH]; intros Hl; [by destruct Hl|].
  destruct (decide (P x)) as [Hx|Hx].
  - destruct IH as (good & y & rest & -> & Hgood & Hy).
    + intros Hall. apply Hl. by constructor.
    + exists (x :: good), y, rest. split; [done|]. split; [by constructor|done].
  - exists [], x, l. split; [done|]. split; [constructor|done].
Qed.

Lemma calculate_overall_score_bad (name : list N) (fs ss : list Z)
    (good rest : list (Z * Z)) (food service : Z) :
  Z.of_nat (Nat.min (length fs) (length ss)) < 2 ^ 63 →
  zip fs ss = good ++ (food, service) :: rest →
  Forall pair_in_domain good →
  ¬ pair_in_domain (food, service) →
  calculate_overall_score name fs ss
  = Raise (if is_infinity (Z2F (food ^ 2 * service)) then OverflowError
           else ValueError).
Proof.
  intros HN Hzip Hgood Hbad. unfold calculate_overall_score.
  rewrite <- (length_zip_with pair fs ss) in *.
  change (zip_with pair fs ss) with (zip fs ss) in *.
  rewrite Hzip in *. rewrite length_app in *. cbn [length] in *.
  rewrite seq_app. cbn [seq]. rewrite Nat.add_0_l.
  destruct (score_loop_good fs ss
              (Z.of_nat (length good + S (length rest))) [] good ((food, service) :: rest)
              (length good :: seq (S (length good)) (length rest)) (PyInt 0))
    as (acc' & _ & Hloop); [done|done|lia|by left|].
  cbn [length] in Hloop. rewrite Hloop.
  destruct (zip_lookup_middle fs ss good rest food service Hzip) as [Hf Hs].
  by rewrite (score_loop_bad fs ss _ _ _ food service acc' Hf Hs Hbad).
Qed.

(** X11.  The outcomes of [calculate_overall_score] on lists of any
    integers (of a length below [2^63]): either every pair is in the domain
    and the rounded sum is returned, or the first pair outside the domain
    decides the exception, [OverflowError] when its product is too large
    for a float and [ValueError] when it is negative, whatever follows it.
    No division by zero and no index error can occur. *)
Theorem calculate_overall_score_outcomes (name : list N) (fs ss : list Z) :
  Z.of_nat (Nat.min (length fs) (length ss)) < 2 ^ 63 →
  (Forall pair_in_domain (zip fs ss)
   ∧ calculate_overall_score name fs ss = Ok {[ name := overall_score_formula fs ss ]})
  ∨ (∃ good food service rest,
       zip fs ss = good ++ (food, service) :: rest
       ∧ Forall pair_in_domain good
       ∧ ¬ pair_in_domain (food, service)
       ∧ calculate_overall_score name fs ss
         = Raise (if is_infinity (Z2F (food ^ 2 * service)) then OverflowError
                  else ValueError)).
Proof.
  intros HN. destruct (decide (Forall pair_in_domain (zip fs ss))) as [Hall|Hnot].
  - left. split; [done|]. by apply calculate_overall_score_ok.
  - right.
    destruct (first_outside pair_in_domain (zip fs ss) Hnot)
      as (good & [food service] & rest & Hzip & Hgood & Hbad).
    exists good, food, service, rest. do 3 (split; [done|]).
    by apply (calculate_overall_score_bad name fs ss good rest food service).
Qed.

Lemma calculate_overall_score_outcomes_witness :
  (Forall pair_in_domain (zip [5; 2; 3] [4; -1; 3])
   ∧ calculate_overall_score (py "X") [5; 2; 3] [4; -1; 3]
     = Ok {[ py "X" := overall_score_formula [5; 2; 3] [4; -1; 3] ]})
  ∨ (∃ good food service rest,
       zip [5; 2; 3] [4; -1; 3] = good ++ (food, service) :: rest
       ∧ Forall pair_in_domain good
       ∧ ¬ pair_in_domain (food, service)
       ∧ calculate_overall_score (py "X") [5; 2; 3] [4; -1; 3]
         = Raise (if is_infinity (Z2F (food ^ 2 * service)) then OverflowError
                  else ValueError)).
Proof.
  apply (calculate_overall_score_outcomes (py "X") [5; 2; 3] [4; -1; 3]).
  vm_compute. reflexivity.
Defined.

(** ** What the score depends on *)

(** The loop reads a pair only through its product. *)
Lemma score_loop_products (fs ss fs' ss' : list Z) (N : Z) (indices : list nat)
    (acc : pynum) :
  products fs ss = products fs' ss' →
  Forall (fun i => (i < length (products fs ss))%nat) indices →
  score_loop fs ss N indices acc = score_loop fs' ss' N indices acc.
Proof.
  intros Hprod Hin. revert acc.
  induction Hin as [|i rest Hi _ IH]; intros acc; [done|].
  apply lookup_lt_is_Some in Hi as [p Hp].
  assert (Hp' : products fs' ss' !! i = Some p) by (by rewrite <- Hprod).
  apply lookup_zip_with_Some in Hp as (food & service & -> & Hf & Hs).
  apply lookup_zip_with_Some in Hp' as (food' & service' & Heq & Hf' & Hs').
  cbn [score_loop]. unfold getitem_list. rewrite Hf, Hs, Hf', Hs'. bind_ok.
  rewrite Heq.
  destruct (math_sqrt (food' ^ 2 * service')) as [r|]; [|done]. bind_ok.
  destruct (math_sqrt 125) as [c|]; [|done]. bind_ok.
  destruct (int_mul_float N c) as [d|]; [|done]. bind_ok.
  destruct (int_div_float 1 d) as [w|]; [|done]. bind_ok.
  destruct (float_mul_int (fmul r w) 10) as [t|]; [|done]. bind_ok.
  destruct (num_add_float acc t) as [acc'|]; [|done]. bind_ok.
  apply IH.
Qed.

(** X14.  The score depends on a pair of scores only through the product
    [food^2 * service]: lists with the same products, pair by pair, get the
    same result or the same exception.  In particular the sign of a food
    score is ignored. *)
Theorem calculate_overall_score_products (name : list N)
    (food_scores service_scores food_scores' service_scores' : list Z) :
  products food_scores service_scores = products food_scores' service_scores' →
  calculate_overall_score name food_scores service_scores
  = calculate_overall_score name food_scores' service_scores'
  ∧ calculate_overall_score name (Z.opp <$> food_scores) service_scores
    = calculate_overall_score name food_scores service_scores.
Proof.
  assert (Hgen : ∀ fs ss fs' ss', products fs ss = products fs' ss' →
            calculate_overall_score name fs ss = calculate_overall_score name fs' ss').
  { intros fs ss fs' ss' Hprod. unfold calculate_overall_score.
    assert (Hlen : Nat.min (length fs) (length ss) = Nat.min (length fs') (length ss')).
    { rewrite <- !(length_zip_with (fun food service => food ^ 2 * service)).
      fold (products fs ss) (products fs' ss'). by rewrite Hprod. }
    rewrite <- Hlen.
    rewrite (score_loop_products fs ss fs' ss'); [done|done|].
    apply Forall_forall. intros i Hi. apply elem_of_seq in Hi.
    unfold products. rewrite length_zip_with. lia. }
  intros Hprod. split; [by apply Hgen|].
  apply Hgen. unfold products. clear.
  revert service_scores. induction food_scores as [|f fs IH]; intros [|s ss]; try done.
  cbn [fmap list_fmap zip_with]. f_equal; [lia|apply IH].
Qed.

Lemma calculate_overall_score_products_witness :
  calculate_overall_score (py "X") [2; -3] [4; 1] = calculate_overall_score (py "X") [4; 3; 5] [1; 1]
  ∧ calculate_overall_score (py "X") (Z.opp <$> [2; -3]) [4; 1]
    = calculate_overall_score (py "X") [2; -3] [4; 1].
Proof.
  apply (calculate_overall_score_products (py "X") [2; -3] [4; 1] [4; 3; 5] [1; 1]).
  vm_compute. reflexivity.
Defined.

(** ** The values of the score *)

Local Open Scope R_scope.

(** Both bounds of one contribution, on reals. *)
Lemma contribution_chain_near (N c rho vd vw vr vt : R) :
  1 <= N → 11 <= c <= 12 → 1 <= rho <= c →
  N * c * (1 - u52) <= vd <= N * c * (1 + u52) →
  1 / vd * (1 - 2 * u52) <= vw <= 1 / vd * (1 + u52) →
  rho * vw * (1 - u52) <= vr <= rho * vw * (1 + u52) →
  vr * 10 * (1 - u52) <= vt <= vr * 10 * (1 + u52) →
  10 * rho * (1 - 6 * u52) <= vt * (N * c) <= 10 * rho * (1 + 5 * u52).
Proof.
  intros HN Hc Hrho Hd Hw Hr Ht.
  pose proof u52_pos as Hu0. pose proof u52_val as Hu.
  assert (Hu1 : u52 <= / 1000) by (rewrite Hu; lra).
  assert (Hvd : 0 < vd) by nra.
  set (iv := 1 / vd) in *.
  assert (Hiv : iv * vd = 1) by (subst iv; field; lra).
  assert (Hiv0 : 0 < iv) by (subst iv; apply Rdiv_lt_0_compat; lra).
  assert (Hvw0 : 0 < vw) by nra.
  assert (Hvr0 : 0 < vr) by nra.
  assert (Hvt0 : 0 < vt) by nra.
  set (D := N * c) in *.
  assert (HD : 11 <= D) by (subst D; nra).
  split.
  - (* vt * vd >= 10 rho (1-u)^2 (1-2u), and vd <= D (1+u) *)
    assert (L1 : 1 - 2 * u52 <= vw * vd) by nra.
    assert (L2 : rho * (1 - 2 * u52) * (1 - u52) <= vr * vd).
    { assert (rho * (vw * vd) * (1 - u52) <= vr * vd) by nra. nra. }
    assert (L3 : 10 * (rho * (1 - 2 * u52) * (1 - u52)) * (1 - u52) <= vt * vd).
    { assert (vr * vd * 10 * (1 - u52) <= vt * vd) by nra. nra. }
    assert (L4 : vt * vd <= vt * D * (1 + u52)) by nra.
    assert (L5 : (1 - 6 * u52) * (1 + u52) <= (1 - 2 * u52) * (1 - u52) * (1 - u52)) by nra.
    assert (L6 : 10 * rho * ((1 - 6 * u52) * (1 + u52)) <= vt * D * (1 + u52)) by nra.
    apply (Rmult_le_reg_r (1 + u52)); [lra|].
    etransitivity; [|exact L6]. apply Req_le. ring.
  - assert (U1 : vw * vd <= 1 + u52) by nra.
    assert (U2 : vr * vd <= rho * (1 + u52) * (1 + u52)).
    { assert (vr * vd <= rho * (vw * vd) * (1 + u52)) by nra. nra. }
    assert (U3 : vt * vd <= 10 * (rho * (1 + u52) * (1 + u52)) * (1 + u52)).
    { assert (vt * vd <= vr * vd * 10 * (1 + u52)) by nra. nra. }
    assert (U4 : vt * D * (1 - u52) <= vt * vd) by nra.
    assert (U5 : (1 + u52) * (1 + u52) * (1 + u52) <= (1 + 5 * u52) * (1 - u52)) by nra.
    assert (U6 : vt * D * (1 - u52) <= 10 * rho * ((1 + 5 * u52) * (1 - u52))) by nra.
    apply (Rmult_le_reg_r (1 - u52)); [lra|].
    etransitivity; [exact U6|]. apply Req_le. ring.
Qed.

Lemma sqrt125_upper : val sqrt125 * 4 <= 45.
Proof.
  assert (H : fle sqrt125 (S754_finite false 45 (-2)) = true) by (vm_compute; reflexivity).
  apply fle_val in H. cbn [val] in H.
  change (-2)%Z with (- (2))%Z in H. rewrite (bpow_neg_val 2) in H by lia.
  change (IZR (2 ^ 2)) with 4 in H. lra.
Qed.

(** The contribution of a pair of scores among [n] pairs is, up to a
    relative error of [6 * u52], ten times its score_root over [n * sqrt(125)]. *)
Lemma contribution_near (n : Z) (pair : Z * Z) :
  (1 <= n <= 2 ^ 40)%Z → scores_1_5 pair →
  pos_float (contribution n pair.1 pair.2)
  ∧ 1 <= val (score_root pair) <= val sqrt125
  ∧ 10 * val (score_root pair) * (1 - 6 * u52)
    <= val (contribution n pair.1 pair.2) * (IZR n * val sqrt125)
    <= 10 * val (score_root pair) * (1 + 5 * u52).
Proof.
  intros Hn [Hf Hs]. destruct pair as [food service]. cbn [fst snd] in *.
  unfold contribution, score_root. cbn [fst snd]. fold sqrt125.
  pose proof (root_ok_scores food service Hf Hs) as Hroot. unfold root_ok in Hroot.
  apply andb_prop in Hroot as [Hroot Hr2]. apply andb_prop in Hroot as [Hr0 Hr1].
  apply is_pos_float_spec in Hr0. apply fle_val in Hr1, Hr2.
  set (rt := fsqrt (Z2F (food ^ 2 * service))) in *.
  destruct (Z2F_val 1 ltac:(lia)) as [Hpf1 Hv1]. rewrite Hv1 in Hr1.
  destruct (Z2F_val 10 ltac:(lia)) as [Hpf10 Hv10].
  destruct (Z2F_val n ltac:(lia)) as [Hpfn Hvn].
  destruct sqrt125_val as [Hpfc Hc].
  assert (HN : 1 <= IZR n <= 1099511627776).
  { split; [apply IZR_le; lia|]. change 1099511627776 with (IZR (2 ^ 40)). apply IZR_le. lia. }
  pose proof bpow_m400 as Hlo. pose proof bpow_400 as Hhi.
  pose proof (bpow_gt_0 (-400)) as Hlo0.
  pose proof u52_pos as Hu0. pose proof u52_val as Hu.
  assert (Hu1 : u52 <= / 1000) by (rewrite Hu; lra).
  set (N := IZR n) in *. set (c := val sqrt125) in *. set (rho := val rt) in *.
  destruct (fmul_val (Z2F n) sqrt125 Hpfn Hpfc) as [Hpfd Hd];
    [rewrite Hvn; lra|fold c; lra|].
  rewrite Hvn in Hd. fold N c in Hd.
  set (den := fmul (Z2F n) sqrt125) in *. set (vd := val den) in *.
  assert (Hvd : 5 <= vd <= 35184372088832) by nra.
  destruct (fdiv_val (Z2F 1) den Hpf1 Hpfd) as [Hpfw Hw];
    [rewrite Hv1; lra|fold vd; lra|].
  rewrite Hv1 in Hw. fold vd in Hw.
  set (w := fdiv (Z2F 1) den) in *. set (vw := val w) in *.
  assert (Hiv : / 35184372088832 <= 1 / vd <= / 5).
  { unfold Rdiv. rewrite Rmult_1_l. split; apply Rinv_le_contravar; lra. }
  assert (Hvw : / 70368744177664 <= vw <= 1) by nra.
  destruct (fmul_val rt w Hr0 Hpfw) as [Hpfr Hr]; [fold rho; lra|fold vw; lra|].
  fold rho vw in Hr.
  set (r1 := fmul rt w) in *. set (vr := val r1) in *.
  assert (Hvr : / 140737488355328 <= vr <= 13) by nra.
  destruct (fmul_val r1 (Z2F 10) Hpfr Hpf10) as [Hpft Ht]; [fold vr; lra|rewrite Hv10; lra|].
  rewrite Hv10 in Ht. fold vr in Ht.
  split; [done|]. split; [lra|].
  apply (contribution_chain_near N c rho vd vw vr); try done; lra.
Qed.

Lemma root_sum_cons (pair : Z * Z) (pairs : list (Z * Z)) :
  root_sum (pair :: pairs) = val (score_root pair) + root_sum pairs.
Proof. reflexivity. Qed.

(** One more term, from below: the relative errors of the additions add up
    to at most [k * u] after [k] terms. *)
Lemma sum_step_lower (A T S' Rk rho K u : R) :
  0 <= u <= / 1000 → 0 <= Rk → 0 <= rho → 0 <= K →
  10 * Rk * (1 - 6 * u) * (1 - K * u) <= A →
  10 * rho * (1 - 6 * u) <= T →
  (A + T) * (1 - u) <= S' →
  10 * (Rk + rho) * (1 - 6 * u) * (1 - (K + 1) * u) <= S'.
Proof.
  intros Hu HR Hrho HK HA HT HS.
  assert (H1 : 10 * (1 - 6 * u) * (Rk * (1 - K * u) + rho) * (1 - u) <= (A + T) * (1 - u)).
  { apply Rmult_le_compat_r; [lra|]. lra. }
  assert (H2 : (Rk + rho) * (1 - (K + 1) * u) <= (Rk * (1 - K * u) + rho) * (1 - u)).
  { assert (0 <= Rk * K * u * u) by (repeat apply Rmult_le_pos; lra).
    assert (0 <= rho * K * u) by (repeat apply Rmult_le_pos; lra). nra. }
  assert (H3 : 10 * (1 - 6 * u) * ((Rk + rho) * (1 - (K + 1) * u))
               <= 10 * (1 - 6 * u) * ((Rk * (1 - K * u) + rho) * (1 - u))).
  { apply Rmult_le_compat_l; [lra|done]. }
  lra.
Qed.

(** One more term, from above: each addition adds an absolute error of at
    most [eps]. *)
Lemma sum_step_upper (A T S' Rk rho K D u eps : R) :
  A <= 10 * Rk * (1 + 5 * u) + K * D * eps →
  T <= 10 * rho * (1 + 5 * u) →
  S' <= A + T + D * eps →
  S' <= 10 * (Rk + rho) * (1 + 5 * u) + (K + 1) * D * eps.
Proof. intros HA HT HS. nra. Qed.

Lemma pos_float_val (x : spec_float) : pos_float x → 0 < val x.
Proof.
  intros (m & e & -> & _). cbn [val].
  apply Rmult_lt_0_compat; [by apply IZR_lt|apply bpow_gt_0].
Qed.

(** The accumulated sum after [k] terms whose roots sum up to [Rk], times
    [n * sqrt(125)]: it is [10 * Rk] up to [k + 6] relative errors from
    below, and up to 5 relative and [k] absolute errors from above. *)
Lemma sum_contributions_near (n : Z) (pairs : list (Z * Z)) (a : spec_float)
    (k : Z) (Rk : R) :
  (1 <= n <= 2 ^ 40)%Z → Forall scores_1_5 pairs →
  (1 <= k)%Z → (k + Z.of_nat (length pairs) <= n)%Z →
  pos_float a →
  IZR k <= Rk <= IZR k * val sqrt125 →
  10 * Rk * (1 - 6 * u52) * (1 - IZR k * u52) <= val a * (IZR n * val sqrt125) →
  val a * (IZR n * val sqrt125)
    <= 10 * Rk * (1 + 5 * u52) + IZR k * (IZR n * val sqrt125) * bpow (-49) →
  pos_float (sum_contributions n pairs a)
  ∧ IZR (k + Z.of_nat (length pairs)) <= Rk + root_sum pairs
    <= IZR (k + Z.of_nat (length pairs)) * val sqrt125
  ∧ 10 * (Rk + root_sum pairs) * (1 - 6 * u52)
      * (1 - IZR (k + Z.of_nat (length pairs)) * u52)
    <= val (sum_contributions n pairs a) * (IZR n * val sqrt125)
  ∧ val (sum_contributions n pairs a) * (IZR n * val sqrt125)
    <= 10 * (Rk + root_sum pairs) * (1 + 5 * u52)
       + IZR (k + Z.of_nat (length pairs)) * (IZR n * val sqrt125) * bpow (-49).
Proof.
  intros Hn Hpairs. revert a k Rk.
  assert (HN : 1 <= IZR n <= 1099511627776).
  { split; [apply IZR_le; lia|]. change 1099511627776 with (IZR (2 ^ 40)). apply IZR_le. lia. }
  pose proof bpow_m400 as Hlo. pose proof bpow_400 as Hhi.
  pose proof (bpow_gt_0 (-400)) as Hlo0.
  pose proof u52_pos as Hu0. pose proof u52_val as Hu.
  assert (He : bpow (-49) = / 562949953421312).
  { change (-49)%Z with (- (49))%Z. by rewrite (bpow_neg_val 49). }
  assert (H4 : bpow 4 = 16) by (by rewrite (bpow_pos_val 4)).
  destruct sqrt125_val as [_ Hc].
  set (N := IZR n) in *. set (c := val sqrt125) in *. set (eps := bpow (-49)) in *.
  set (D := N * c) in *.
  assert (HD : 11 <= D <= 13194139533312) by (subst D; nra).
  assert (HNeps : N * eps <= / 512) by (rewrite He; lra).
  assert (Heps0 : 0 < eps) by (rewrite He; lra).
  induction Hpairs as [|pair rest Hpair _ IH];
    intros a k Rk Hk Hlen Hpfa HRk Hlo_a Hhi_a.
  - cbn [length sum_contributions fold_left root_sum foldr].
    rewrite Z.add_0_r, Rplus_0_r. done.
  - cbn [length] in Hlen |- *. rewrite Nat2Z.inj_succ in Hlen |- *.
    destruct (contribution_near n pair Hn Hpair) as (Hpft & Hrho & Hlo_t & Hhi_t).
    fold N c D in Hlo_t, Hhi_t. fold c in Hrho. rewrite root_sum_cons.
    unfold sum_contributions. destruct pair as [food service]. cbn [fold_left fst snd] in *.
    fold (sum_contributions n rest).
    set (t := contribution n food service) in *.
    set (rho := val (score_root (food, service))) in *.
    pose proof (pos_float_val a Hpfa) as Ha0.
    pose proof (pos_float_val t Hpft) as Ht0.
    assert (Hk1 : 1 <= IZR k) by (apply IZR_le; lia).
    assert (Hk' : IZR k + 1 <= N).
    { subst N. rewrite <- (plus_IZR k 1). apply IZR_le. lia. }
    assert (Hku : IZR k * u52 <= / 4096) by (rewrite Hu; lra).
    assert (HRkD : Rk <= D - c).
    { assert (IZR k * c <= (N - 1) * c) by (apply Rmult_le_compat_r; lra).
      replace ((N - 1) * c) with (D - c) in * by (subst D; ring). lra. }
    assert (HEk : 0 <= IZR k * D * eps <= D * / 512 - D * eps).
    { replace (IZR k * D * eps) with (D * (IZR k * eps)) by ring.
      assert (0 <= IZR k * eps) by (apply Rmult_le_pos; lra).
      assert (IZR k * eps <= / 512 - eps).
      { assert (IZR k * eps <= (N - 1) * eps) by (apply Rmult_le_compat_r; lra). lra. }
      split; [apply Rmult_le_pos; lra|].
      replace (D * / 512 - D * eps) with (D * (/ 512 - eps)) by ring.
      apply Rmult_le_compat_l; lra. }
    set (Ek := IZR k * D * eps) in *.
    set (A := val a * D) in *. set (T := val t * D) in *.
    assert (HA : 2 <= A <= 10 * (1 + 5 * u52) * (D - c) + Ek).
    { split.
      - assert (HX : 9 / 10 <= 1 - 6 * u52 <= 1) by lra.
        assert (0 <= IZR k * u52) by (apply Rmult_le_pos; lra).
        assert (HY : 9 / 10 <= 1 - IZR k * u52 <= 1) by lra.
        set (X := 1 - 6 * u52) in *. set (Y := 1 - IZR k * u52) in *.
        assert (10 * 1 * X * Y <= 10 * Rk * X * Y).
        { apply Rmult_le_compat_r; [lra|]. apply Rmult_le_compat_r; [lra|]. lra. }
        assert (2 <= 10 * 1 * X * Y) by (clear -HX HY; nra). lra.
      - assert (10 * Rk * (1 + 5 * u52) <= 10 * (D - c) * (1 + 5 * u52))
          by (apply Rmult_le_compat_r; lra).
        rewrite Hu in *. lra. }
    assert (HT : 5 <= T <= 10 * (1 + 5 * u52) * c).
    { split.
      - assert (10 * 1 * (1 - 6 * u52) <= 10 * rho * (1 - 6 * u52))
          by (apply Rmult_le_compat_r; lra).
        rewrite Hu in *. lra.
      - assert (10 * rho * (1 + 5 * u52) <= 10 * c * (1 + 5 * u52))
          by (apply Rmult_le_compat_r; lra).
        rewrite Hu in *. lra. }
    assert (HAT : A + T < 15 * D).
    { assert (0 <= D * eps) by (apply Rmult_le_pos; lra). rewrite Hu in *. lra. }
    assert (Hva : / 13194139533312 <= val a <= 16).
    { split.
      - assert (val a * D <= val a * 13194139533312) by (apply Rmult_le_compat_l; lra).
        fold A in H. lra.
      - apply (Rmult_le_reg_r D); [lra|]. fold A. lra. }
    assert (Hvt : / 13194139533312 <= val t <= 16).
    { split.
      - assert (val t * D <= val t * 13194139533312) by (apply Rmult_le_compat_l; lra).
        fold T in H. lra.
      - apply (Rmult_le_reg_r D); [lra|]. fold T. lra. }
    assert (Hsmall : val a + val t < bpow 4).
    { rewrite H4. apply (Rmult_lt_reg_r D); [lra|].
      replace ((val a + val t) * D) with (A + T) by (subst A T; ring). lra. }
    destruct (fadd_val a t Hpfa Hpft) as (Hpfs & Hrel & Habs); [lra|lra|].
    specialize (Habs Hsmall). fold eps in Habs.
    set (S' := val (fadd a t) * D).
    assert (HSlo : (A + T) * (1 - u52) <= S').
    { subst S' A T.
      replace ((val a * D + val t * D) * (1 - u52))
        with ((val a + val t) * (1 - u52) * D) by ring.
      apply Rmult_le_compat_r; lra. }
    assert (HShi : S' <= A + T + D * eps).
    { subst S' A T.
      replace (val a * D + val t * D + D * eps) with ((val a + val t + eps) * D) by ring.
      apply Rmult_le_compat_r; lra. }
    replace (k + Z.succ (Z.of_nat (length rest)))%Z
      with ((k + 1) + Z.of_nat (length rest))%Z by lia.
    replace (Rk + (rho + root_sum rest)) with ((Rk + rho) + root_sum rest) by ring.
    apply IH; [lia|lia|done| | |].
    + rewrite plus_IZR. split; [lra|].
      replace ((IZR k + 1) * c) with (IZR k * c + c) by ring. lra.
    + rewrite plus_IZR. fold S'.
      apply (sum_step_lower A T S' Rk rho (IZR k) u52); lra.
    + rewrite plus_IZR. fold S'.
      apply (sum_step_upper A T S' Rk rho (IZR k) D u52 eps); [subst Ek; lra|lra|lra].
Qed.

Local Close Scope R_scope.

Lemma round_half_even_shift_ge (M k B : Z) :
  0 <= M → 0 < k → (2 * B - 1) * 2 ^ k < 2 * M → B <= round_half_even_shift M k.
Proof.
  intros HM Hk Hlt. unfold round_half_even_shift.
  assert (Hd : 0 < 2 ^ k) by (apply Z.pow_pos_nonneg; lia).
  pose proof (Z.div_mod M (2 ^ k) ltac:(lia)) as Hdm.
  pose proof (Z.mod_pos_bound M (2 ^ k) Hd) as Hr.
  set (q := M / 2 ^ k) in *. set (r := M mod 2 ^ k) in *.
  destruct (Z.compare_spec (2 * r) (2 ^ k)) as [Heq|Hl|Hg].
  - destruct (Z.even q); nia.
  - nia.
  - nia.
Qed.

Local Open Scope R_scope.

(** The integer whose hundredth [round] returns, from bounds on the value. *)
Lemma float_round_between (x : spec_float) (lo hi : Z) :
  pos_float x → (1 <= lo)%Z →
  IZR (2 * lo - 1) < val x * 200 < IZR (2 * hi + 1) →
  ∃ q : positive, (lo <= Z.pos q <= hi)%Z ∧ float_round x 2 = hundredths q.
Proof.
  intros (m & e & -> & Hm) Hlo [Hval1 Hval2]. cbn [val] in Hval1, Hval2.
  assert (Hhi : (lo <= hi)%Z).
  { assert (H : IZR (2 * lo - 1) < IZR (2 * hi + 1)) by lra. apply lt_IZR in H. lia. }
  unfold float_round.
  change (10 ^ 2)%Z with 100%Z. change (Z.to_pos 100) with 100%positive.
  assert (Hq : let q := if (0 <=? e)%Z then (Z.pos m * 2 ^ e * 100)%Z
                        else round_half_even_shift (Z.pos m * 100) (- e) in
               (lo <= q <= hi)%Z).
  { cbv zeta. destruct (0 <=? e)%Z eqn:He.
    - apply Z.leb_le in He.
      rewrite (bpow_IZR e), <- !mult_IZR in Hval1, Hval2 by done.
      apply lt_IZR in Hval1, Hval2.
      set (v := (Z.pos m * 2 ^ e)%Z) in *. clearbody v. lia.
    - apply Z.leb_gt in He.
      assert (Hb : bpow e * bpow (- e) = 1).
      { rewrite <- bpow_add. replace (e + - e)%Z with 0%Z by lia. done. }
      pose proof (bpow_gt_0 (- e)) as Hbe.
      assert (Hscaled : IZR (Z.pos m) * bpow e * 200 * bpow (- e) = IZR (2 * (Z.pos m * 100))).
      { rewrite !mult_IZR.
        replace (IZR (Z.pos m) * bpow e * 200 * bpow (- e))
          with (IZR (Z.pos m) * 200 * (bpow e * bpow (- e))) by ring.
        rewrite Hb. ring. }
      split.
      + apply round_half_even_shift_ge; [lia|lia|].
        apply lt_IZR. rewrite mult_IZR, <- bpow_IZR, <- Hscaled by lia.
        apply Rmult_lt_compat_r; done.
      + apply round_half_even_shift_le; [lia|lia|lia|].
        apply lt_IZR. rewrite (mult_IZR (2 * hi + 1)), <- bpow_IZR, <- Hscaled by lia.
        apply Rmult_lt_compat_r; done. }
  cbv zeta in Hq.
  destruct (if (0 <=? e)%Z then _ else _) as [|q|q]; [lia| |lia].
  exists q. done.
Qed.

(** The sum over a non-empty list of pairs of scores, as the function
    accumulates it from [0]. *)
Lemma overall_sum_near (pairs : list (Z * Z)) :
  pairs ≠ [] → Forall scores_1_5 pairs →
  (Z.of_nat (length pairs) <= 2 ^ 40)%Z →
  let n := Z.of_nat (length pairs) in
  let x := sum_contributions n pairs (Z2F 0) in
  pos_float x
  ∧ IZR n <= root_sum pairs <= IZR n * val sqrt125
  ∧ 10 * root_sum pairs * (1 - 6 * u52) * (1 - IZR n * u52)
    <= val x * (IZR n * val sqrt125)
  ∧ val x * (IZR n * val sqrt125)
    <= 10 * root_sum pairs * (1 + 5 * u52) + IZR n * (IZR n * val sqrt125) * bpow (-49).
Proof.
  intros Hne Hpairs Hlen n x. subst x.
  destruct pairs as [|pair rest]; [done|]. clear Hne.
  apply Forall_cons in Hpairs as [Hpair Hrest].
  assert (Hn : (1 <= n <= 2 ^ 40)%Z) by (subst n; cbn [length] in *; lia).
  destruct (contribution_near n pair Hn Hpair) as (Hpft & Hrho & Hlo_t & Hhi_t).
  unfold sum_contributions. destruct pair as [food service]. cbn [fold_left fst snd] in *.
  fold (sum_contributions n rest).
  assert (Hfirst : fadd (Z2F 0) (contribution n food service) = contribution n food service).
  { destruct Hpft as (m & e & -> & _). reflexivity. }
  rewrite Hfirst, root_sum_cons.
  pose proof u52_pos as Hu0. pose proof u52_val as Hu.
  assert (He : bpow (-49) = / 562949953421312).
  { change (-49)%Z with (- (49))%Z. by rewrite (bpow_neg_val 49). }
  assert (HN : 1 <= IZR n <= 1099511627776).
  { split; [apply IZR_le; lia|]. change 1099511627776 with (IZR (2 ^ 40)). apply IZR_le. lia. }
  destruct sqrt125_val as [_ Hc].
  set (rho := val (score_root (food, service))) in *.
  set (t := contribution n food service) in *.
  assert (HD : 0 <= IZR n * val sqrt125) by (apply Rmult_le_pos; lra).
  assert (Hk : (1 + Z.of_nat (length rest))%Z = n) by (subst n; cbn [length]; lia).
  pose proof (sum_contributions_near n rest t 1 rho Hn Hrest) as Hsum.
  rewrite Hk in Hsum. unfold sum_contributions in Hsum.
  apply Hsum; [lia|lia|done|lra| |].
  - assert (10 * rho * (1 - 6 * u52) * (1 - 1 * u52) <= 10 * rho * (1 - 6 * u52) * 1).
    { apply Rmult_le_compat_l; [|lra]. apply Rmult_le_pos; lra. }
    lra.
  - assert (0 <= 1 * (IZR n * val sqrt125) * bpow (-49)) by (rewrite He; lra). lra.
Qed.

(** The sum over at most [2^40] pairs of scores between 1 and 5 lies between
    0.888 and 10.002. *)
Lemma overall_sum_range (pairs : list (Z * Z)) :
  pairs ≠ [] → Forall scores_1_5 pairs →
  (Z.of_nat (length pairs) <= 2 ^ 40)%Z →
  let x := sum_contributions (Z.of_nat (length pairs)) pairs (Z2F 0) in
  pos_float x ∧ 177 < val x * 200 < 2001.
Proof.
  intros Hne Hpairs Hlen x.
  destruct (overall_sum_near pairs Hne Hpairs Hlen) as (Hpf & HR & Hlo & Hhi).
  fold x in Hpf, Hlo, Hhi. split; [done|].
  assert (Hn : (1 <= Z.of_nat (length pairs))%Z) by (destruct pairs; [done|cbn [length]; lia]).
  set (n := Z.of_nat (length pairs)) in *.
  pose proof u52_pos as Hu0. pose proof u52_val as Hu.
  assert (He : bpow (-49) = / 562949953421312).
  { change (-49)%Z with (- (49))%Z. by rewrite (bpow_neg_val 49). }
  assert (HN : 1 <= IZR n <= 1099511627776).
  { split; [apply IZR_le; lia|]. change 1099511627776 with (IZR (2 ^ 40)). apply IZR_le. lia. }
  destruct sqrt125_val as [_ Hc]. pose proof sqrt125_upper as Hc4.
  pose proof (pos_float_val x Hpf) as Hx0.
  set (N := IZR n) in *. set (c := val sqrt125) in *. set (R0 := root_sum pairs) in *.
  set (S0 := val x) in *. set (eps := bpow (-49)) in *.
  set (D := N * c) in *.
  assert (HD : 11 <= D) by (subst D; nra).
  split.
  - assert (HX : 999 / 1000 <= 1 - 6 * u52 <= 1) by (rewrite Hu; lra).
    assert (HNu : 0 <= N * u52 <= / 4096) by (rewrite Hu; lra).
    assert (HY : 999 / 1000 <= 1 - N * u52 <= 1) by lra.
    set (X := 1 - 6 * u52) in *. set (Y := 1 - N * u52) in *.
    assert (HP : 998 / 1000 <= X * Y) by (clearbody X Y; clear -HX HY; nra).
    assert (H1 : 10 * N * (X * Y) <= S0 * D).
    { assert (10 * N * (X * Y) <= 10 * R0 * (X * Y)).
      { apply Rmult_le_compat_r; [lra|lra]. }
      replace (10 * R0 * X * Y) with (10 * R0 * (X * Y)) in Hlo by ring. lra. }
    assert (H2 : 10 * (X * Y) <= S0 * c).
    { apply (Rmult_le_reg_r N); [lra|].
      replace (S0 * c * N) with (S0 * D) by (subst D; ring).
      replace (10 * (X * Y) * N) with (10 * N * (X * Y)) by ring. done. }
    assert (H3 : S0 * c * 4 <= S0 * 45).
    { replace (S0 * c * 4) with (S0 * (c * 4)) by ring. apply Rmult_le_compat_l; lra. }
    lra.
  - assert (U1 : 10 * R0 * (1 + 5 * u52) <= 10 * D * (1 + 5 * u52)).
    { apply Rmult_le_compat_r; [lra|]. subst D. lra. }
    assert (U2 : N * D * eps <= D * / 512).
    { replace (N * D * eps) with (D * (N * eps)) by ring.
      apply Rmult_le_compat_l; [lra|]. rewrite He. lra. }
    assert (U3 : S0 * D <= (10 * (1 + 5 * u52) + / 512) * D) by lra.
    assert (U4 : S0 <= 10 * (1 + 5 * u52) + / 512).
    { apply (Rmult_le_reg_r D); [lra|done]. }
    rewrite Hu in U4. lra.
Qed.

Lemma Forall_zip_nonempty {A B : Type} (fs : list A) (ss : list B) :
  (1 <= Nat.min (length fs) (length ss))%nat → zip fs ss ≠ [].
Proof. destruct fs, ss; cbn; intros; try lia; done. Qed.

Local Close Scope R_scope.

Lemma uniform_ok_scores (food service : Z) :
  1 <= food <= 5 → 1 <= service <= 5 → uniform_ok (food ^ 2 * service) = true.
Proof.
  intros Hf Hs.
  assert (Hf' : food = 1 ∨ food = 2 ∨ food = 3 ∨ food = 4 ∨ food = 5) by lia.
  assert (Hs' : service = 1 ∨ service = 2 ∨ service = 3 ∨ service = 4 ∨ service = 5) by lia.
  destruct Hf' as [->|[->|[->|[->| ->]]]]; destruct Hs' as [->|[->|[->|[->| ->]]]];
    vm_compute; reflexivity.
Qed.

Local Open Scope R_scope.

Lemma dyadic_ltb_val (m1 e1 m2 e2 : Z) :
  dyadic_ltb m1 e1 m2 e2 = true → IZR m1 * bpow e1 < IZR m2 * bpow e2.
Proof.
  unfold dyadic_ltb. cbv zeta. intros H. apply Z.ltb_lt in H.
  rewrite (val_shift m1 e1 (Z.min e1 e2)), (val_shift m2 e2 (Z.min e1 e2)) by lia.
  apply Rmult_lt_compat_r; [apply bpow_gt_0|]. by apply IZR_lt.
Qed.

(** The margins, on the values of the two roots. *)
Lemma uniform_margin (p : Z) :
  uniform_ok p = true →
  (1 <= score_hundredth p)%Z
  ∧ IZR (2 * score_hundredth p - 1) * val sqrt125
    < 2000 * val (fsqrt (Z2F p)) * ((1 - 6 * u52) * (1 - / 1048576))
  ∧ 2000 * val (fsqrt (Z2F p)) * (1 + 5 * u52) + 200 * val sqrt125 * / 131072
    < IZR (2 * score_hundredth p + 1) * val sqrt125.
Proof.
  intros H. unfold uniform_ok in H.
  set (q := score_hundredth p) in *. clearbody q.
  destruct (fsqrt (Z2F p)) as [| | |[] mr er]; try done.
  destruct sqrt125 as [| | |[] mc ec]; try done.
  apply andb_prop in H as [H H2]. apply andb_prop in H as [Hq H1].
  apply Z.leb_le in Hq. apply dyadic_ltb_val in H1, H2.
  split; [done|]. cbn [val].
  rewrite u52_val.
  set (C := IZR (Z.pos mc) * bpow ec). set (Rr := IZR (Z.pos mr) * bpow er).
  change ((2 ^ 52 - 6) * (2 ^ 20 - 1))%Z with 4722361979270011551750%Z in H1.
  change (2 ^ 52 + 5)%Z with 4503599627370501%Z in H2.
  change (2 ^ 17)%Z with 131072%Z in H2.
  replace (er - 72)%Z with (er + - (72))%Z in H1 by lia.
  replace (er - 52)%Z with (er + - (52))%Z in H2 by lia.
  replace (ec - 17)%Z with (ec + - (17))%Z in H2 by lia.
  rewrite (bpow_add er), (bpow_neg_val 72) in H1 by lia.
  rewrite (bpow_add er), (bpow_add ec), (bpow_neg_val 52), (bpow_neg_val 17) in H2 by lia.
  change (IZR (2 ^ 72)) with 4722366482869645213696 in H1.
  change (IZR (2 ^ 52)) with 4503599627370496 in H2.
  change (IZR (2 ^ 17)) with 131072 in H2.
  rewrite !mult_IZR in H1. rewrite !mult_IZR, minus_IZR, mult_IZR in H2.
  fold C Rr in H1, H2.
  replace (IZR (2 * q - 1) * IZR (Z.pos mc) * bpow ec) with (IZR (2 * q - 1) * C) in H1
    by (subst C; ring).
  replace (2000 * IZR (Z.pos mr) * 4722361979270011551750
           * (bpow er * / 4722366482869645213696))
    with (2000 * Rr * (4722361979270011551750 * / 4722366482869645213696)) in H1
    by (subst Rr; ring).
  replace (2000 * IZR (Z.pos mr) * 4503599627370501 * (bpow er * / 4503599627370496))
    with (2000 * Rr * (4503599627370501 * / 4503599627370496)) in H2
    by (subst Rr; ring).
  replace (IZR (Z.pos mc) * (IZR (2 * q + 1) * 131072 - 200) * (bpow ec * / 131072))
    with (IZR (2 * q + 1) * C - 200 * C * / 131072) in H2
    by (subst C; field).
  clearbody C Rr. set (Q1 := IZR (2 * q - 1) * C) in *. set (Q2 := IZR (2 * q + 1) * C) in *.
  clearbody Q1 Q2. split; lra.
Qed.

Lemma root_sum_replicate (n : nat) (pair : Z * Z) :
  root_sum (replicate n pair) = IZR (Z.of_nat n) * val (score_root pair).
Proof.
  induction n as [|n IH]; [change (0 = 0 * val (score_root pair)); ring|].
  cbn [replicate]. rewrite root_sum_cons, IH, Nat2Z.inj_succ, succ_IZR. ring.
Qed.

(** The score of up to [2^32] equal pairs of scores. *)
Lemma uniform_score (name : list N) (n : nat) (food service : Z) :
  (1 <= Z.of_nat n <= 2 ^ 32)%Z → (1 <= food <= 5)%Z → (1 <= service <= 5)%Z →
  calculate_overall_score name (replicate n food) (replicate n service)
  = Ok {[ name := PyFloat (hundredths (Z.to_pos (score_hundredth (food ^ 2 * service)))) ]}.
Proof.
  intros Hn Hf Hs.
  assert (Hpair : scores_1_5 (food, service)) by done.
  rewrite calculate_overall_score_replicate; [|lia|by apply scores_in_domain].
  rewrite <- sum_contributions_replicate.
  set (pairs := replicate n (food, service)).
  assert (Hlen : length pairs = n) by apply length_replicate.
  assert (Hne : pairs ≠ []) by (destruct n; [lia|done]).
  assert (Hall : Forall scores_1_5 pairs) by (by apply Forall_replicate).
  destruct (overall_sum_near pairs Hne Hall) as (Hpf & _ & Hlo & Hhi); [rewrite Hlen; lia|].
  assert (HR : root_sum pairs = IZR (Z.of_nat n) * val (score_root (food, service)))
    by apply root_sum_replicate.
  rewrite Hlen in Hpf, Hlo, Hhi. rewrite HR in Hlo, Hhi.
  set (x := sum_contributions (Z.of_nat n) pairs (Z2F 0)) in *.
  destruct (uniform_margin _ (uniform_ok_scores food service Hf Hs)) as (Hq & Hm1 & Hm2).
  set (q := score_hundredth (food ^ 2 * service)) in *.
  change (fsqrt (Z2F (food ^ 2 * service))) with (score_root (food, service)) in Hm1, Hm2.
  destruct (float_round_between x q q Hpf Hq) as (q' & Hq' & ->).
  2:{ replace q' with (Z.to_pos q) by lia. done. }
  pose proof u52_pos as Hu0. pose proof u52_val as Hu.
  assert (He : bpow (-49) = / 562949953421312).
  { change (-49)%Z with (- (49))%Z. by rewrite (bpow_neg_val 49). }
  assert (HN : 1 <= IZR (Z.of_nat n) <= 4294967296).
  { split; [apply IZR_le; lia|]. change 4294967296 with (IZR (2 ^ 32)). apply IZR_le. lia. }
  destruct sqrt125_val as [_ Hc].
  pose proof (pos_float_val x Hpf) as Hx0.
  set (N0 := IZR (Z.of_nat n)) in *. set (c := val sqrt125) in *.
  set (rho := val (score_root (food, service))) in *. set (S0 := val x) in *.
  set (eps := bpow (-49)) in *.
  assert (Hrho : 0 <= rho).
  { destruct (contribution_near 1 (food, service) ltac:(lia) Hpair) as (_ & Hr & _).
    fold rho in Hr. lra. }
  split.
  - (* from below *)
    assert (HX : 0 <= 1 - 6 * u52) by (rewrite Hu; lra).
    assert (HY : 1 - / 1048576 <= 1 - N0 * u52) by (rewrite Hu; lra).
    set (X := 1 - 6 * u52) in *. set (Y := 1 - N0 * u52) in *.
    assert (L1 : 10 * rho * X * Y <= S0 * c).
    { apply (Rmult_le_reg_r N0); [lra|].
      replace (10 * rho * X * Y * N0) with (10 * (N0 * rho) * X * Y) by ring.
      replace (S0 * c * N0) with (S0 * (N0 * c)) by ring. done. }
    assert (L2 : 10 * rho * X * (1 - / 1048576) <= 10 * rho * X * Y).
    { apply Rmult_le_compat_l; [|done]. apply Rmult_le_pos; lra. }
    apply (Rmult_lt_reg_r c); [lra|]. lra.
  - (* from above *)
    assert (U1 : S0 * c <= 10 * rho * (1 + 5 * u52) + N0 * c * eps).
    { apply (Rmult_le_reg_r N0); [lra|].
      replace (S0 * c * N0) with (S0 * (N0 * c)) by ring.
      replace ((10 * rho * (1 + 5 * u52) + N0 * c * eps) * N0)
        with (10 * (N0 * rho) * (1 + 5 * u52) + N0 * (N0 * c) * eps) by ring.
      done. }
    assert (U2 : N0 * c * eps <= c * / 131072).
    { replace (N0 * c * eps) with (c * (N0 * eps)) by ring.
      apply Rmult_le_compat_l; [lra|]. rewrite He. lra. }
    apply (Rmult_lt_reg_r c); [lra|]. lra.
Qed.

(** X12.  For non-empty lists of scores between 1 and 5, the shorter of at
    most [2^40] elements, the score returned is the float nearest to
    [q / 100] for an integer [q] between 89 and 1000: it has two decimals
    and lies between 0.89 and 10.0.  Both bounds are reached, by the single
    pairs [(1, 1)] and [(5, 5)]. *)
Theorem overall_score_hundredths (name : list N) (food_scores service_scores : list Z) :
  Forall (fun z => (1 <= z <= 5)%Z) food_scores →
  Forall (fun z => (1 <= z <= 5)%Z) service_scores →
  (1 <= Z.of_nat (Nat.min (length food_scores) (length service_scores)) <= 2 ^ 40)%Z →
  (∃ q : positive,
     (89 <= Z.pos q <= 1000)%Z
     ∧ calculate_overall_score name food_scores service_scores
       = Ok {[ name := PyFloat (hundredths q) ]})
  ∧ calculate_overall_score name [1%Z] [1%Z] = Ok {[ name := PyFloat (hundredths 89) ]}
  ∧ calculate_overall_score name [5%Z] [5%Z] = Ok {[ name := PyFloat (hundredths 1000) ]}.
Proof.
  intros Hf Hs Hlen. split; [|split].
  2:{ apply (uniform_score name 1 1 1); lia. }
  2:{ apply (uniform_score name 1 5 5); lia. }
  pose proof (Forall_zip_scores food_scores service_scores Hf Hs) as Hpairs.
  assert (Hne : zip food_scores service_scores ≠ []) by (apply Forall_zip_nonempty; lia).
  rewrite <- (length_zip_with pair food_scores service_scores) in Hlen.
  destruct (overall_sum_range _ Hne Hpairs ltac:(lia)) as [Hpf Hval].
  destruct (float_round_between _ 89 1000 Hpf ltac:(lia)) as (q & Hq & Hround).
  { change (2 * 89 - 1)%Z with 177%Z. change (2 * 1000 + 1)%Z with 2001%Z. exact Hval. }
  exists q. split; [done|].
  rewrite calculate_overall_score_ok.
  - unfold overall_score_formula.
    destruct (zip food_scores service_scores) as [|p rest] eqn:Hzip; [done|].
    by rewrite <- Hround.
  - rewrite <- (length_zip_with pair food_scores service_scores). lia.
  - eapply Forall_impl; [exact Hpairs|]. apply scores_in_domain.
Qed.

Lemma overall_score_hundredths_witness :
  (∃ q : positive,
     (89 <= Z.pos q <= 1000)%Z
     ∧ calculate_overall_score (py "X") [5; 3; 4]%Z [5; 1]%Z
       = Ok {[ py "X" := PyFloat (hundredths q) ]})
  ∧ calculate_overall_score (py "X") [1%Z] [1%Z]
    = Ok {[ py "X" := PyFloat (hundredths 89) ]}
  ∧ calculate_overall_score (py "X") [5%Z] [5%Z]
    = Ok {[ py "X" := PyFloat (hundredths 1000) ]}.
Proof.
  apply (overall_score_hundredths (py "X") [5; 3; 4]%Z [5; 1]%Z).
  - repeat constructor; lia.
  - repeat constructor; lia.
  - simpl. lia.
Defined.

(** X13.  Reviews that all carry the same pair of scores between 1 and 5
    get the score of one such review, for up to [2^32] reviews: the
    rounding errors of the accumulated sum do not reach the second
    decimal. *)
Theorem uniform_reviews_score (name : list N) (n : nat) (food service : Z) :
  (1 <= Z.of_nat n <= 2 ^ 32)%Z → (1 <= food <= 5)%Z → (1 <= service <= 5)%Z →
  calculate_overall_score name (replicate n food) (replicate n service)
  = calculate_overall_score name [food] [service].
Proof.
  intros Hn Hf Hs.
  rewrite (uniform_score name n food service Hn Hf Hs).
  symmetry. apply (uniform_score name 1 food service); [lia|done|done].
Qed.

Lemma uniform_reviews_score_witness :
  calculate_overall_score (py "X") (replicate 3 4%Z) (replicate 3 2%Z)
  = calculate_overall_score (py "X") [4%Z] [2%Z].
Proof.
  apply (uniform_reviews_score (py "X") 3 4 2); simpl; lia.
Defined.

Local Close Scope R_scope.
Local Close Scope Z_scope.
